(** * tablesearch.js: the table searcher, its reset and its highlighter

    A shallow embedding of [src/tablesearch.js] (the jQuery plugin
    [$.fn.tableSearch]) and the properties of its two public methods,
    [searchFor] and [reset], and of the internal [highlightText].

    Strings are lists of characters; a character is a code unit below 256
    (Latin-1).  Arrays are lists, [push] appends at the tail and [pop] takes
    the last element. *)

From Stdlib Require Import Ascii String List Bool Arith Lia ZArith.
Import ListNotations.

Set Implicit Arguments.

(* ================================================================== *)
(** ** Strings and characters *)

Definition str := list ascii.

(** A string literal as a list of characters. *)
Definition txt (x : string) : str := list_ascii_of_string x.

Definition code (c : ascii) : nat := nat_of_ascii c.

Definition in_range (lo hi : nat) (c : ascii) : bool :=
  (lo <=? code c) && (code c <=? hi).

(** [String.prototype.toLowerCase] on one code unit below 256: the letters
    A-Z and the Latin-1 capitals (192-222 but the multiplication sign 215)
    move up by 32. *)
Definition lower_char (c : ascii) : ascii :=
  if in_range 65 90 c || (in_range 192 222 c && negb (code c =? 215))
  then ascii_of_nat (code c + 32) else c.

Definition toLowerCase (x : str) : str := map lower_char x.

(** The regular expression engine's [Canonicalize] under the [i] flag: the
    upper-case form when that is one code unit.  Below 256 the letters a-z and
    the Latin-1 small letters (224-254 but the division sign 247) move down by
    32; the sharp s (223), the micro sign (181) and y with diaeresis (255) have
    no upper-case form below 256 and no other character shares theirs, so they
    stand for themselves. *)
Definition canon (c : ascii) : ascii :=
  if in_range 97 122 c || (in_range 224 254 c && negb (code c =? 247))
  then ascii_of_nat (code c - 32) else c.

(** Character comparison of the matcher, with or without the [i] flag. *)
Definition char_eq (ic : bool) (a b : ascii) : bool :=
  if ic then Ascii.eqb (canon a) (canon b) else Ascii.eqb a b.

(** jQuery's [$.trim] removes white space, the no-break space (160) included,
    from both ends. *)
Definition is_space (c : ascii) : bool :=
  in_range 9 13 c || (code c =? 32) || (code c =? 160).

Fixpoint trim_left (x : str) : str :=
  match x with
  | c :: x' => if is_space c then trim_left x' else x
  | [] => []
  end.

Definition trim (x : str) : str := rev (trim_left (rev (trim_left x))).

(** [x] starts with [p]. *)
Fixpoint starts_with (p x : str) : bool :=
  match p, x with
  | [], _ => true
  | a :: p', b :: x' => Ascii.eqb a b && starts_with p' x'
  | _ :: _, [] => false
  end.

(** [String.prototype.indexOf]: the first index at which [q] occurs in [x],
    from index [i] on, or -1. *)
Fixpoint indexOf_from (i : Z) (x q : str) : Z :=
  if starts_with q x then i
  else match x with
       | [] => (-1)%Z
       | _ :: x' => indexOf_from (i + 1)%Z x' q
       end.

Definition indexOf (x q : str) : Z := indexOf_from 0%Z x q.

(* ================================================================== *)
(** ** Regular expressions: the part of the JavaScript engine the plugin uses *)

Module Regex.

(** One-character patterns: a literal, or a class [[...]] / [[^...]]. *)
Inductive atom : Type :=
| AChar (c : ascii)
| ASet (neg : bool) (cs : list ascii).

(** The patterns.  Quantifiers apply to one-character patterns, which is all
    the plugin's own patterns need. *)
Inductive regex : Type :=
| REmpty
| RAtom (a : atom)
| RStar (a : atom)
| ROpt (a : atom)
| RBol
| REol
| RSeq (r1 r2 : regex)
| RAlt (r1 r2 : regex)
| RGroup (n : nat) (r : regex).

(** A compiled [RegExp] object. *)
Record regexp : Type := mkRegexp {
  re_ast : regex;
  re_ngroups : nat;
  re_global : bool;
  re_ignoreCase : bool
}.

(** The matcher state: the index in the input, the input left from there, and
    the captures recorded so far (most recent first). *)
Record mstate : Type := mkM {
  m_pos : nat;
  m_rest : str;
  m_caps : list (nat * str)
}.

Definition cont := mstate -> option mstate.

Definition atom_ok (ic : bool) (a : atom) (c : ascii) : bool :=
  match a with
  | AChar d => char_eq ic d c
  | ASet neg cs => xorb neg (existsb (fun d => char_eq ic d c) cs)
  end.

Definition or_else (a : option mstate) (b : unit -> option mstate) : option mstate :=
  match a with
  | Some r => Some r
  | None => b tt
  end.

(** Greedy [a*]: as many characters as match, then one fewer, and so on, each
    time asking the continuation. *)
Fixpoint star_loop (ok : ascii -> bool) (rest : str) (pos : nat)
    (caps : list (nat * str)) (k : cont) : option mstate :=
  match rest with
  | c :: rest' =>
      if ok c
      then or_else (star_loop ok rest' (S pos) caps k)
                   (fun _ => k (mkM pos rest caps))
      else k (mkM pos rest caps)
  | [] => k (mkM pos rest caps)
  end.

(** The backtracking matcher, in continuation-passing style as in the
    language specification: [rmatch ic r x k] matches [r] at [x] and hands
    every way of doing so, in priority order, to [k]. *)
Fixpoint rmatch (ic : bool) (r : regex) (x : mstate) (k : cont) : option mstate :=
  match r with
  | REmpty => k x
  | RAtom a =>
      match m_rest x with
      | c :: rest' =>
          if atom_ok ic a c then k (mkM (S (m_pos x)) rest' (m_caps x)) else None
      | [] => None
      end
  | RStar a => star_loop (atom_ok ic a) (m_rest x) (m_pos x) (m_caps x) k
  | ROpt a =>
      match m_rest x with
      | c :: rest' =>
          if atom_ok ic a c
          then or_else (k (mkM (S (m_pos x)) rest' (m_caps x))) (fun _ => k x)
          else k x
      | [] => k x
      end
  | RBol => if m_pos x =? 0 then k x else None
  | REol => match m_rest x with [] => k x | _ :: _ => None end
  | RSeq r1 r2 => rmatch ic r1 x (fun y => rmatch ic r2 y k)
  | RAlt r1 r2 => or_else (rmatch ic r1 x k) (fun _ => rmatch ic r2 x k)
  | RGroup n r1 =>
      rmatch ic r1 x
        (fun y => k (mkM (m_pos y) (m_rest y)
                         ((n, firstn (m_pos y - m_pos x) (m_rest x)) :: m_caps y)))
  end.

(** One match attempt at index [pos], where [rest] is the input from there. *)
Definition match_at (re : regexp) (pos : nat) (rest : str) : option mstate :=
  rmatch (re_ignoreCase re) (re_ast re) (mkM pos rest []) Some.

(** The capture of group [n]: the text it matched, or nothing. *)
Fixpoint capture (n : nat) (caps : list (nat * str)) : option str :=
  match caps with
  | [] => None
  | (m, v) :: caps' => if m =? n then Some v else capture n caps'
  end.

Definition capture_text (n : nat) (caps : list (nat * str)) : str :=
  match capture n caps with Some v => v | None => [] end.

(** What a replacement template may refer to. *)
Record matched : Type := mkMatched {
  mt_prefix : str;    (* the input before the match *)
  mt_text : str;      (* the matched text *)
  mt_suffix : str;    (* the input after the match *)
  mt_caps : list (nat * str);
  mt_ngroups : nat
}.

Definition digit_value (c : ascii) : option nat :=
  if in_range 48 57 c then Some (code c - 48) else None.

Definition group_ref (n : nat) (mt : matched) : option str :=
  if (1 <=? n) && (n <=? mt_ngroups mt) then Some (capture_text n (mt_caps mt)) else None.

Definition dollar : ascii := "$"%char.

(** [GetSubstitution]: the expansion of a replacement template. *)
Fixpoint expand (tmpl : str) (mt : matched) : str :=
  match tmpl with
  | [] => []
  | c :: tl =>
      if Ascii.eqb c dollar then
        match tl with
        | d :: tl1 =>
            if Ascii.eqb d dollar then dollar :: expand tl1 mt
            else if Ascii.eqb d "&"%char then mt_text mt ++ expand tl1 mt
            else if Ascii.eqb d "`"%char then mt_prefix mt ++ expand tl1 mt
            else if Ascii.eqb d "'"%char then mt_suffix mt ++ expand tl1 mt
            else
              match digit_value d with
              | Some n1 =>
                  let one :=
                    match group_ref n1 mt with
                    | Some v => v ++ expand tl1 mt
                    | None => c :: d :: expand tl1 mt
                    end in
                  match tl1 with
                  | e :: tl2 =>
                      match digit_value e with
                      | Some n2 =>
                          match group_ref (10 * n1 + n2) mt with
                          | Some v => v ++ expand tl2 mt
                          | None => one
                          end
                      | None => one
                      end
                  | [] => one
                  end
              | None => c :: expand tl mt
              end
        | [] => [c]
        end
      else c :: expand tl mt
  end.

(** [String.prototype.replace] with a global pattern.  The search restarts
    after each match (one character further after an empty match); what lies
    between the matches is copied.  [skip] counts the characters of the last
    match that are still to be passed over, [before] is the input already
    passed. *)
Fixpoint replace_loop (re : regexp) (tmpl : str) (skip : nat) (before : str)
    (pos : nat) (rest : str) : str :=
  match skip with
  | S skip' =>
      match rest with
      | c :: rest' => replace_loop re tmpl skip' (before ++ [c]) (S pos) rest'
      | [] => []
      end
  | 0 =>
      match match_at re pos rest with
      | Some y =>
          let len := m_pos y - pos in
          expand tmpl (mkMatched before (firstn len rest) (skipn len rest)
                                 (m_caps y) (re_ngroups re))
          ++ match rest with
             | c :: rest' =>
                 if len =? 0
                 then c :: replace_loop re tmpl 0 (before ++ [c]) (S pos) rest'
                 else replace_loop re tmpl (len - 1) (before ++ [c]) (S pos) rest'
             | [] => []
             end
      | None =>
          match rest with
          | c :: rest' => c :: replace_loop re tmpl 0 (before ++ [c]) (S pos) rest'
          | [] => []
          end
      end
  end.

(** The same with a pattern that is not global: the first match only. *)
Fixpoint replace_first (re : regexp) (tmpl : str) (before : str)
    (pos : nat) (rest : str) : str :=
  match match_at re pos rest with
  | Some y =>
      let len := m_pos y - pos in
      expand tmpl (mkMatched before (firstn len rest) (skipn len rest)
                             (m_caps y) (re_ngroups re))
      ++ skipn len rest
  | None =>
      match rest with
      | c :: rest' => c :: replace_first re tmpl (before ++ [c]) (S pos) rest'
      | [] => []
      end
  end.

Definition replace (re : regexp) (tmpl : str) (x : str) : str :=
  if re_global re then replace_loop re tmpl 0 [] 0 x
  else replace_first re tmpl [] 0 x.

(** *** Compiling a pattern from its source text *)

(** What [new RegExp(source, flags)] gives: a pattern, a [SyntaxError], or a
    source outside the fragment modelled here. *)
Inductive compiled (A : Type) : Type :=
| Compiled (a : A)
| SyntaxError
| Unsupported.
Arguments SyntaxError {A}.
Arguments Unsupported {A}.

Inductive token : Type :=
| TLit | TOpen | TClose | TBar | TStar | TQuest | TCaret | TDollar
| TClassOpen | TBackslash | TOther.

(** The characters with a meaning of their own in a pattern; [TOther] are
    those whose meaning is not modelled. *)
Definition classify (c : ascii) : token :=
  if Ascii.eqb c "("%char then TOpen
  else if Ascii.eqb c ")"%char then TClose
  else if Ascii.eqb c "|"%char then TBar
  else if Ascii.eqb c "*"%char then TStar
  else if Ascii.eqb c "?"%char then TQuest
  else if Ascii.eqb c "^"%char then TCaret
  else if Ascii.eqb c "$"%char then TDollar
  else if Ascii.eqb c "["%char then TClassOpen
  else if Ascii.eqb c "\"%char then TBackslash
  else if Ascii.eqb c "."%char || Ascii.eqb c "+"%char || Ascii.eqb c "{"%char
          || Ascii.eqb c "}"%char || Ascii.eqb c "]"%char then TOther
  else TLit.

(** A group being read: its number, the alternatives already closed and the
    items of the current alternative, both latest first. *)
Record frame : Type := mkFrame {
  f_group : nat;
  f_alts : list regex;
  f_seq : list regex
}.

Inductive pmode : Type :=
| PNormal
| PEscape
| PClassOpen
| PClass (neg : bool) (acc : list ascii).

Record pstate : Type := mkP {
  p_top : frame;
  p_parents : list frame;
  p_next : nat;
  p_mode : pmode
}.

Definition mk_seq (items : list regex) : regex := fold_right RSeq REmpty items.

Fixpoint mk_alt (alts : list regex) : regex :=
  match alts with
  | [] => REmpty
  | [r] => r
  | r :: rs => RAlt r (mk_alt rs)
  end.

Definition frame_regex (f : frame) : regex :=
  mk_alt (rev (mk_seq (rev (f_seq f)) :: f_alts f)).

Definition push_item (r : regex) (p : pstate) : pstate :=
  let f := p_top p in
  mkP (mkFrame (f_group f) (f_alts f) (r :: f_seq f)) (p_parents p) (p_next p) PNormal.

Definition quantify (q : atom -> regex) (st : bool) (p : pstate) : compiled pstate :=
  let f := p_top p in
  match f_seq f with
  | RAtom a :: items =>
      Compiled (mkP (mkFrame (f_group f) (f_alts f) (q a :: items))
                    (p_parents p) (p_next p) PNormal)
  | [] =>
      match f_alts f, p_parents p, st with
      | [], _ :: _, false => Unsupported     (* a group that opens with a question mark *)
      | _, _, _ => SyntaxError               (* nothing to repeat *)
      end
  | _ :: _ => Unsupported
  end.

Definition pstep (p : pstate) (c : ascii) : compiled pstate :=
  match p_mode p with
  | PEscape =>
      if Ascii.eqb c "/"%char then Compiled (push_item (RAtom (AChar c)) p)
      else Unsupported
  | PClassOpen =>
      if Ascii.eqb c "^"%char
      then Compiled (mkP (p_top p) (p_parents p) (p_next p) (PClass true []))
      else if Ascii.eqb c "]"%char then Compiled (push_item (RAtom (ASet false [])) p)
      else if Ascii.eqb c "\"%char || Ascii.eqb c "-"%char then Unsupported
      else Compiled (mkP (p_top p) (p_parents p) (p_next p) (PClass false [c]))
  | PClass neg acc =>
      if Ascii.eqb c "]"%char then Compiled (push_item (RAtom (ASet neg (rev acc))) p)
      else if Ascii.eqb c "\"%char || Ascii.eqb c "-"%char then Unsupported
      else Compiled (mkP (p_top p) (p_parents p) (p_next p) (PClass neg (c :: acc)))
  | PNormal =>
      match classify c with
      | TLit => Compiled (push_item (RAtom (AChar c)) p)
      | TOpen =>
          Compiled (mkP (mkFrame (p_next p) [] []) (p_top p :: p_parents p)
                        (S (p_next p)) PNormal)
      | TClose =>
          match p_parents p with
          | f :: fs =>
              Compiled (mkP (mkFrame (f_group f) (f_alts f)
                                     (RGroup (f_group (p_top p)) (frame_regex (p_top p))
                                      :: f_seq f))
                            fs (p_next p) PNormal)
          | [] => SyntaxError
          end
      | TBar =>
          let f := p_top p in
          Compiled (mkP (mkFrame (f_group f) (mk_seq (rev (f_seq f)) :: f_alts f) [])
                        (p_parents p) (p_next p) PNormal)
      | TStar => quantify RStar true p
      | TQuest => quantify ROpt false p
      | TCaret => Compiled (push_item RBol p)
      | TDollar => Compiled (push_item REol p)
      | TClassOpen => Compiled (mkP (p_top p) (p_parents p) (p_next p) PClassOpen)
      | TBackslash => Compiled (mkP (p_top p) (p_parents p) (p_next p) PEscape)
      | TOther => Unsupported
      end
  end.

Fixpoint psteps (p : pstate) (src : str) : compiled pstate :=
  match src with
  | [] => Compiled p
  | c :: src' =>
      match pstep p c with
      | Compiled p' => psteps p' src'
      | SyntaxError => SyntaxError
      | Unsupported => Unsupported
      end
  end.

Definition pfinish (p : pstate) : compiled (regex * nat) :=
  match p_mode p, p_parents p with
  | PNormal, [] => Compiled (frame_regex (p_top p), p_next p - 1)
  | _, _ => SyntaxError
  end.

Definition parse (src : str) : compiled (regex * nat) :=
  match psteps (mkP (mkFrame 0 [] []) [] 1 PNormal) src with
  | Compiled p => pfinish p
  | SyntaxError => SyntaxError
  | Unsupported => Unsupported
  end.

Definition has_flag (f : ascii) (flags : str) : bool :=
  existsb (Ascii.eqb f) flags.

(** [new RegExp(source, flags)], for the flags [g] and [i]. *)
Definition RegExp (src flags : str) : compiled regexp :=
  if forallb (fun f => Ascii.eqb f "g"%char || Ascii.eqb f "i"%char) flags then
    match parse src with
    | Compiled (r, n) =>
        Compiled (mkRegexp r n (has_flag "g"%char flags) (has_flag "i"%char flags))
    | SyntaxError => SyntaxError
    | Unsupported => Unsupported
    end
  else Unsupported.

End Regex.

(* ================================================================== *)
(** ** The document, as jQuery shows it to the plugin *)

(** The jQuery calls the plugin makes, on a document [D] with elements [N].
    [find d n sel] is [$(n).find(sel)], the elements in document order. *)
Class Dom (D N : Type) : Type := {
  find : D -> N -> str -> list N;
  text : D -> N -> str;
  html : D -> N -> str;
  set_html : N -> str -> D -> D;
  addClass : N -> str -> D -> D;
  removeClass : N -> str -> D -> D
}.

(** [.text()] of a set of elements: the texts of its elements, joined. *)
Definition text_of {D N : Type} `{Dom D N} (d : D) (els : list N) : str :=
  concat (map (text d) els).

(* ================================================================== *)
(** ** Outcomes, callbacks and the configuration *)

Inductive exn : Type :=
| TypeError          (* a value that is not a function was called *)
| RegexSyntaxError   (* [new RegExp] refused its source *)
| NotModelled.       (* a pattern outside the modelled fragment *)

(** A call either returns or throws; the state it leaves is kept in both
    cases. *)
Inductive outcome (S : Type) : Type :=
| Done (s : S)
| Thrown (e : exn) (s : S).
Arguments Done {S} s.
Arguments Thrown {S} e s.

Definition bind {S : Type} (o : outcome S) (f : S -> outcome S) : outcome S :=
  match o with
  | Done s => f s
  | Thrown e s => Thrown e s
  end.

Notation "o >>= f" := (bind o f) (at level 50, left associativity).

Definition state_of {S : Type} (o : outcome S) : S :=
  match o with
  | Done s => s
  | Thrown _ s => s
  end.

Definition returns {S : Type} (o : outcome S) : bool :=
  match o with
  | Done _ => true
  | Thrown _ _ => false
  end.

(** A configured value: a function, or anything else ([null] by default). *)
Inductive jsval (F : Type) : Type :=
| NotFunction
| Function (f : F).
Arguments NotFunction {F}.
Arguments Function {F} f.

(** [typeof v === 'function']. *)
Definition is_function {F : Type} (v : jsval F) : bool :=
  match v with
  | Function _ => true
  | NotFunction => false
  end.

(** The callbacks of the configuration. *)
Inductive hook : Type :=
| OnMatchCell | ResetCell | OnMatchRow | OnNoMatchRow
| ResetMatchRow | ResetNoMatchRow | OnStart | OnCompleted | ResetTable.

(** One callback invocation: which callback, on which element, and the query
    handed to it, if it takes one. *)
Record call (N : Type) : Type := mkCall {
  c_hook : hook;
  c_target : N;
  c_query : option str
}.

(** The three arrays the closure keeps. *)
Inductive tracked : Type := MatchCells | MatchRows | NoMatchRows.

Definition dq : ascii := "034"%char.

(** [/<\/?mark>/gi]. *)
Definition mark_tag_source : str := txt "<\/?mark>".

(** The source of the highlighting pattern: the query text, unescaped,
    between the source's two constant parts.  [dq] is the double quote of the
    two character classes. *)
Definition highlight_source (text : str) : str :=
  txt "(^|>)([^" ++ [dq] ++ txt "<>]*)(" ++ text
  ++ txt ")([^" ++ [dq] ++ txt "<>]*)(<|$)".

Definition highlight_template : str := txt "$1$2<mark>$3</mark>$4$5".

Definition regex_replace (src flags tmpl x : str) : Regex.compiled str :=
  match Regex.RegExp src flags with
  | Regex.Compiled re => Regex.Compiled (Regex.replace re tmpl x)
  | Regex.SyntaxError => Regex.SyntaxError
  | Regex.Unsupported => Regex.Unsupported
  end.

(** The string [highlightText] computes: [old] is [element.html()], the
    result is what it hands to [element.html(newHtml)]. *)
Definition highlightHtml (old text : str) : Regex.compiled str :=
  match regex_replace mark_tag_source (txt "gi") [] old with
  | Regex.Compiled newHtml =>
      match text with
      | _ :: _ => regex_replace (highlight_source text) (txt "gi") highlight_template newHtml
      | [] => Regex.Compiled newHtml
      end
  | Regex.SyntaxError => Regex.SyntaxError
  | Regex.Unsupported => Regex.Unsupported
  end.

Section TableSearch.

Context {D N : Type} {jq : Dom D N}.

(** [self = $(this)], the table the plugin was called on. *)
Variable self : N.

Definition handler : Type := N -> D -> outcome D.
Definition cell_handler : Type := N -> str -> D -> outcome D.

Record Config : Type := mkConfig {
  columnSelector : str;
  rowSelector : str;
  rowMatchClass : str;
  searchResultsClass : str;
  searchingClass : str;
  onMatchCell : jsval cell_handler;
  resetCell : jsval handler;
  onMatchRow : jsval handler;
  onNoMatchRow : jsval handler;
  resetMatchRow : jsval handler;
  resetNoMatchRow : jsval handler;
  onStart : jsval handler;
  onCompleted : jsval handler;
  resetTable : jsval handler
}.

(** The [options] argument: a key is present or not. *)
Record Options : Type := mkOptions {
  o_columnSelector : option str;
  o_rowSelector : option str;
  o_rowMatchClass : option str;
  o_searchResultsClass : option str;
  o_searchingClass : option str;
  o_onMatchCell : option (jsval cell_handler);
  o_resetCell : option (jsval handler);
  o_onMatchRow : option (jsval handler);
  o_onNoMatchRow : option (jsval handler);
  o_resetMatchRow : option (jsval handler);
  o_resetNoMatchRow : option (jsval handler);
  o_onStart : option (jsval handler);
  o_onCompleted : option (jsval handler);
  o_resetTable : option (jsval handler)
}.

Definition no_options : Options :=
  mkOptions None None None None None None None None None None None None None None.

(** [highlightText(element, text)]. *)
Definition highlightText (element : N) (text : str) (d : D) : outcome D :=
  match highlightHtml (html d element) text with
  | Regex.Compiled newHtml => Done (set_html element newHtml d)
  | Regex.SyntaxError => Thrown RegexSyntaxError d
  | Regex.Unsupported => Thrown NotModelled d
  end.

Definition or_default {A : Type} (o : option A) (dflt : A) : A :=
  match o with
  | Some v => v
  | None => dflt
  end.

(** The configuration after [$.extend(config, options)].  The default
    callbacks read the class names from the closure's copies, which are taken
    from the merged configuration. *)
Definition configure (options : Options) : Config :=
  let rowMatchClass := or_default (o_rowMatchClass options) (txt "tablesearch-match") in
  let searchResultsClass :=
    or_default (o_searchResultsClass options) (txt "tablesearch-results") in
  let searchingClass := or_default (o_searchingClass options) (txt "tablesearch-searching") in
  mkConfig
    (or_default (o_columnSelector options) (txt ".searchable"))
    (or_default (o_rowSelector options) (txt "tbody > tr"))
    rowMatchClass searchResultsClass searchingClass
    (or_default (o_onMatchCell options)
       (Function (fun cell query d => highlightText cell query d)))
    (or_default (o_resetCell options)
       (Function (fun cell d => highlightText cell [] d)))
    (or_default (o_onMatchRow options)
       (Function (fun row d => Done (addClass row rowMatchClass d))))
    (or_default (o_onNoMatchRow options) NotFunction)
    (or_default (o_resetMatchRow options)
       (Function (fun row d => Done (removeClass row rowMatchClass d))))
    (or_default (o_resetNoMatchRow options) NotFunction)
    (or_default (o_onStart options)
       (Function (fun table d => Done (addClass table searchingClass d))))
    (or_default (o_onCompleted options)
       (Function (fun table d =>
          Done (addClass table searchResultsClass (removeClass table searchingClass d)))))
    (or_default (o_resetTable options)
       (Function (fun table d => Done (removeClass table searchResultsClass d)))).

(** The closure's state: the document, the three arrays, and (to observe the
    callbacks) the invocations made so far, oldest first. *)
Record State : Type := mkState {
  dom : D;
  matchRows : list N;
  noMatchRows : list N;
  matchCells : list N;
  calls : list (call N)
}.

(** A new searcher on document [d]. *)
Definition init (d : D) : State := mkState d [] [] [] [].

Definition get (a : tracked) (s : State) : list N :=
  match a with
  | MatchCells => matchCells s
  | MatchRows => matchRows s
  | NoMatchRows => noMatchRows s
  end.

Definition put (a : tracked) (l : list N) (s : State) : State :=
  match a with
  | MatchCells => mkState (dom s) (matchRows s) (noMatchRows s) l (calls s)
  | MatchRows => mkState (dom s) l (noMatchRows s) (matchCells s) (calls s)
  | NoMatchRows => mkState (dom s) (matchRows s) l (matchCells s) (calls s)
  end.

(** [arr.push(x)]. *)
Definition push (a : tracked) (x : N) (s : State) : State :=
  put a (get a s ++ [x]) s.

(** [arr.pop()] on a list: the last element and the others. *)
Definition pop (l : list N) : option (N * list N) :=
  match rev l with
  | [] => None
  | x :: r => Some (x, rev r)
  end.

(** Calling the function [f] on [target]: the invocation is noted, [f] acts on
    the document. *)
Definition invoke (h : hook) (f : handler) (target : N) (arg : option str)
    (s : State) : outcome State :=
  let s1 := mkState (dom s) (matchRows s) (noMatchRows s) (matchCells s)
                    (calls s ++ [mkCall h target arg]) in
  match f target (dom s1) with
  | Done d => Done (mkState d (matchRows s1) (noMatchRows s1) (matchCells s1) (calls s1))
  | Thrown e d =>
      Thrown e (mkState d (matchRows s1) (noMatchRows s1) (matchCells s1) (calls s1))
  end.

(** [while (arr.length > 0) { func($(arr.pop())); }], at most [fuel] rounds. *)
Fixpoint drain (fuel : nat) (h : hook) (f : handler) (arr : tracked)
    (s : State) : outcome State :=
  match fuel with
  | 0 => Done s
  | S fuel' =>
      match pop (get arr s) with
      | None => Done s
      | Some (x, l) => invoke h f x None (put arr l s) >>= drain fuel' h f arr
      end
  end.

(** What the parameter [arr] of [doReset] names: one of the closure's arrays,
    or an array of its own. *)
Inductive array_ref : Type :=
| Closure (a : tracked)
| Local (l : list N).

(** [doReset(func, arr)].  The loop pops from the array [arr] names, which is
    the closure's; the final [arr = []] makes the parameter name a new array
    and leaves the closure's array as the loop left it. *)
Definition doReset (h : hook) (func : jsval handler) (a : tracked)
    (s : State) : outcome State :=
  let arr := Closure a in
  (match func with
   | Function f => drain (length (get a s)) h f a s
   | NotFunction => Done s
   end) >>= fun s1 =>
  let arr := Local [] in
  Done s1.

Variable config : Config.

(** [reset()]. *)
Definition reset (s : State) : outcome State :=
  doReset ResetCell (resetCell config) MatchCells s >>= fun s1 =>
  doReset ResetMatchRow (resetMatchRow config) MatchRows s1 >>= fun s2 =>
  doReset ResetNoMatchRow (resetNoMatchRow config) NoMatchRows s2 >>= fun s3 =>
  match resetTable config with
  | Function f => invoke ResetTable f self None s3
  | NotFunction => Thrown TypeError s3
  end.

(** [cells.each(function () { matchCells.push(cell); config.onMatchCell(cell, q); })]. *)
Fixpoint each_cell (f : cell_handler) (q : str) (cells : list N)
    (s : State) : outcome State :=
  match cells with
  | [] => Done s
  | cell :: cells' =>
      invoke OnMatchCell (fun c => f c q) cell (Some q) (push MatchCells cell s)
      >>= each_cell f q cells'
  end.

(** The body of [self.find(config.rowSelector).each(...)] for one row. *)
Definition row_step (q : str) (row : N) (s : State) : outcome State :=
  let cells := find (dom s) row (columnSelector config) in
  if (indexOf (toLowerCase (text_of (dom s) cells)) q >? -1)%Z then
    (match onMatchCell config with
     | Function f => each_cell f q cells s
     | NotFunction => Done s
     end) >>= fun s1 =>
    match onMatchRow config with
    | Function f => invoke OnMatchRow f row None (push MatchRows row s1)
    | NotFunction => Done s1
    end
  else
    match onNoMatchRow config with
    | Function f => invoke OnNoMatchRow f row None (push NoMatchRows row s)
    | NotFunction => Done s
    end.

Fixpoint each_row (q : str) (rows : list N) (s : State) : outcome State :=
  match rows with
  | [] => Done s
  | row :: rows' => row_step q row s >>= each_row q rows'
  end.

(** [if (typeof f === 'function') { f(self); }]. *)
Definition if_function (h : hook) (v : jsval handler) (s : State) : outcome State :=
  match v with
  | Function f => invoke h f self None s
  | NotFunction => Done s
  end.

(** [searchFor(query)]. *)
Definition searchFor (query : str) (s : State) : outcome State :=
  reset s >>= fun s1 =>
  let q := toLowerCase (trim query) in
  match q with
  | [] => Done s1
  | _ :: _ =>
      if_function OnStart (onStart config) s1 >>= fun s2 =>
      each_row q (find (dom s2) self (rowSelector config)) s2 >>= fun s3 =>
      if_function OnCompleted (onCompleted config) s3
  end.

(** The calls a page makes on the object [tableSearch] returned, one after
    the other; a call that throws leaves the state it had reached. *)
Inductive request : Type :=
| CallSearchFor (query : str)
| CallReset.

Definition serve (r : request) (s : State) : outcome State :=
  match r with
  | CallSearchFor query => searchFor query s
  | CallReset => reset s
  end.

Definition session (rs : list request) (d : D) : State :=
  fold_left (fun s r => state_of (serve r s)) rs (init d).

End TableSearch.

(* ================================================================== *)
(** ** A small document to run the plugin on *)

Module Page.

(** A table: its rows, each with its searchable cells and their HTML, and the
    classes set on its elements.  Elements are numbers; the table is 0. *)
Record page : Type := mkPage {
  rows : list (nat * list (nat * str));
  classes : list (nat * str)
}.

Definition table : nat := 0.

Definition cells_of (d : page) (n : nat) : list (nat * str) :=
  concat (map (fun r => if fst r =? n then snd r else []) (rows d)).

Definition all_cells (d : page) : list (nat * str) := concat (map snd (rows d)).

(** Every row answers the row selector, every listed cell the column
    selector. *)
Definition page_find (d : page) (n : nat) (sel : str) : list nat :=
  if n =? table then map fst (rows d) else map fst (cells_of d n).

Definition page_html (d : page) (n : nat) : str :=
  concat (map (fun c => if fst c =? n then snd c else []) (all_cells d)).

(** The text of some HTML: what lies outside its tags. *)
Fixpoint tag_free (in_tag : bool) (h : str) : str :=
  match h with
  | [] => []
  | c :: h' =>
      if in_tag then tag_free (negb (Ascii.eqb c ">"%char)) h'
      else if Ascii.eqb c "<"%char then tag_free true h'
      else c :: tag_free false h'
  end.

Definition page_text (d : page) (n : nat) : str := tag_free false (page_html d n).

(** [element.html(h)] on a cell: the cell holds [h] from then on and gives it
    back as written.  That is what an element does for the HTML written on
    the pages used here, plain text with mark elements; HTML that an element
    writes anew (character references, text in a [textarea]) is outside this
    document. *)
Definition page_set_html (n : nat) (h : str) (d : page) : page :=
  mkPage (map (fun r => (fst r, map (fun c => if fst c =? n then (n, h) else c) (snd r)))
              (rows d))
         (classes d).

Definition same_class (n : nat) (c : str) (e : nat * str) : bool :=
  (fst e =? n) && (if list_eq_dec ascii_dec (snd e) c then true else false).

Definition page_removeClass (n : nat) (c : str) (d : page) : page :=
  mkPage (rows d) (filter (fun e => negb (same_class n c e)) (classes d)).

Definition page_addClass (n : nat) (c : str) (d : page) : page :=
  if existsb (same_class n c) (classes d) then d
  else mkPage (rows d) (classes d ++ [(n, c)]).

#[export] Instance page_dom : Dom page nat := {
  find := page_find;
  text := page_text;
  html := page_html;
  set_html := page_set_html;
  addClass := page_addClass;
  removeClass := page_removeClass
}.

(** Two rows, [Alice | Bob] and [Catherine | Smith]. *)
Definition people : page :=
  mkPage [(1, [(11, txt "Alice"); (12, txt "Bob")]);
          (2, [(21, txt "Catherine"); (22, txt "Smith")])]
         [].

(** A callback that marks its element with the class [seen]. *)
Definition mark_seen : handler (D := page) (N := nat) :=
  fun n d => Done (page_addClass n (txt "seen") d).

End Page.

(* ================================================================== *)
(** * Properties *)

(** ** Substrings *)

(** [q] occurs in [x]. *)
Definition contains (x q : str) : Prop := exists a b, x = a ++ q ++ b.

Lemma starts_with_iff (q x : str) :
  starts_with q x = true <-> exists b, x = q ++ b.
Proof.
  revert x; induction q as [|c q IH]; intros x; simpl.
  - split; [intros _; now exists x | reflexivity].
  - destruct x as [|d x].
    + split; [discriminate | intros [b Hb]; discriminate].
    + rewrite andb_true_iff, Ascii.eqb_eq, IH. split.
      * intros [-> [b ->]]. now exists b.
      * intros [b Hb]. injection Hb as -> ->. split; [reflexivity | now exists b].
Qed.

Lemma contains_cons (c : ascii) (x q : str) :
  contains (c :: x) q <-> starts_with q (c :: x) = true \/ contains x q.
Proof.
  split.
  - intros [a [b Hab]]. destruct a as [|a0 a].
    + left. apply starts_with_iff. now exists b.
    + right. simpl in Hab. injection Hab as _ ->. now exists a, b.
  - intros [H | [a [b ->]]].
    + apply starts_with_iff in H as [b Hb]. now exists [], b.
    + now exists (c :: a), b.
Qed.

Lemma indexOf_from_found (x q : str) (i : Z) :
  (0 <= i)%Z -> ((indexOf_from i x q >? -1)%Z = true <-> contains x q).
Proof.
  revert i; induction x as [|c x IH]; intros i Hi; simpl.
  - destruct (starts_with q []) eqn:E.
    + split; [intros _ | intros _; apply Z.gtb_lt; lia].
      apply starts_with_iff in E as [b Hb]. now exists [], b.
    + split; [discriminate |].
      intros [a [b Hab]]. destruct a; [|discriminate].
      assert (starts_with q [] = true) by (apply starts_with_iff; now exists b).
      congruence.
  - rewrite contains_cons. destruct (starts_with q (c :: x)) eqn:E.
    + split; [now left | intros _; apply Z.gtb_lt; lia].
    + rewrite IH by lia. split; [now right | intros [H | H]; [discriminate | exact H]].
Qed.

(** [x.indexOf(q) > -1] says that [q] occurs in [x]. *)
Lemma indexOf_found (x q : str) :
  (indexOf x q >? -1)%Z = true <-> contains x q.
Proof. apply indexOf_from_found. lia. Qed.

(** ** The searcher *)

Section SearcherFacts.

Context {D N : Type} {jq : Dom D N}.
Variable self : N.

Local Abbreviation State := (State (D := D) (N := N)).
Local Abbreviation Config := (Config (D := D) (N := N)).

(** [s'] has the invocations of [s] and then some, all of them in [P]. *)
Definition adds (P : call N -> Prop) (s s' : State) : Prop :=
  exists evs, calls s' = calls s ++ evs /\ Forall P evs.

Lemma adds_refl P s : adds P s s.
Proof. exists []. now rewrite app_nil_r. Qed.

Lemma adds_trans P s1 s2 s3 : adds P s1 s2 -> adds P s2 s3 -> adds P s1 s3.
Proof.
  intros [e1 [H1 F1]] [e2 [H2 F2]]. exists (e1 ++ e2).
  rewrite H2, H1, app_assoc. split; [reflexivity | now apply Forall_app].
Qed.

Lemma adds_bind P (o : outcome State) (k : State -> outcome State) s :
  adds P s (state_of o) ->
  (forall s1, o = Done s1 -> adds P s1 (state_of (k s1))) ->
  adds P s (state_of (o >>= k)).
Proof.
  intros Ho Hk. destruct o as [s1 | e s1]; simpl in *.
  - eapply adds_trans; [exact Ho | now apply Hk].
  - exact Ho.
Qed.

Lemma invoke_calls h f x arg (s : State) :
  calls (state_of (invoke h f x arg s)) = calls s ++ [mkCall h x arg].
Proof. unfold invoke; simpl. now destruct (f x (dom s)). Qed.

Lemma invoke_get h f x arg (s : State) a :
  get a (state_of (invoke h f x arg s)) = get a s.
Proof. unfold invoke; simpl. destruct (f x (dom s)); now destruct a. Qed.

Lemma invoke_adds (P : call N -> Prop) h f x arg (s : State) :
  P (mkCall h x arg) -> adds P s (state_of (invoke h f x arg s)).
Proof.
  intros HP. exists [mkCall h x arg]. split; [apply invoke_calls | now constructor].
Qed.

Lemma get_put_same a l (s : State) : get a (put a l s) = l.
Proof. now destruct a. Qed.

Lemma calls_put a l (s : State) : calls (put a l s) = calls s.
Proof. now destruct a. Qed.

Definition tracked_eqb (a b : tracked) : bool :=
  match a, b with
  | MatchCells, MatchCells | MatchRows, MatchRows | NoMatchRows, NoMatchRows => true
  | _, _ => false
  end.

Lemma tracked_eqb_eq a b : tracked_eqb a b = true <-> a = b.
Proof. destruct a, b; simpl; split; congruence. Qed.

Lemma get_put_other a b l (s : State) : a <> b -> get a (put b l s) = get a s.
Proof. destruct a, b; simpl; congruence. Qed.

Lemma pop_some (l : list N) x r : pop l = Some (x, r) -> l = r ++ [x].
Proof.
  unfold pop. destruct (rev l) as [|y t] eqn:E; [discriminate |].
  intros H. injection H as <- <-.
  rewrite <- (rev_involutive l), E. reflexivity.
Qed.

Lemma pop_none (l : list N) : pop l = None -> l = [].
Proof.
  unfold pop. destruct (rev l) as [|y t] eqn:E; [|discriminate].
  intros _. rewrite <- (rev_involutive l), E. reflexivity.
Qed.

(** *** The draining loop *)

(** The loop leaves the other arrays alone. *)
Lemma drain_get_other fuel h f a b (s : State) :
  b <> a -> get b (state_of (drain fuel h f a s)) = get b s.
Proof.
  intros Hab. revert s; induction fuel as [|fuel IH]; intros s; simpl; [reflexivity |].
  destruct (pop (get a s)) as [[x l]|]; [|reflexivity].
  destruct (invoke h f x None (put a l s)) as [s1|e s1] eqn:E; simpl.
  - rewrite IH. change s1 with (state_of (Done s1)). rewrite <- E, invoke_get.
    now apply get_put_other.
  - change s1 with (state_of (Thrown e s1)). rewrite <- E, invoke_get.
    now apply get_put_other.
Qed.

(** With fuel for every element, a loop that returns has emptied the array;
    it called [f] on the elements from the last to the first. *)
Lemma drain_done fuel h f a (s s' : State) :
  length (get a s) <= fuel ->
  drain fuel h f a s = Done s' ->
  get a s' = [] /\
  calls s' = calls s ++ map (fun x => mkCall h x None) (rev (get a s)).
Proof.
  revert s; induction fuel as [|fuel IH]; intros s Hfuel; simpl.
  - intros H; injection H as <-. destruct (get a s); [|simpl in Hfuel; lia].
    simpl. now rewrite app_nil_r.
  - destruct (pop (get a s)) as [[x l]|] eqn:Ep.
    + apply pop_some in Ep. intros H.
      destruct (invoke h f x None (put a l s)) as [s1|e s1] eqn:E; simpl in H;
        [|discriminate].
      assert (G1 : get a s1 = l).
      { change s1 with (state_of (Done s1)). rewrite <- E, invoke_get.
        apply get_put_same. }
      assert (C1 : calls s1 = calls s ++ [mkCall h x None]).
      { change s1 with (state_of (Done s1)). rewrite <- E, invoke_calls.
        now rewrite calls_put. }
      apply IH in H.
      * destruct H as [H1 H2]. split; [exact H1 |].
        rewrite H2, C1, G1, Ep, rev_app_distr. simpl. now rewrite <- app_assoc.
      * rewrite G1. rewrite Ep, length_app in Hfuel. simpl in Hfuel. lia.
    + apply pop_none in Ep. intros H; injection H as <-.
      rewrite Ep. simpl. now rewrite app_nil_r.
Qed.

(** The loop only ever takes elements away, and calls nothing but [f]. *)
Lemma drain_shrinks fuel h f a (s : State) :
  exists l, get a s = get a (state_of (drain fuel h f a s)) ++ l.
Proof.
  revert s; induction fuel as [|fuel IH]; intros s; simpl.
  - exists []. now rewrite app_nil_r.
  - destruct (pop (get a s)) as [[x l]|] eqn:Ep.
    + apply pop_some in Ep.
      destruct (invoke h f x None (put a l s)) as [s1|e s1] eqn:E; simpl.
      * destruct (IH s1) as [l' Hl'].
        assert (G1 : get a s1 = l).
        { change s1 with (state_of (Done s1)). rewrite <- E, invoke_get.
          apply get_put_same. }
        exists (l' ++ [x]). rewrite Ep, <- G1, Hl' at 1. now rewrite app_assoc.
      * exists [x]. rewrite Ep. f_equal.
        change s1 with (state_of (Thrown e s1)). rewrite <- E, invoke_get.
        symmetry. apply get_put_same.
    + exists []. now rewrite app_nil_r.
Qed.

Lemma drain_adds (P : call N -> Prop) fuel h f a (s : State) :
  (forall x, P (mkCall h x None)) -> adds P s (state_of (drain fuel h f a s)).
Proof.
  intros HP. revert s; induction fuel as [|fuel IH]; intros s; simpl.
  - apply adds_refl.
  - destruct (pop (get a s)) as [[x l]|]; [|apply adds_refl].
    apply adds_bind.
    + destruct (invoke_adds P h f x None (put a l s) (HP x)) as [e [He F]].
      exists e. split; [now rewrite He, calls_put | exact F].
    + intros s1 _. apply IH.
Qed.

(** On an empty array the loop does nothing. *)
Lemma drain_nil fuel h f a (s : State) :
  get a s = [] -> drain fuel h f a s = Done s.
Proof. intros H. destruct fuel; simpl; [reflexivity | now rewrite H]. Qed.

(** *** [doReset] and [reset] *)

Lemma bind_done (o : outcome State) : (o >>= fun s1 => Done s1) = o.
Proof. now destruct o. Qed.

Lemma doReset_eq h (v : jsval handler) a (s : State) :
  doReset h v a s =
  match v with
  | Function f => drain (length (get a s)) h f a s
  | NotFunction => Done s
  end.
Proof. unfold doReset. destruct v; [reflexivity | apply bind_done]. Qed.

Lemma doReset_get_other h (v : jsval handler) a b (s : State) :
  b <> a -> get b (state_of (doReset h v a s)) = get b s.
Proof.
  intros Hab. rewrite doReset_eq. destruct v; [reflexivity |].
  now apply drain_get_other.
Qed.

Lemma doReset_not_function h a (s : State) : doReset h NotFunction a s = Done s.
Proof. reflexivity. Qed.

Lemma doReset_nil h (v : jsval handler) a (s : State) :
  get a s = [] -> doReset h v a s = Done s.
Proof.
  intros H. rewrite doReset_eq. destruct v; [reflexivity | now apply drain_nil].
Qed.

Lemma doReset_done h (v : jsval handler) a (s s' : State) :
  is_function v = true -> doReset h v a s = Done s' ->
  get a s' = [] /\
  calls s' = calls s ++ map (fun x => mkCall h x None) (rev (get a s)).
Proof.
  rewrite doReset_eq. destruct v as [|f]; [discriminate |]. intros _.
  now apply drain_done.
Qed.

Lemma doReset_shrinks h (v : jsval handler) a (s : State) :
  exists l, get a s = get a (state_of (doReset h v a s)) ++ l.
Proof.
  rewrite doReset_eq. destruct v.
  - exists []. now rewrite app_nil_r.
  - apply drain_shrinks.
Qed.

Lemma doReset_adds (P : call N -> Prop) h (v : jsval handler) a (s : State) :
  (forall x, P (mkCall h x None)) -> adds P s (state_of (doReset h v a s)).
Proof.
  intros HP. rewrite doReset_eq. destruct v; [apply adds_refl | now apply drain_adds].
Qed.

(** The reset callback and the search callback that go with each array. *)
Definition reset_callback (cfg : Config) (a : tracked) : jsval handler :=
  match a with
  | MatchCells => resetCell cfg
  | MatchRows => resetMatchRow cfg
  | NoMatchRows => resetNoMatchRow cfg
  end.

Definition reset_hook (a : tracked) : hook :=
  match a with
  | MatchCells => ResetCell
  | MatchRows => ResetMatchRow
  | NoMatchRows => ResetNoMatchRow
  end.

Definition on_callable (cfg : Config) (a : tracked) : bool :=
  match a with
  | MatchCells => is_function (onMatchCell cfg)
  | MatchRows => is_function (onMatchRow cfg)
  | NoMatchRows => is_function (onNoMatchRow cfg)
  end.

Definition is_reset_hook (h : hook) : bool :=
  match h with
  | ResetCell | ResetMatchRow | ResetNoMatchRow | ResetTable => true
  | _ => false
  end.

Variable cfg : Config.

(** The last step of [reset]: the call of [config.resetTable]. *)
Definition call_resetTable (s : State) : outcome State :=
  match resetTable cfg with
  | Function f => invoke ResetTable f self None s
  | NotFunction => Thrown TypeError s
  end.

Lemma call_resetTable_get a (s : State) :
  get a (state_of (call_resetTable s)) = get a s.
Proof. unfold call_resetTable. destruct (resetTable cfg); [reflexivity | apply invoke_get]. Qed.

(** The three [doReset] calls of [reset], one after the other: [lem] is the
    lemma for [>>=], [tac] settles each [doReset]; the last goal is the call
    of [config.resetTable]. *)
Ltac reset_steps lem tac :=
  unfold reset; fold call_resetTable;
  apply lem; [tac | intros ? _; apply lem; [tac | intros ? _; apply lem; [tac | intros ? _]]].

(** [s'] has, in array [a], the elements of [s] but some of the last. *)
Definition shrinks (a : tracked) (s s' : State) : Prop :=
  exists l, get a s = get a s' ++ l.

Lemma shrinks_eq a s s' : get a s' = get a s -> shrinks a s s'.
Proof. intros H. exists []. now rewrite app_nil_r. Qed.

Lemma shrinks_trans a s1 s2 s3 : shrinks a s1 s2 -> shrinks a s2 s3 -> shrinks a s1 s3.
Proof.
  intros [l1 H1] [l2 H2]. exists (l2 ++ l1). now rewrite H1, H2, app_assoc.
Qed.

Lemma shrinks_bind a (o : outcome State) (k : State -> outcome State) s :
  shrinks a s (state_of o) ->
  (forall s1, o = Done s1 -> shrinks a s1 (state_of (k s1))) ->
  shrinks a s (state_of (o >>= k)).
Proof.
  intros Ho Hk. destruct o as [s1 | e s1]; simpl in *.
  - eapply shrinks_trans; [exact Ho | now apply Hk].
  - exact Ho.
Qed.

Lemma doReset_shrinks_any h (v : jsval handler) a b (s : State) :
  shrinks b s (state_of (doReset h v a s)).
Proof.
  destruct (tracked_eqb b a) eqn:E.
  - apply tracked_eqb_eq in E as ->. apply doReset_shrinks.
  - apply shrinks_eq, doReset_get_other. intros ->.
    assert (tracked_eqb a a = true) by now apply tracked_eqb_eq. congruence.
Qed.

(** [reset] only ever takes elements away from an array. *)
Lemma reset_shrinks a (s : State) : shrinks a s (state_of (reset self cfg s)).
Proof.
  reset_steps shrinks_bind ltac:(apply doReset_shrinks_any).
  apply shrinks_eq, call_resetTable_get.
Qed.

Lemma reset_nil a (s : State) :
  get a s = [] -> get a (state_of (reset self cfg s)) = [].
Proof.
  intros H. destruct (reset_shrinks a s) as [l Hl]. rewrite H in Hl.
  symmetry in Hl. now apply app_eq_nil in Hl.
Qed.

(** A [reset] that returns has emptied every array whose reset callback is a
    function. *)
Lemma reset_done_empty a (s s' : State) :
  reset self cfg s = Done s' ->
  is_function (reset_callback cfg a) = true -> get a s' = [].
Proof.
  unfold reset. fold call_resetTable. intros H Hf.
  destruct (doReset ResetCell (resetCell cfg) MatchCells s) as [s1|e s1] eqn:E1;
    simpl in H; [|discriminate].
  destruct (doReset ResetMatchRow (resetMatchRow cfg) MatchRows s1) as [s2|e s2] eqn:E2;
    simpl in H; [|discriminate].
  destruct (doReset ResetNoMatchRow (resetNoMatchRow cfg) NoMatchRows s2) as [s3|e s3] eqn:E3;
    simpl in H; [|discriminate].
  assert (G : get a s' = get a s3).
  { change s' with (state_of (Done s')). rewrite <- H. apply call_resetTable_get. }
  rewrite G.
  assert (G3 : forall b, b <> NoMatchRows -> get b s3 = get b s2).
  { intros b Hb. change s3 with (state_of (Done s3)). rewrite <- E3.
    now apply doReset_get_other. }
  assert (G2 : forall b, b <> MatchRows -> get b s2 = get b s1).
  { intros b Hb. change s2 with (state_of (Done s2)). rewrite <- E2.
    now apply doReset_get_other. }
  destruct a; simpl in Hf.
  - rewrite G3, G2 by discriminate. eapply proj1, doReset_done; eassumption.
  - rewrite G3 by discriminate. eapply proj1, doReset_done; eassumption.
  - eapply proj1, doReset_done; eassumption.
Qed.

(** [reset] calls reset callbacks only. *)
Lemma reset_adds (P : call N -> Prop) (s : State) :
  (forall h x, is_reset_hook h = true -> P (mkCall h x None)) ->
  adds P s (state_of (reset self cfg s)).
Proof.
  intros HP.
  reset_steps adds_bind ltac:(apply doReset_adds; intros; now apply HP).
  unfold call_resetTable.
  destruct (resetTable cfg); [apply adds_refl | apply invoke_adds; now apply HP].
Qed.

(** On a state whose arrays are empty wherever the reset callback is a
    function, [reset] comes down to the call of [config.resetTable]. *)
Lemma reset_clean (s : State) :
  (forall a, is_function (reset_callback cfg a) = true -> get a s = []) ->
  reset self cfg s = call_resetTable s.
Proof.
  intros H. unfold reset. fold call_resetTable.
  assert (R : forall a, doReset (reset_hook a) (reset_callback cfg a) a s = Done s).
  { intros a. destruct (reset_callback cfg a) eqn:E; [reflexivity |].
    apply doReset_nil, H. now rewrite E. }
  pose proof (R MatchCells) as R1. pose proof (R MatchRows) as R2.
  pose proof (R NoMatchRows) as R3. simpl in R1, R2, R3.
  rewrite R1; simpl. rewrite R2; simpl. now rewrite R3.
Qed.

(** *** The search pass *)

Lemma invoke_done h f x arg (s s' : State) :
  invoke h f x arg s = Done s' ->
  (forall a, get a s' = get a s) /\ calls s' = calls s ++ [mkCall h x arg].
Proof.
  intros H. split.
  - intros a. change s' with (state_of (Done s')). rewrite <- H. apply invoke_get.
  - change s' with (state_of (Done s')). rewrite <- H. apply invoke_calls.
Qed.

Lemma get_push a b x (s : State) :
  get a (push b x s) = if tracked_eqb a b then get b s ++ [x] else get a s.
Proof. now destruct a, b. Qed.

Lemma calls_push a x (s : State) : calls (push a x s) = calls s.
Proof. now destruct a. Qed.

Arguments push : simpl never.

Definition cell_call (q : str) (c : N) : call N := mkCall OnMatchCell c (Some q).

Lemma each_cell_done f q cells (s s' : State) :
  each_cell f q cells s = Done s' ->
  matchCells s' = matchCells s ++ cells /\
  matchRows s' = matchRows s /\
  noMatchRows s' = noMatchRows s /\
  calls s' = calls s ++ map (cell_call q) cells.
Proof.
  revert s; induction cells as [|c cells IH]; intros s; simpl.
  - intros H; injection H as <-. now rewrite !app_nil_r.
  - destruct (invoke OnMatchCell (fun c0 => f c0 q) c (Some q) (push MatchCells c s))
      as [s1|e s1] eqn:E; simpl; [|intros; discriminate].
    intros H. apply IH in H as (H1 & H2 & H3 & H4).
    apply invoke_done in E as [G C].
    pose proof (G MatchCells) as G1. pose proof (G MatchRows) as G2.
    pose proof (G NoMatchRows) as G3. rewrite get_push in G1, G2, G3.
    rewrite calls_push in C. simpl in G1, G2, G3.
    rewrite H1, H2, H3, H4, G1, G2, G3, C. simpl.
    now rewrite <- !app_assoc.
Qed.

Lemma each_cell_get_other f q cells a (s : State) :
  a <> MatchCells -> get a (state_of (each_cell f q cells s)) = get a s.
Proof.
  intros Ha. revert s; induction cells as [|c cells IH]; intros s; simpl; [reflexivity |].
  destruct (invoke OnMatchCell (fun c0 => f c0 q) c (Some q) (push MatchCells c s))
    as [s1|e s1] eqn:E; simpl.
  - rewrite IH. change s1 with (state_of (Done s1)). rewrite <- E, invoke_get, get_push.
    destruct a; simpl; congruence.
  - change s1 with (state_of (Thrown e s1)). rewrite <- E, invoke_get, get_push.
    destruct a; simpl; congruence.
Qed.

Lemma each_cell_adds (P : call N -> Prop) f q cells (s : State) :
  (forall c, P (cell_call q c)) -> adds P s (state_of (each_cell f q cells s)).
Proof.
  intros HP. revert s; induction cells as [|c cells IH]; intros s; simpl.
  - apply adds_refl.
  - apply adds_bind; [|intros s1 _; apply IH].
    destruct (invoke_adds P OnMatchCell (fun c0 => f c0 q) c (Some q)
                (push MatchCells c s) (HP c)) as [e [He F]].
    exists e. split; [now rewrite He, calls_push | exact F].
Qed.

(** The searchable cells of a row, their lower-cased text, and the test the
    pass makes on it, all in the document as it is in state [s]. *)
Definition row_cells (s : State) (r : N) : list N :=
  find (dom s) r (columnSelector cfg).

Definition row_text (s : State) (r : N) : str :=
  toLowerCase (text_of (dom s) (row_cells s r)).

Definition row_test (q : str) (s : State) (r : N) : bool :=
  (indexOf (row_text s r) q >? -1)%Z.

(** What visiting row [r] in state [s] appends to each array, and the
    callbacks it calls. *)
Definition pushed (q : str) (s : State) (r : N) (a : tracked) : list N :=
  match a with
  | MatchCells =>
      if row_test q s r && is_function (onMatchCell cfg) then row_cells s r else []
  | MatchRows =>
      if row_test q s r && is_function (onMatchRow cfg) then [r] else []
  | NoMatchRows =>
      if negb (row_test q s r) && is_function (onNoMatchRow cfg) then [r] else []
  end.

Definition row_calls (q : str) (s : State) (r : N) : list (call N) :=
  if row_test q s r then
    (if is_function (onMatchCell cfg) then map (cell_call q) (row_cells s r) else [])
    ++ (if is_function (onMatchRow cfg) then [mkCall OnMatchRow r None] else [])
  else
    (if is_function (onNoMatchRow cfg) then [mkCall OnNoMatchRow r None] else []).

Lemma row_step_done q r (s s' : State) :
  row_step cfg q r s = Done s' ->
  (forall a, get a s' = get a s ++ pushed q s r a) /\
  calls s' = calls s ++ row_calls q s r.
Proof.
  unfold row_step, pushed, row_calls, row_test, row_text, row_cells.
  destruct (indexOf _ q >? -1)%Z; simpl.
  - destruct (onMatchCell cfg) as [|f]; simpl.
    + destruct (onMatchRow cfg) as [|g]; simpl.
      * intros H; injection H as <-. split; [intros []|]; now rewrite ?app_nil_r.
      * intros H. apply invoke_done in H as [G C]. split.
        -- intros a. rewrite G, get_push. destruct a; simpl; now rewrite ?app_nil_r.
        -- now rewrite C, calls_push.
    + destruct (each_cell f q _ s) as [s1|e s1] eqn:E; simpl; [|intros; discriminate].
      apply each_cell_done in E as (E1 & E2 & E3 & E4).
      destruct (onMatchRow cfg) as [|g]; simpl.
      * intros H; injection H as <-. split.
        -- intros []; simpl; now rewrite ?app_nil_r.
        -- now rewrite app_nil_r.
      * intros H. apply invoke_done in H as [G C]. split.
        -- intros a. rewrite G, get_push.
           destruct a; simpl; rewrite ?app_nil_r; congruence.
        -- rewrite C, calls_push. simpl. now rewrite E4, <- app_assoc.
  - destruct (onNoMatchRow cfg) as [|g]; simpl.
    + intros H; injection H as <-. split; [intros []|]; now rewrite ?app_nil_r.
    + intros H. apply invoke_done in H as [G C]. split.
      * intros a. rewrite G, get_push. destruct a; simpl; now rewrite ?app_nil_r.
      * now rewrite C, calls_push.
Qed.

(** Whatever its outcome, a row's visit leaves alone the array whose search
    callback is not a function. *)
Lemma row_step_get_not_callable q r a (s : State) :
  on_callable cfg a = false -> get a (state_of (row_step cfg q r s)) = get a s.
Proof.
  intros Ha. unfold row_step.
  destruct (indexOf _ q >? -1)%Z.
  - destruct (onMatchCell cfg) as [|f] eqn:Ec; simpl.
    + destruct (onMatchRow cfg) as [|g] eqn:Er; simpl; [reflexivity |].
      rewrite invoke_get, get_push.
      destruct a; simpl in *; rewrite ?Er in Ha; simpl in Ha; congruence.
    + pose proof (each_cell_get_other f q (find (dom s) r (columnSelector cfg))
                    (a := a) s) as O.
      assert (Ha' : a <> MatchCells).
      { intros ->. simpl in Ha. rewrite Ec in Ha. discriminate. }
      specialize (O Ha').
      destruct (each_cell f q _ s) as [s1|e s1]; simpl in *; [|exact O].
      destruct (onMatchRow cfg) as [|g] eqn:Er; simpl; [exact O |].
      rewrite invoke_get, get_push.
      destruct a; simpl in *; rewrite ?Er in Ha; simpl in Ha; congruence.
  - destruct (onNoMatchRow cfg) as [|g] eqn:En; simpl; [reflexivity |].
    rewrite invoke_get, get_push.
    destruct a; simpl in *; rewrite ?En in Ha; simpl in Ha; congruence.
Qed.

Lemma row_step_adds (P : call N -> Prop) q r (s : State) :
  (forall c, P (cell_call q c)) ->
  (forall x, P (mkCall OnMatchRow x None)) ->
  (forall x, P (mkCall OnNoMatchRow x None)) ->
  adds P s (state_of (row_step cfg q r s)).
Proof.
  intros Pc Pr Pn. unfold row_step.
  destruct (indexOf _ q >? -1)%Z.
  - apply adds_bind.
    + destruct (onMatchCell cfg); [apply adds_refl | now apply each_cell_adds].
    + intros s1 _. destruct (onMatchRow cfg); [apply adds_refl |].
      destruct (invoke_adds P OnMatchRow f r None (push MatchRows r s1) (Pr r))
        as [e [He F]].
      exists e. split; [now rewrite He, calls_push | exact F].
  - destruct (onNoMatchRow cfg); [apply adds_refl |].
    destruct (invoke_adds P OnNoMatchRow f r None (push NoMatchRows r s) (Pn r))
      as [e [He F]].
    exists e. split; [now rewrite He, calls_push | exact F].
Qed.

Lemma each_row_app q l1 l2 (s : State) :
  each_row cfg q (l1 ++ l2) s = each_row cfg q l1 s >>= each_row cfg q l2.
Proof.
  revert s; induction l1 as [|r l1 IH]; intros s; simpl; [reflexivity |].
  destruct (row_step cfg q r s); simpl; [apply IH | reflexivity].
Qed.

Lemma each_row_get_not_callable q rows a (s : State) :
  on_callable cfg a = false -> get a (state_of (each_row cfg q rows s)) = get a s.
Proof.
  intros Ha. revert s; induction rows as [|r rows IH]; intros s; simpl; [reflexivity |].
  pose proof (row_step_get_not_callable q r a s Ha) as O.
  destruct (row_step cfg q r s); simpl in *; [now rewrite IH | exact O].
Qed.

Lemma each_row_adds (P : call N -> Prop) q rows (s : State) :
  (forall c, P (cell_call q c)) ->
  (forall x, P (mkCall OnMatchRow x None)) ->
  (forall x, P (mkCall OnNoMatchRow x None)) ->
  adds P s (state_of (each_row cfg q rows s)).
Proof.
  intros Pc Pr Pn. revert s; induction rows as [|r rows IH]; intros s; simpl.
  - apply adds_refl.
  - apply adds_bind; [now apply row_step_adds | intros s1 _; apply IH].
Qed.

(** Row [r] is visited in state [sr] when the pass goes over [rows] from
    state [s]. *)
Definition visited (q : str) (rows : list N) (s : State) (r : N) (sr : State) : Prop :=
  exists pre post, rows = pre ++ r :: post /\ each_row cfg q pre s = Done sr.

Lemma visited_cons q row rows (s s1 : State) r sr :
  row_step cfg q row s = Done s1 -> visited q rows s1 r sr ->
  visited q (row :: rows) s r sr.
Proof.
  intros H (pre & post & -> & Hpre). exists (row :: pre), post.
  split; [reflexivity |]. simpl. now rewrite H.
Qed.

(** A pass that returns has, in each array and among its calls, what it
    started with and then what the visits of its rows added, nothing else. *)
Lemma each_row_done q rows (s s' : State) :
  each_row cfg q rows s = Done s' ->
  (forall a, exists l, get a s' = get a s ++ l /\
     forall x, In x l -> exists r sr, visited q rows s r sr /\ In x (pushed q sr r a)) /\
  (exists evs, calls s' = calls s ++ evs /\
     forall c, In c evs -> exists r sr, visited q rows s r sr /\ In c (row_calls q sr r)).
Proof.
  revert s; induction rows as [|row rows IH]; intros s; simpl.
  - intros H; injection H as <-. split.
    + intros a. exists []. now rewrite app_nil_r.
    + exists []. now rewrite app_nil_r.
  - destruct (row_step cfg q row s) as [s1|e s1] eqn:E; simpl; [|intros; discriminate].
    intros H. apply IH in H as [HL [evs [HC HE]]].
    pose proof (row_step_done _ _ _ E) as [GL GC].
    assert (V0 : visited q (row :: rows) s row s) by (now exists [], rows).
    split.
    + intros a. destruct (HL a) as [l [Hl Hin]].
      exists (pushed q s row a ++ l). split.
      * now rewrite Hl, GL, app_assoc.
      * intros x Hx. apply in_app_or in Hx as [Hx | Hx].
        -- now exists row, s.
        -- destruct (Hin x Hx) as (r & sr & V & I). exists r, sr.
           split; [eapply visited_cons; eassumption | exact I].
    + exists (row_calls q s row ++ evs). split.
      * now rewrite HC, GC, app_assoc.
      * intros c Hc. apply in_app_or in Hc as [Hc | Hc].
        -- now exists row, s.
        -- destruct (HE c Hc) as (r & sr & V & I). exists r, sr.
           split; [eapply visited_cons; eassumption | exact I].
Qed.

(** A pass that returns has visited each of its rows, and kept what the visit
    added. *)
Lemma each_row_visit q pre r post (s s' : State) :
  each_row cfg q (pre ++ r :: post) s = Done s' ->
  exists sr, each_row cfg q pre s = Done sr /\
    (forall a, exists l1 l2, get a s' = l1 ++ pushed q sr r a ++ l2) /\
    (exists e1 e2, calls s' = calls s ++ e1 ++ row_calls q sr r ++ e2).
Proof.
  rewrite each_row_app.
  destruct (each_row cfg q pre s) as [sr|e sr] eqn:E; simpl; [|intros; discriminate].
  destruct (row_step cfg q r sr) as [s1|e s1] eqn:E1; simpl; [|intros; discriminate].
  intros H. exists sr. split; [reflexivity |].
  apply row_step_done in E1 as [GL GC].
  apply each_row_done in H as [HL [e2 [HC _]]].
  apply each_row_done in E as [_ [e1 [HC1 _]]].
  split.
  - intros a. destruct (HL a) as [l2 [Hl _]]. exists (get a sr), l2.
    now rewrite Hl, GL, app_assoc.
  - exists e1, e2. rewrite HC, GC, HC1. now rewrite <- !app_assoc.
Qed.

(** *** [searchFor] as a whole *)

Lemma if_function_get h (v : jsval handler) a (s : State) :
  get a (state_of (if_function self h v s)) = get a s.
Proof. destruct v; [reflexivity | apply invoke_get]. Qed.

Lemma if_function_adds (P : call N -> Prop) h (v : jsval handler) (s : State) :
  P (mkCall h self None) -> adds P s (state_of (if_function self h v s)).
Proof. intros HP. destruct v; [apply adds_refl | now apply invoke_adds]. Qed.

Lemma if_function_done h (v : jsval handler) (s s' : State) :
  if_function self h v s = Done s' ->
  (forall a, get a s' = get a s) /\
  calls s' = calls s ++ (if is_function v then [mkCall h self None] else []).
Proof.
  destruct v; simpl.
  - intros H; injection H as <-. now rewrite app_nil_r.
  - apply invoke_done.
Qed.

(** Array [a] is in [s'] as it is in [s]. *)
Definition keeps (a : tracked) (s s' : State) : Prop := get a s' = get a s.

Lemma keeps_bind a (o : outcome State) (k : State -> outcome State) s :
  keeps a s (state_of o) ->
  (forall s1, o = Done s1 -> keeps a s1 (state_of (k s1))) ->
  keeps a s (state_of (o >>= k)).
Proof.
  unfold keeps. intros Ho Hk. destruct o as [s1 | e s1]; simpl in *.
  - now rewrite Hk.
  - exact Ho.
Qed.

Lemma doReset_keeps h (v : jsval handler) a b (s : State) :
  (b = a -> is_function v = false) -> keeps a s (state_of (doReset h v b s)).
Proof.
  intros H. unfold keeps. destruct (tracked_eqb a b) eqn:E.
  - apply tracked_eqb_eq in E. subst b. specialize (H eq_refl).
    destruct v; [reflexivity | discriminate].
  - apply doReset_get_other. intros ->.
    assert (tracked_eqb b b = true) by now apply tracked_eqb_eq. congruence.
Qed.

(** [reset] leaves as it is the array whose reset callback is not a
    function: the final assignment of [doReset] clears nothing. *)
Lemma reset_keeps_not_function a (s : State) :
  is_function (reset_callback cfg a) = false ->
  get a (state_of (reset self cfg s)) = get a s.
Proof.
  intros Ha. change (keeps a s (state_of (reset self cfg s))).
  reset_steps keeps_bind ltac:(apply doReset_keeps; intros <-; exact Ha).
  apply call_resetTable_get.
Qed.

(** After the reset, [searchFor] leaves alone the array whose search callback
    is not a function. *)
Lemma search_pass_keeps a q (s1 : State) :
  on_callable cfg a = false ->
  keeps a s1
    (state_of (if_function self OnStart (onStart cfg) s1 >>= fun s2 =>
               each_row cfg q (find (dom s2) self (rowSelector cfg)) s2 >>= fun s3 =>
               if_function self OnCompleted (onCompleted cfg) s3)).
Proof.
  intros Ha. apply keeps_bind; [apply if_function_get |]. intros s2 _.
  apply keeps_bind; [now apply each_row_get_not_callable |]. intros s3 _.
  apply if_function_get.
Qed.

Lemma search_pass_adds (P : call N -> Prop) q (s1 : State) :
  P (mkCall OnStart self None) ->
  P (mkCall OnCompleted self None) ->
  (forall c, P (cell_call q c)) ->
  (forall x, P (mkCall OnMatchRow x None)) ->
  (forall x, P (mkCall OnNoMatchRow x None)) ->
  adds P s1
    (state_of (if_function self OnStart (onStart cfg) s1 >>= fun s2 =>
               each_row cfg q (find (dom s2) self (rowSelector cfg)) s2 >>= fun s3 =>
               if_function self OnCompleted (onCompleted cfg) s3)).
Proof.
  intros Ps Pd Pc Pr Pn.
  apply adds_bind; [now apply if_function_adds |]. intros s2 _.
  apply adds_bind; [now apply each_row_adds |]. intros s3 _.
  now apply if_function_adds.
Qed.

Lemma searchFor_adds (P : call N -> Prop) Q (s : State) :
  (forall h x, is_reset_hook h = true -> P (mkCall h x None)) ->
  P (mkCall OnStart self None) ->
  P (mkCall OnCompleted self None) ->
  (forall c, P (cell_call (toLowerCase (trim Q)) c)) ->
  (forall x, P (mkCall OnMatchRow x None)) ->
  (forall x, P (mkCall OnNoMatchRow x None)) ->
  adds P s (state_of (searchFor self cfg Q s)).
Proof.
  intros Pz Ps Pd Pc Pr Pn. unfold searchFor.
  apply adds_bind; [now apply reset_adds |]. intros s1 _.
  destruct (toLowerCase (trim Q)) as [|c0 q0] eqn:Eq; [apply adds_refl |].
  now apply search_pass_adds.
Qed.

(** A string of white space trims to nothing. *)
Lemma trim_left_spaces (x : str) : forallb is_space x = true -> trim_left x = [].
Proof.
  induction x as [|c x IH]; simpl; [reflexivity |].
  intros H. apply andb_true_iff in H as [Hc Hx]. rewrite Hc. now apply IH.
Qed.

Lemma trim_spaces (x : str) : forallb is_space x = true -> trim x = [].
Proof. intros H. unfold trim. now rewrite (trim_left_spaces x H). Qed.

(** [reset] calls the reset callbacks on elements of their arrays only. *)
Lemma drain_adds_in (P : call N -> Prop) fuel h f a (s : State) :
  (forall x, In x (get a s) -> P (mkCall h x None)) ->
  adds P s (state_of (drain fuel h f a s)).
Proof.
  revert s; induction fuel as [|fuel IH]; intros s HP; simpl.
  - apply adds_refl.
  - destruct (pop (get a s)) as [[x l]|] eqn:Ep; [|apply adds_refl].
    apply pop_some in Ep.
    apply adds_bind.
    + destruct (invoke_adds P h f x None (put a l s)) as [e [He F]].
      { apply HP. rewrite Ep. apply in_or_app. right. now left. }
      exists e. split; [now rewrite He, calls_put | exact F].
    + intros s1 E1. apply IH. intros y Hy. apply HP.
      change s1 with (state_of (Done s1)) in Hy.
      rewrite <- E1, invoke_get, get_put_same in Hy.
      rewrite Ep. apply in_or_app. now left.
Qed.

Lemma doReset_adds_in (P : call N -> Prop) h (v : jsval handler) a (s : State) :
  (forall x, In x (get a s) -> P (mkCall h x None)) ->
  adds P s (state_of (doReset h v a s)).
Proof.
  intros HP. rewrite doReset_eq. destruct v; [apply adds_refl | now apply drain_adds_in].
Qed.

Lemma reset_adds_in (P : call N -> Prop) (s : State) :
  (forall a x, In x (get a s) -> P (mkCall (reset_hook a) x None)) ->
  (forall x, P (mkCall ResetTable x None)) ->
  adds P s (state_of (reset self cfg s)).
Proof.
  intros HP HT. unfold reset. fold call_resetTable.
  apply adds_bind; [apply doReset_adds_in, (HP MatchCells) |]. intros s1 E1.
  assert (G1 : forall b, b <> MatchCells -> get b s1 = get b s).
  { intros b Hb. change s1 with (state_of (Done s1)). rewrite <- E1.
    now apply doReset_get_other. }
  apply adds_bind.
  { apply doReset_adds_in. rewrite G1 by discriminate. apply (HP MatchRows). }
  intros s2 E2.
  assert (G2 : forall b, b <> MatchRows -> get b s2 = get b s1).
  { intros b Hb. change s2 with (state_of (Done s2)). rewrite <- E2.
    now apply doReset_get_other. }
  apply adds_bind.
  { apply doReset_adds_in. rewrite G2, G1 by discriminate. apply (HP NoMatchRows). }
  intros s3 _. unfold call_resetTable.
  destruct (resetTable cfg); [apply adds_refl | apply invoke_adds, HT].
Qed.

(** *** What a pass records, row by row *)

(** The row's lower-cased text has the query in it. *)
Definition row_matches (q : str) (s : State) (r : N) : Prop :=
  contains (row_text s r) q.

Lemma row_test_matches q (s : State) r : row_test q s r = true <-> row_matches q s r.
Proof. apply indexOf_found. Qed.

Lemma row_test_no_match q (s : State) r : row_test q s r = false <-> ~ row_matches q s r.
Proof.
  rewrite <- row_test_matches. destruct (row_test q s r); split; congruence.
Qed.

Lemma pushed_match_row q (s : State) r x :
  In x (pushed q s r MatchRows) <->
  x = r /\ row_matches q s r /\ is_function (onMatchRow cfg) = true.
Proof.
  rewrite <- row_test_matches. simpl.
  destruct (row_test q s r), (is_function (onMatchRow cfg)); simpl;
    intuition congruence.
Qed.

Lemma pushed_no_match_row q (s : State) r x :
  In x (pushed q s r NoMatchRows) <->
  x = r /\ ~ row_matches q s r /\ is_function (onNoMatchRow cfg) = true.
Proof.
  rewrite <- row_test_no_match. simpl.
  destruct (row_test q s r), (is_function (onNoMatchRow cfg)); simpl;
    intuition congruence.
Qed.

Lemma pushed_cells q (s : State) r x :
  In x (pushed q s r MatchCells) <->
  In x (row_cells s r) /\ row_matches q s r /\ is_function (onMatchCell cfg) = true.
Proof.
  rewrite <- row_test_matches. simpl.
  destruct (row_test q s r), (is_function (onMatchCell cfg)); simpl;
    intuition congruence.
Qed.

Lemma in_cell_calls q h x arg (cells : list N) :
  In (mkCall h x arg) (map (cell_call q) cells) <->
  h = OnMatchCell /\ arg = Some q /\ In x cells.
Proof.
  rewrite in_map_iff. unfold cell_call. split.
  - intros [c [E I]]. injection E as <- <- <-. auto.
  - intros (-> & -> & I). now exists x.
Qed.

Lemma row_calls_match_row q (s : State) r x :
  In (mkCall OnMatchRow x None) (row_calls q s r) <->
  x = r /\ row_matches q s r /\ is_function (onMatchRow cfg) = true.
Proof.
  rewrite <- row_test_matches. unfold row_calls.
  destruct (row_test q s r).
  - rewrite in_app_iff.
    assert (C : ~ In (mkCall OnMatchRow x None)
                   (if is_function (onMatchCell cfg)
                    then map (cell_call q) (row_cells s r) else [])).
    { destruct (is_function (onMatchCell cfg)); [|intros []].
      rewrite in_cell_calls. intros [E _]. discriminate. }
    destruct (is_function (onMatchRow cfg)); simpl; intuition congruence.
  - destruct (is_function (onNoMatchRow cfg)); simpl; intuition congruence.
Qed.

Lemma row_calls_no_match_row q (s : State) r x :
  In (mkCall OnNoMatchRow x None) (row_calls q s r) <->
  x = r /\ ~ row_matches q s r /\ is_function (onNoMatchRow cfg) = true.
Proof.
  rewrite <- row_test_no_match. unfold row_calls.
  destruct (row_test q s r).
  - rewrite in_app_iff.
    assert (C : ~ In (mkCall OnNoMatchRow x None)
                   (if is_function (onMatchCell cfg)
                    then map (cell_call q) (row_cells s r) else [])).
    { destruct (is_function (onMatchCell cfg)); [|intros []].
      rewrite in_cell_calls. intros [E _]. discriminate. }
    destruct (is_function (onMatchRow cfg)); simpl; intuition congruence.
  - destruct (is_function (onNoMatchRow cfg)); simpl; intuition congruence.
Qed.

Lemma row_calls_cell q (s : State) r x arg :
  In (mkCall OnMatchCell x arg) (row_calls q s r) <->
  arg = Some q /\ In x (row_cells s r) /\ row_matches q s r
  /\ is_function (onMatchCell cfg) = true.
Proof.
  rewrite <- row_test_matches. unfold row_calls.
  destruct (row_test q s r).
  - rewrite in_app_iff.
    assert (C : ~ In (mkCall OnMatchCell x arg)
                   (if is_function (onMatchRow cfg)
                    then [mkCall OnMatchRow r None] else [])).
    { destruct (is_function (onMatchRow cfg)); simpl; intuition congruence. }
    destruct (is_function (onMatchCell cfg)).
    + rewrite in_cell_calls. intuition congruence.
    + simpl. intuition congruence.
  - destruct (is_function (onNoMatchRow cfg)); simpl; intuition congruence.
Qed.

Lemma split_unique (pre pre' post post' : list N) (r : N) :
  NoDup (pre ++ r :: post) -> pre ++ r :: post = pre' ++ r :: post' -> pre = pre'.
Proof.
  revert pre'; induction pre as [|x pre IH]; intros pre' ND E.
  - destruct pre' as [|y pre']; [reflexivity |].
    simpl in E. injection E as <- E. simpl in ND. inversion ND as [|? ? Hn _]; subst.
    exfalso. apply Hn. apply in_or_app. right. now left.
  - destruct pre' as [|y pre'].
    + simpl in E. injection E as -> E. simpl in ND. inversion ND as [|? ? Hn _]; subst.
      exfalso. apply Hn. apply in_or_app. right. now left.
    + simpl in E. injection E as <- E. f_equal. apply IH; [|exact E].
      simpl in ND. now inversion ND.
Qed.

(** Among rows that are all different, a row is visited once. *)
Lemma visited_unique q rows (s : State) r sr sr' :
  NoDup rows -> visited q rows s r sr -> visited q rows s r sr' -> sr = sr'.
Proof.
  intros ND (pre & post & E & H) (pre' & post' & E' & H').
  assert (pre = pre').
  { rewrite E in ND. rewrite E in E'. eapply split_unique; eassumption. }
  subst pre'. congruence.
Qed.

(** A pass that returns has visited every row. *)
Lemma each_row_visits_all q rows (s s' : State) r :
  each_row cfg q rows s = Done s' -> In r rows -> exists sr, visited q rows s r sr.
Proof.
  intros H Hin. apply in_split in Hin as (pre & post & ->).
  apply each_row_visit in H as (sr & Hsr & _). exists sr. now exists pre, post.
Qed.

Lemma visited_kept q rows (s s' : State) r sr :
  each_row cfg q rows s = Done s' -> visited q rows s r sr ->
  (forall a, exists l1 l2, get a s' = l1 ++ pushed q sr r a ++ l2) /\
  (exists e1 e2, calls s' = calls s ++ e1 ++ row_calls q sr r ++ e2).
Proof.
  intros H (pre & post & -> & Hpre).
  apply each_row_visit in H as (sr' & Hsr' & HL & HC).
  assert (sr' = sr) by congruence. subst sr'. now split.
Qed.

(** The steps of a [searchFor] that returns, for a query that does not trim
    to nothing. *)
Lemma searchFor_done Q (s s' : State) :
  toLowerCase (trim Q) <> [] ->
  searchFor self cfg Q s = Done s' ->
  exists s1 s2 s3,
    reset self cfg s = Done s1 /\
    if_function self OnStart (onStart cfg) s1 = Done s2 /\
    each_row cfg (toLowerCase (trim Q)) (find (dom s2) self (rowSelector cfg)) s2 = Done s3 /\
    if_function self OnCompleted (onCompleted cfg) s3 = Done s'.
Proof.
  intros Hq. unfold searchFor.
  destruct (reset self cfg s) as [s1|e s1]; simpl; [|intros; discriminate].
  destruct (toLowerCase (trim Q)) as [|c0 q0] eqn:Eq; [congruence |].
  destruct (if_function self OnStart (onStart cfg) s1) as [s2|e s2] eqn:E2; simpl;
    [|intros; discriminate].
  destruct (each_row cfg (c0 :: q0) (find (dom s2) self (rowSelector cfg)) s2)
    as [s3|e s3] eqn:E3; simpl; [|intros; discriminate].
  intros H. exists s1, s2, s3. auto.
Qed.

(** The state in which [searchFor] selects the rows: after the reset and the
    start callback. *)
Definition selecting (s : State) : outcome State :=
  reset self cfg s >>= if_function self OnStart (onStart cfg).

(** What a [searchFor] that returns has recorded and called, in terms of the
    visits of the rows. *)
Lemma searchFor_pass Q (s s' : State) :
  let q := toLowerCase (trim Q) in
  q <> [] ->
  searchFor self cfg Q s = Done s' ->
  exists s2 e0 e1 e2,
    selecting s = Done s2 /\
    calls s' = calls s ++ e0 ++ e1 ++ e2 /\
    Forall (fun c => is_reset_hook (c_hook c) = true \/ c_hook c = OnStart) e0 /\
    Forall (fun c => c_hook c = OnCompleted) e2 /\
    (forall a, (is_function (reset_callback cfg a) = true \/ get a s = []) ->
               get a s2 = []) /\
    (forall r, In r (find (dom s2) self (rowSelector cfg)) ->
               exists sr, visited q (find (dom s2) self (rowSelector cfg)) s2 r sr) /\
    (forall r sr, visited q (find (dom s2) self (rowSelector cfg)) s2 r sr ->
       (forall a, exists l1 l2, get a s' = l1 ++ pushed q sr r a ++ l2) /\
       (exists f1 f2, e1 = f1 ++ row_calls q sr r ++ f2)) /\
    (forall a, exists l, get a s' = get a s2 ++ l /\
       forall x, In x l ->
         exists r sr, visited q (find (dom s2) self (rowSelector cfg)) s2 r sr
                      /\ In x (pushed q sr r a)) /\
    (forall c, In c e1 ->
       exists r sr, visited q (find (dom s2) self (rowSelector cfg)) s2 r sr
                    /\ In c (row_calls q sr r)).
Proof.
  intros q Hq H.
  destruct (searchFor_done Q s Hq H) as (s1 & s2 & s3 & H1 & H2 & H3 & H4).
  fold q in H3.
  pose proof (reset_adds (fun c => is_reset_hook (c_hook c) = true) s) as [er [Cr Fr]].
  { intros h x Hh. exact Hh. }
  rewrite H1 in Cr. simpl in Cr.
  pose proof (if_function_done _ _ _ H2) as [G2 C2].
  pose proof (if_function_done _ _ _ H4) as [G4 C4].
  destruct (each_row_done _ _ _ H3) as [HL [e1 [C3 HE]]].
  exists s2, (er ++ if is_function (onStart cfg) then [mkCall OnStart self None] else []),
    e1, (if is_function (onCompleted cfg) then [mkCall OnCompleted self None] else []).
  split; [unfold selecting; rewrite H1; exact H2 |].
  split; [rewrite C4, C3, C2, Cr; now rewrite <- !app_assoc |].
  split.
  { apply Forall_app. split.
    - eapply Forall_impl; [|exact Fr]. intros c Hc. now left.
    - destruct (is_function (onStart cfg)); [|constructor].
      constructor; [now right | constructor]. }
  split.
  { destruct (is_function (onCompleted cfg)); [|constructor].
    constructor; [reflexivity | constructor]. }
  split.
  { intros a [Hf | Hn]; rewrite G2.
    - eapply reset_done_empty; eassumption.
    - pose proof (reset_nil a s Hn) as R. now rewrite H1 in R. }
  split; [intros r Hr; eapply each_row_visits_all; eassumption |].
  split.
  { intros r sr V. destruct (visited_kept H3 V) as [VL (f1 & f2 & VC)]. split.
    - intros a. destruct (VL a) as (l1 & l2 & E). exists l1, l2. now rewrite G4.
    - exists f1, f2. rewrite C3 in VC. now apply app_inv_head in VC. }
  split; [intros a; rewrite G4; apply HL | exact HE].
Qed.

(** *** The claims about [searchFor] and [reset] *)

Lemma in_reset_or_start_not (h : hook) x arg (e0 : list (call N)) :
  Forall (fun c => is_reset_hook (c_hook c) = true \/ c_hook c = OnStart) e0 ->
  is_reset_hook h = false -> h <> OnStart -> ~ In (mkCall h x arg) e0.
Proof.
  intros F Hh Hs Hin. rewrite Forall_forall in F. apply F in Hin. simpl in Hin.
  destruct Hin; congruence.
Qed.

Lemma in_completed_not (h : hook) x arg (e2 : list (call N)) :
  Forall (fun c => c_hook c = OnCompleted) e2 ->
  h <> OnCompleted -> ~ In (mkCall h x arg) e2.
Proof.
  intros F Hh Hin. rewrite Forall_forall in F. apply F in Hin. simpl in Hin. congruence.
Qed.

(** C1 (as amended).  Let [searchFor(Q)] return, for a query whose trimmed,
    lower-cased form [q] is not empty.  Every row the row selector gives is
    visited, in a state [sr] of the document.  When the rows are all
    different: if [onMatchRow] is a function, the row is handed to it exactly
    when the lower-cased text of its searchable cells, read in [sr], has [q] as
    a substring, and, provided the matched-row array is empty when the rows
    are visited ([resetMatchRow] is a function, or the array was empty before
    the call), it is in the matched-row array exactly then; if [onNoMatchRow]
    is a function, the row is handed to it exactly when the text does not have
    [q], and, provided the non-matched array is empty when the rows are
    visited ([resetNoMatchRow] is a function, or the array was empty before
    the call), it is in the non-matched array exactly then. *)
Theorem searchFor_sorts_rows (Q : str) (s s' : State) :
  let q := toLowerCase (trim Q) in
  q <> [] ->
  searchFor self cfg Q s = Done s' ->
  exists s2 evs,
    selecting s = Done s2 /\
    calls s' = calls s ++ evs /\
    let rows := find (dom s2) self (rowSelector cfg) in
    (forall r, In r rows -> exists sr, visited q rows s2 r sr) /\
    (NoDup rows -> forall r sr, visited q rows s2 r sr ->
       (is_function (onMatchRow cfg) = true ->
          (In (mkCall OnMatchRow r None) evs <-> row_matches q sr r) /\
          ((is_function (resetMatchRow cfg) = true \/ matchRows s = []) ->
           (In r (matchRows s') <-> row_matches q sr r))) /\
       (is_function (onNoMatchRow cfg) = true ->
          (In (mkCall OnNoMatchRow r None) evs <-> ~ row_matches q sr r) /\
          ((is_function (resetNoMatchRow cfg) = true \/ noMatchRows s = []) ->
           (In r (noMatchRows s') <-> ~ row_matches q sr r)))).
Proof.
  intros q Hq H.
  destruct (searchFor_pass Q s Hq H)
    as (s2 & e0 & e1 & e2 & Hs2 & HC & F0 & F2 & Hnil & Hall & Hkept & Horig & Hcalls).
  fold q in Hall, Hkept, Horig, Hcalls.
  exists s2, (e0 ++ e1 ++ e2). split; [exact Hs2 |]. split; [exact HC |].
  intros rows. split; [exact Hall |].
  intros ND r sr V. destruct (Hkept r sr V) as [KL (f1 & f2 & KC)].
  assert (In1 : forall h x, is_reset_hook h = false -> h <> OnStart -> h <> OnCompleted ->
                 (In (mkCall h x None) (e0 ++ e1 ++ e2) <-> In (mkCall h x None) e1)).
  { intros h x Hr Hs Hc. rewrite !in_app_iff. split; [|tauto].
    intros [I | [I | I]]; [|exact I|].
    - exfalso. revert I. now apply in_reset_or_start_not.
    - exfalso. revert I. now apply in_completed_not. }
  split.
  - intros Hf. split.
    + rewrite In1 by (reflexivity || discriminate). split.
      * intros I. destruct (Hcalls _ I) as (r' & sr' & V' & I').
        apply row_calls_match_row in I' as (<- & M & _).
        now rewrite (visited_unique ND V V').
      * intros M. rewrite KC. apply in_or_app; right. apply in_or_app; left.
        apply row_calls_match_row. auto.
    + intros Hclean. split.
      * intros I. destruct (Horig MatchRows) as (l & El & Ol).
        rewrite (Hnil MatchRows Hclean) in El. simpl in El, I. rewrite El in I.
        destruct (Ol _ I) as (r' & sr' & V' & I').
        apply pushed_match_row in I' as (<- & M & _).
        now rewrite (visited_unique ND V V').
      * intros M. destruct (KL MatchRows) as (l1 & l2 & E). simpl in E. rewrite E.
        apply in_or_app; right. apply in_or_app; left.
        apply pushed_match_row. auto.
  - intros Hf. split.
    + rewrite In1 by (reflexivity || discriminate). split.
      * intros I. destruct (Hcalls _ I) as (r' & sr' & V' & I').
        apply row_calls_no_match_row in I' as (<- & M & _).
        now rewrite (visited_unique ND V V').
      * intros M. rewrite KC. apply in_or_app; right. apply in_or_app; left.
        apply row_calls_no_match_row. auto.
    + intros Hclean. split.
      * intros I. destruct (Horig NoMatchRows) as (l & El & Ol).
        rewrite (Hnil NoMatchRows Hclean) in El. simpl in El, I. rewrite El in I.
        destruct (Ol _ I) as (r' & sr' & V' & I').
        apply pushed_no_match_row in I' as (<- & M & _).
        now rewrite (visited_unique ND V V').
      * intros M. destruct (KL NoMatchRows) as (l1 & l2 & E). simpl in E. rewrite E.
        apply in_or_app; right. apply in_or_app; left.
        apply pushed_no_match_row. auto.
Qed.

(** C2 (as amended).  Let [searchFor(Q)] return, with [onMatchCell] a
    function and [q], the trimmed lower-cased query, not empty.  For every row
    whose text has [q], all the searchable cells of the row, in order, are
    appended to the matched-cell array and handed to [onMatchCell], whether or
    not a cell's own text has [q]; [onMatchCell] is called on such cells only,
    and (the array being empty after the reset) the array holds such cells
    only. *)
Theorem searchFor_records_row_cells (Q : str) (s s' : State) :
  let q := toLowerCase (trim Q) in
  q <> [] ->
  is_function (onMatchCell cfg) = true ->
  searchFor self cfg Q s = Done s' ->
  exists s2 evs,
    selecting s = Done s2 /\
    calls s' = calls s ++ evs /\
    let rows := find (dom s2) self (rowSelector cfg) in
    (forall r, In r rows -> exists sr, visited q rows s2 r sr) /\
    (forall r sr, visited q rows s2 r sr -> row_matches q sr r ->
       (exists l1 l2, matchCells s' = l1 ++ row_cells sr r ++ l2) /\
       (exists f1 f2, evs = f1 ++ map (cell_call q) (row_cells sr r) ++ f2)) /\
    (forall c arg, In (mkCall OnMatchCell c arg) evs ->
       exists r sr, visited q rows s2 r sr /\ row_matches q sr r
                    /\ In c (row_cells sr r)) /\
    ((is_function (resetCell cfg) = true \/ matchCells s = []) ->
     forall c, In c (matchCells s') ->
       exists r sr, visited q rows s2 r sr /\ row_matches q sr r
                    /\ In c (row_cells sr r)).
Proof.
  intros q Hq Hf H.
  destruct (searchFor_pass Q s Hq H)
    as (s2 & e0 & e1 & e2 & Hs2 & HC & F0 & F2 & Hnil & Hall & Hkept & Horig & Hcalls).
  fold q in Hall, Hkept, Horig, Hcalls.
  exists s2, (e0 ++ e1 ++ e2). split; [exact Hs2 |]. split; [exact HC |].
  intros rows. split; [exact Hall |]. split; [|split].
  - intros r sr V M. destruct (Hkept r sr V) as [KL (f1 & f2 & KC)]. split.
    + destruct (KL MatchCells) as (l1 & l2 & E). exists l1, l2.
      simpl in E. apply row_test_matches in M. now rewrite M, Hf in E.
    + exists (e0 ++ f1),
        ((if is_function (onMatchRow cfg) then [mkCall OnMatchRow r None] else [])
         ++ f2 ++ e2).
      rewrite KC. unfold row_calls. apply row_test_matches in M. rewrite M, Hf.
      now rewrite <- !app_assoc.
  - intros c arg I. rewrite !in_app_iff in I. destruct I as [I | [I | I]].
    + exfalso. revert I. apply in_reset_or_start_not; [exact F0 | reflexivity | discriminate].
    + destruct (Hcalls _ I) as (r & sr & V & I').
      apply row_calls_cell in I' as (_ & Ic & M & _). now exists r, sr.
    + exfalso. revert I. apply in_completed_not; [exact F2 | discriminate].
  - intros Hclean c I. destruct (Horig MatchCells) as (l & El & Ol).
    rewrite (Hnil MatchCells Hclean) in El. simpl in El, I. rewrite El in I.
    destruct (Ol _ I) as (r & sr & V & I').
    apply pushed_cells in I' as (Ic & M & _). now exists r, sr.
Qed.

Lemma returns_bind_false (o : outcome State) (k : State -> outcome State) :
  (forall s1, returns (k s1) = false) -> returns (o >>= k) = false.
Proof. intros H. destruct o; simpl; [apply H | reflexivity]. Qed.

(** C4 (the code against the claim).  When [config.resetTable] is not a
    function, [reset] and [searchFor] never return: the call of
    [config.resetTable] is made all the same, and throws. *)
Theorem reset_throws_without_resetTable (Q : str) (s : State) :
  resetTable cfg = NotFunction ->
  returns (reset self cfg s) = false /\ returns (searchFor self cfg Q s) = false.
Proof.
  intros Hn.
  assert (R : forall s0, returns (reset self cfg s0) = false).
  { intros s0. unfold reset. rewrite Hn.
    repeat (apply returns_bind_false; intros ?). reflexivity. }
  split; [apply R |].
  unfold searchFor. specialize (R s). now destruct (reset self cfg s).
Qed.

(** For a query that trims to the empty string (an empty or all white space
    query, see [trim_spaces]), [searchFor] is [reset]: same outcome, same
    state.  So it calls reset callbacks only (no start, no completed, no match
    callback), appends to no array, leaves an empty array empty and, when it
    returns, has emptied every array whose reset callback is a function.  An
    array whose reset callback is not a function is left as it was, see
    [reset_keeps_not_function]. *)
Theorem searchFor_blank_is_reset (Q : str) (s : State) :
  trim Q = [] ->
  searchFor self cfg Q s = reset self cfg s /\
  adds (fun c => is_reset_hook (c_hook c) = true) s (state_of (searchFor self cfg Q s)) /\
  (forall a, shrinks a s (state_of (searchFor self cfg Q s))) /\
  (forall a, get a s = [] -> get a (state_of (searchFor self cfg Q s)) = []) /\
  (forall a s', searchFor self cfg Q s = Done s' ->
                is_function (reset_callback cfg a) = true -> get a s' = []).
Proof.
  intros Hsp.
  assert (E : searchFor self cfg Q s = reset self cfg s).
  { unfold searchFor. rewrite Hsp. simpl. now destruct (reset self cfg s). }
  rewrite E. split; [reflexivity |]. split; [|split; [|split]].
  - apply reset_adds. intros h x Hh. exact Hh.
  - intros a. apply reset_shrinks.
  - intros a. apply reset_nil.
  - intros a s' H Hf. eapply reset_done_empty; eassumption.
Qed.

(** C8 (as amended).  Right after a [reset] that returned, a second [reset]
    calls no callback but [config.resetTable] and leaves the three arrays as
    they are; when [config.resetTable] does nothing the second time it is
    called (as the default, [removeClass], does not), the second [reset]
    returns and leaves the document as it is. *)
Theorem reset_twice (s s1 : State) :
  reset self cfg s = Done s1 ->
  let o := reset self cfg s1 in
  (forall a, get a (state_of o) = get a s1) /\
  calls (state_of o) = calls s1 ++ [mkCall ResetTable self None] /\
  (forall f, resetTable cfg = Function f ->
             (forall d d', f self d = Done d' -> f self d' = Done d') ->
             returns o = true /\ dom (state_of o) = dom s1).
Proof.
  intros H o.
  assert (Hc : reset self cfg s1 = call_resetTable s1).
  { apply reset_clean. intros a Hf. eapply reset_done_empty; eassumption. }
  assert (Hlast : exists s3, call_resetTable s3 = Done s1).
  { revert H. unfold reset. fold call_resetTable.
    destruct (doReset ResetCell _ MatchCells s) as [x1|? ?]; simpl; [|discriminate].
    destruct (doReset ResetMatchRow _ MatchRows x1) as [x2|? ?]; simpl; [|discriminate].
    destruct (doReset ResetNoMatchRow _ NoMatchRows x2) as [x3|? ?]; simpl;
      [|discriminate].
    intros H. now exists x3. }
  destruct Hlast as [s3 H3]. subst o. rewrite Hc.
  unfold call_resetTable in *. destruct (resetTable cfg) as [|f] eqn:Ef; [discriminate |].
  split; [intros a; apply invoke_get |]. split; [apply invoke_calls |].
  intros f' Ef' Hidem. injection Ef' as <-.
  assert (Hd : f self (dom s3) = Done (dom s1)).
  { unfold invoke in H3. simpl in H3. destruct (f self (dom s3)); [|discriminate].
    injection H3 as <-. reflexivity. }
  apply Hidem in Hd. unfold invoke. simpl. rewrite Hd. now split.
Qed.

(** C9.  Every call of [onMatchCell] that [searchFor(Q)] makes hands it the
    trimmed, lower-cased query. *)
Theorem onMatchCell_gets_normalized_query (Q : str) (s : State) :
  exists evs,
    calls (state_of (searchFor self cfg Q s)) = calls s ++ evs /\
    forall c, In c evs -> c_hook c = OnMatchCell ->
              c_query c = Some (toLowerCase (trim Q)).
Proof.
  destruct (searchFor_adds
              (fun c => c_hook c = OnMatchCell -> c_query c = Some (toLowerCase (trim Q)))
              Q s) as [evs [E F]]; simpl; try discriminate; try reflexivity.
  - intros h x Hh Hc. subst h. discriminate.
  - exists evs. split; [exact E |]. rewrite Forall_forall in F. exact F.
Qed.

Lemma session_snoc (rs : list request) (r : request) (d : D) :
  session self cfg (rs ++ [r]) d = state_of (serve self cfg r (session self cfg rs d)).
Proof. unfold session. now rewrite fold_left_app. Qed.

(** C10.  When the search callback of an array (of [onMatchCell] for the
    matched cells, [onMatchRow] for the matched rows, [onNoMatchRow] for the
    others) is not a function, then whatever calls are made on the searcher,
    the array stays empty and the reset callback that goes with it is never
    called. *)
Theorem untracked_without_callback (a : tracked) (d : D) (rs : list request) :
  on_callable cfg a = false ->
  get a (session self cfg rs d) = [] /\
  Forall (fun c => c_hook c <> reset_hook a) (calls (session self cfg rs d)).
Proof.
  intros Ha. induction rs as [|r rs IH] using rev_ind.
  - split; [now destruct a | constructor].
  - rewrite session_snoc. destruct IH as [IHg IHc].
    set (s := session self cfg rs d) in *.
    assert (Rg : get a (state_of (reset self cfg s)) = []) by now apply reset_nil.
    assert (Rc : adds (fun c => c_hook c <> reset_hook a) s (state_of (reset self cfg s))).
    { apply reset_adds_in.
      - intros b x Hx. simpl. intros Hb.
        assert (b = a) by (destruct a, b; simpl in Hb; congruence). subst b.
        rewrite IHg in Hx. exact Hx.
      - intros x. simpl. destruct a; discriminate. }
    assert (Fin : forall s', adds (fun c => c_hook c <> reset_hook a) s s' ->
                    Forall (fun c => c_hook c <> reset_hook a) (calls s')).
    { intros s' [e [E F]]. rewrite E. apply Forall_app. now split. }
    destruct r as [Q|]; simpl; [|split; [exact Rg | now apply Fin]].
    unfold searchFor. split.
    + destruct (reset self cfg s) as [s1|e s1]; simpl in *; [|exact Rg].
      destruct (toLowerCase (trim Q)) as [|c0 q0]; [exact Rg |].
      rewrite <- Rg. now apply search_pass_keeps.
    + apply Fin. apply adds_bind; [exact Rc |]. intros s1 _.
      destruct (toLowerCase (trim Q)) as [|c0 q0]; [apply adds_refl |].
      apply search_pass_adds; simpl; intros; destruct a; discriminate.
Qed.

End SearcherFacts.

(* ================================================================== *)
(** ** The matcher on the plugin's two patterns *)

Import Regex.

(** A property of characters that holds of each of the 256 holds of all. *)
Lemma all_ascii (P : ascii -> bool) :
  forallb P (map ascii_of_nat (seq 0 256)) = true -> forall c, P c = true.
Proof.
  intros H c. rewrite forallb_forall in H. apply H.
  rewrite <- (ascii_nat_embedding c). apply in_map, in_seq.
  pose proof (nat_ascii_bounded c). lia.
Qed.

Lemma all_ascii2 (P : ascii -> ascii -> bool) :
  forallb (fun c => forallb (P c) (map ascii_of_nat (seq 0 256)))
          (map ascii_of_nat (seq 0 256)) = true ->
  forall c d, P c d = true.
Proof.
  intros H c d. apply all_ascii.
  apply (all_ascii (fun c => forallb (P c) (map ascii_of_nat (seq 0 256))) H).
Qed.

(** The characters a text run of the highlighting pattern may hold: all but
    the double quote and the two angle brackets. *)
Definition plain_set : atom := ASet true [dq; "<"%char; ">"%char].

Definition plain (c : ascii) : bool := atom_ok true plain_set c.

Definition lt_char : ascii := "<"%char.
Definition gt_char : ascii := ">"%char.

Lemma plain_spec (c : ascii) :
  plain c = negb (Ascii.eqb c dq || Ascii.eqb c lt_char || Ascii.eqb c gt_char).
Proof.
  apply Bool.eqb_prop. revert c. apply all_ascii. vm_compute. reflexivity.
Qed.

(** Characters the matcher takes for the same are plain together. *)
Lemma char_eq_plain (a b : ascii) : char_eq true a b = true -> plain a = plain b.
Proof.
  intros H. apply Bool.eqb_prop.
  assert (G : forall a b, implb (char_eq true a b) (Bool.eqb (plain a) (plain b)) = true).
  { apply all_ascii2. vm_compute. reflexivity. }
  specialize (G a b). now rewrite H in G.
Qed.

Lemma char_eq_lt (c : ascii) : char_eq true lt_char c = Ascii.eqb c lt_char.
Proof.
  apply Bool.eqb_prop. revert c. apply all_ascii. vm_compute. reflexivity.
Qed.

Lemma char_eq_gt (c : ascii) : char_eq true gt_char c = Ascii.eqb c gt_char.
Proof.
  apply Bool.eqb_prop. revert c. apply all_ascii. vm_compute. reflexivity.
Qed.

(** [t] is at the head of [r], to the matcher's eye under the [i] flag. *)
Fixpoint ci_prefix (t r : str) : bool :=
  match t, r with
  | [], _ => true
  | a :: t', b :: r' => char_eq true a b && ci_prefix t' r'
  | _ :: _, [] => false
  end.

(** The indices of [r], counted from [i], at which [t] occurs. *)
Fixpoint occurrences_from (i : nat) (t r : str) : list nat :=
  (if ci_prefix t r then [i] else [])
  ++ match r with
     | [] => []
     | _ :: r' => occurrences_from (S i) t r'
     end.

Definition occurrences (t r : str) : list nat := occurrences_from 0 t r.

(** A pattern character that stands for itself. *)
Definition literal_char (c : ascii) : bool :=
  match classify c with
  | TLit => true
  | _ => false
  end.

Definition literal (t : str) : bool := forallb literal_char t.

Definition lit (c : ascii) : regex := RAtom (AChar c).

(** The two patterns, compiled. *)
Definition mark_tag_ast : regex :=
  RSeq (lit lt_char) (RSeq (ROpt (AChar "/"%char)) (mk_seq (map lit (txt "mark>")))).

Definition mark_tag_re : regexp := mkRegexp mark_tag_ast 0 true true.

Definition highlight_ast (t : str) : regex :=
  RSeq (RGroup 1 (RAlt (RSeq RBol REmpty) (RSeq (lit gt_char) REmpty)))
 (RSeq (RGroup 2 (RSeq (RStar plain_set) REmpty))
 (RSeq (RGroup 3 (mk_seq (map lit t)))
 (RSeq (RGroup 4 (RSeq (RStar plain_set) REmpty))
 (RSeq (RGroup 5 (RAlt (RSeq (lit lt_char) REmpty) (RSeq REol REmpty)))
  REmpty)))).

Definition highlight_re (t : str) : regexp := mkRegexp (highlight_ast t) 5 true true.

(** The highest index, from [n] down, at which [g] answers. *)
Fixpoint first_down (n : nat) (g : nat -> option mstate) : option mstate :=
  match g n with
  | Some r => Some r
  | None =>
      match n with
      | 0 => None
      | S m => first_down m g
      end
  end.

(** The length of the longest head of [r] made of characters in [ok]. *)
Fixpoint span_len (ok : ascii -> bool) (r : str) : nat :=
  match r with
  | c :: r' => if ok c then S (span_len ok r') else 0
  | [] => 0
  end.

(** Lines of HTML with marks put in: [marked_up h h'] when [h'] is [h] with
    opening and closing mark tags inserted. *)
Inductive marked_up : str -> str -> Prop :=
| mu_nil : marked_up [] []
| mu_char c h h' : marked_up h h' -> marked_up (c :: h) (c :: h')
| mu_open h h' : marked_up h h' -> marked_up h (txt "<mark>" ++ h')
| mu_close h h' : marked_up h h' -> marked_up h (txt "</mark>" ++ h').

(** The length of the mark tag at the head of [r], if there is one. *)
Definition mark_tag_len (r : str) : option nat :=
  if ci_prefix (txt "<mark>") r then Some 6
  else if ci_prefix (txt "</mark>") r then Some 7
  else None.

(** No mark tag anywhere in [h]. *)
Fixpoint no_mark_tags (h : str) : bool :=
  match mark_tag_len h with
  | Some _ => false
  | None =>
      match h with
      | [] => true
      | _ :: h' => no_mark_tags h'
      end
  end.

(** HTML as text runs and tags: a first run, then tags each followed by a
    run. *)
Fixpoint render (r0 : str) (segs : list (str * str)) : str :=
  match segs with
  | [] => r0
  | (tag, r) :: segs' => r0 ++ [lt_char] ++ tag ++ [gt_char] ++ render r segs'
  end.

(** *** The greedy star and literal text *)

Arguments char_eq : simpl never.
Arguments plain : simpl never.

Lemma first_down_0 (g : nat -> option mstate) : first_down 0 g = g 0.
Proof. simpl. now destruct (g 0). Qed.

Lemma first_down_ext (n : nat) (g g' : nat -> option mstate) :
  (forall i, i <= n -> g i = g' i) -> first_down n g = first_down n g'.
Proof.
  induction n as [|n IH]; intros H; simpl.
  - now rewrite (H 0) by lia.
  - rewrite (H (S n)) by lia. destruct (g' (S n)); [reflexivity |].
    apply IH. intros i Hi. apply H. lia.
Qed.

Lemma first_down_shift (m : nat) (g : nat -> option mstate) :
  first_down (S m) g = or_else (first_down m (fun n => g (S n))) (fun _ => g 0).
Proof.
  induction m as [|m IH].
  - simpl. destruct (g 1); simpl; [reflexivity | now destruct (g 0)].
  - change (first_down (S (S m)) g)
      with (match g (S (S m)) with Some r => Some r | None => first_down (S m) g end).
    rewrite IH. simpl. now destruct (g (S (S m))).
Qed.

(** The answer of [first_down] is the answer at the highest index that
    answers. *)
Lemma first_down_some (n : nat) (g : nat -> option mstate) (z : mstate) :
  first_down n g = Some z ->
  exists i, i <= n /\ g i = Some z /\ forall j, i < j -> j <= n -> g j = None.
Proof.
  induction n as [|n IH]; simpl.
  - destruct (g 0) eqn:E; [|discriminate]. intros H; injection H as ->.
    exists 0. split; [lia |]. split; [exact E |]. intros; lia.
  - destruct (g (S n)) eqn:E.
    + intros H; injection H as ->. exists (S n). split; [lia |].
      split; [exact E |]. intros; lia.
    + intros H. apply IH in H as (i & Hi & Gi & Hj). exists i.
      split; [lia |]. split; [exact Gi |]. intros j H1 H2.
      destruct (Nat.eq_dec j (S n)) as [-> | Hne]; [exact E | apply Hj; lia].
Qed.

Lemma first_down_none (n : nat) (g : nat -> option mstate) :
  (forall i, i <= n -> g i = None) -> first_down n g = None.
Proof.
  induction n as [|n IH]; intros H; simpl.
  - now rewrite (H 0) by lia.
  - rewrite (H (S n)) by lia. apply IH. intros i Hi. apply H. lia.
Qed.

Lemma first_down_at (n i : nat) (g : nat -> option mstate) (z : mstate) :
  i <= n -> g i = Some z -> (forall j, i < j -> j <= n -> g j = None) ->
  first_down n g = Some z.
Proof.
  induction n as [|n IH]; intros Hi Gi Hj.
  - assert (i = 0) by lia. subst. now rewrite first_down_0.
  - simpl. destruct (Nat.eq_dec i (S n)) as [-> | Hne].
    + now rewrite Gi.
    + rewrite (Hj (S n)) by lia. apply IH; [lia | exact Gi |].
      intros j H1 H2. apply Hj; lia.
Qed.

Lemma first_down_top (n : nat) (g : nat -> option mstate) :
  (forall j, j < n -> g j = None) -> first_down n g = g n.
Proof.
  intros H. destruct (g n) as [z|] eqn:E.
  - apply first_down_at with (i := n); [lia | exact E | intros; lia].
  - apply first_down_none. intros i Hi.
    destruct (Nat.eq_dec i n) as [-> | Hne]; [exact E | apply H; lia].
Qed.

Lemma star_loop_spec (ok : ascii -> bool) (rest : str) (pos : nat)
    (caps : list (nat * str)) (k : cont) :
  star_loop ok rest pos caps k =
  first_down (span_len ok rest) (fun n => k (mkM (pos + n) (skipn n rest) caps)).
Proof.
  revert pos; induction rest as [|c rest IH]; intros pos; simpl star_loop; simpl span_len.
  - rewrite first_down_0. simpl. now rewrite Nat.add_0_r.
  - destruct (ok c).
    + rewrite first_down_shift, IH. simpl. rewrite Nat.add_0_r. f_equal.
      apply first_down_ext. intros i _. now rewrite Nat.add_succ_r.
    + rewrite first_down_0. simpl. now rewrite Nat.add_0_r.
Qed.

Lemma span_len_le (ok : ascii -> bool) (r : str) : span_len ok r <= length r.
Proof. induction r as [|c r IH]; simpl; [lia | destruct (ok c); lia]. Qed.

Lemma rmatch_lits (t : str) (x : mstate) (k : cont) :
  rmatch true (mk_seq (map lit t)) x k =
  if ci_prefix t (m_rest x)
  then k (mkM (m_pos x + length t) (skipn (length t) (m_rest x)) (m_caps x))
  else None.
Proof.
  revert x; induction t as [|c t IH]; intros [pos rest caps]; simpl.
  - now rewrite Nat.add_0_r.
  - destruct rest as [|d rest]; [reflexivity |].
    destruct (char_eq true c d); simpl; [|reflexivity].
    rewrite IH. simpl. now rewrite Nat.add_succ_r.
Qed.

Lemma ci_prefix_length (t r : str) : ci_prefix t r = true -> length t <= length r.
Proof.
  revert r; induction t as [|c t IH]; intros r; simpl; [lia |].
  destruct r as [|d r]; [discriminate |].
  intros H. apply andb_true_iff in H as [_ H]. apply IH in H. simpl. lia.
Qed.

Lemma ci_prefix_app (t r tl : str) : ci_prefix t r = true -> ci_prefix t (r ++ tl) = true.
Proof.
  revert r; induction t as [|c t IH]; intros r; simpl; [reflexivity |].
  destruct r as [|d r]; [discriminate |]. simpl.
  intros H. apply andb_true_iff in H as [H1 H2]. now rewrite H1, IH.
Qed.

(** *** The highlighting pattern, group by group *)

(** Group 5 and the end of the pattern: an opening angle bracket, or the end
    of the input. *)
Definition end_check (x : mstate) : option mstate :=
  match m_rest x with
  | c :: rest' =>
      if Ascii.eqb c lt_char
      then Some (mkM (S (m_pos x)) rest' ((5, [c]) :: m_caps x))
      else None
  | [] => Some (mkM (m_pos x) [] ((5, []) :: m_caps x))
  end.

(** Groups 2 to 5 from state [x]: a run of [n] plain characters, the text, a
    run of [m] plain characters and the end, for the highest [n] and [m] that
    do. *)
Definition tail_match (t : str) (x : mstate) : option mstate :=
  first_down (span_len plain (m_rest x)) (fun n =>
    let x2 := mkM (m_pos x + n) (skipn n (m_rest x))
                  ((2, firstn n (m_rest x)) :: m_caps x) in
    if ci_prefix t (m_rest x2) then
      let x3 := mkM (m_pos x2 + length t) (skipn (length t) (m_rest x2))
                    ((3, firstn (length t) (m_rest x2)) :: m_caps x2) in
      first_down (span_len plain (m_rest x3)) (fun m =>
        end_check (mkM (m_pos x3 + m) (skipn m (m_rest x3))
                       ((4, firstn m (m_rest x3)) :: m_caps x3)))
    else None).

Lemma rmatch_group_star (g : nat) (x : mstate) (k : cont) :
  rmatch true (RGroup g (RSeq (RStar plain_set) REmpty)) x k =
  first_down (span_len plain (m_rest x))
    (fun n => k (mkM (m_pos x + n) (skipn n (m_rest x))
                     ((g, firstn n (m_rest x)) :: m_caps x))).
Proof.
  simpl. rewrite star_loop_spec. apply first_down_ext. intros i _. simpl.
  now rewrite Nat.add_comm, Nat.add_sub.
Qed.

Lemma rmatch_group_lits (g : nat) (t : str) (x : mstate) (k : cont) :
  rmatch true (RGroup g (mk_seq (map lit t))) x k =
  if ci_prefix t (m_rest x)
  then k (mkM (m_pos x + length t) (skipn (length t) (m_rest x))
              ((g, firstn (length t) (m_rest x)) :: m_caps x))
  else None.
Proof.
  change (rmatch true (RGroup g (mk_seq (map lit t))) x k)
    with (rmatch true (mk_seq (map lit t)) x
            (fun y => k (mkM (m_pos y) (m_rest y)
                             ((g, firstn (m_pos y - m_pos x) (m_rest x)) :: m_caps y)))).
  rewrite rmatch_lits. destruct (ci_prefix t (m_rest x)); [|reflexivity]. simpl.
  now rewrite Nat.add_comm, Nat.add_sub.
Qed.

Lemma rmatch_group_end (x : mstate) :
  rmatch true (RGroup 5 (RAlt (RSeq (lit lt_char) REmpty) (RSeq REol REmpty))) x Some
  = end_check x.
Proof.
  destruct x as [pos rest caps]. unfold end_check.
  destruct rest as [|c rest]; cbn -[Nat.sub firstn].
  - now rewrite Nat.sub_diag.
  - rewrite char_eq_lt. destruct (Ascii.eqb c lt_char); cbn -[Nat.sub firstn];
      [|reflexivity].
    replace (S pos - pos) with 1 by lia. reflexivity.
Qed.

Lemma rmatch_tail (t : str) (x : mstate) :
  rmatch true
    (RSeq (RGroup 2 (RSeq (RStar plain_set) REmpty))
    (RSeq (RGroup 3 (mk_seq (map lit t)))
    (RSeq (RGroup 4 (RSeq (RStar plain_set) REmpty))
    (RSeq (RGroup 5 (RAlt (RSeq (lit lt_char) REmpty) (RSeq REol REmpty)))
     REmpty)))) x Some
  = tail_match t x.
Proof.
  change (rmatch true (RSeq ?a ?b) x Some) with (rmatch true a x (fun y => rmatch true b y Some)).
  rewrite rmatch_group_star. unfold tail_match. apply first_down_ext. intros n _.
  cbv zeta.
  match goal with |- rmatch true (RSeq ?a ?b) ?y Some = _ =>
    change (rmatch true (RSeq a b) y Some) with (rmatch true a y (fun z => rmatch true b z Some))
  end.
  rewrite rmatch_group_lits.
  match goal with |- (if ?c then _ else _) = _ => destruct c end; [|reflexivity].
  match goal with |- rmatch true (RSeq ?a ?b) ?y Some = _ =>
    change (rmatch true (RSeq a b) y Some) with (rmatch true a y (fun z => rmatch true b z Some))
  end.
  rewrite rmatch_group_star. apply first_down_ext. intros m _.
  match goal with |- rmatch true (RSeq ?a REmpty) ?y Some = _ =>
    change (rmatch true (RSeq a REmpty) y Some) with (rmatch true a y Some)
  end.
  apply rmatch_group_end.
Qed.

Lemma rmatch_group_start (x : mstate) (k : cont) :
  rmatch true (RGroup 1 (RAlt (RSeq RBol REmpty) (RSeq (lit gt_char) REmpty))) x k =
  or_else
    (if m_pos x =? 0 then k (mkM (m_pos x) (m_rest x) ((1, []) :: m_caps x)) else None)
    (fun _ =>
       match m_rest x with
       | c :: rest' =>
           if Ascii.eqb c gt_char
           then k (mkM (S (m_pos x)) rest' ((1, [c]) :: m_caps x))
           else None
       | [] => None
       end).
Proof.
  destruct x as [pos rest caps]. cbn -[Nat.sub firstn Nat.eqb].
  rewrite Nat.sub_diag. f_equal.
  destruct rest as [|c rest]; cbn -[Nat.sub firstn Nat.eqb]; [reflexivity |].
  rewrite char_eq_gt. replace (S pos - pos) with 1 by lia. reflexivity.
Qed.

(** One attempt of the highlighting pattern: group 1 is the start of the input
    or a closing angle bracket, then come groups 2 to 5. *)
Lemma match_at_highlight (t : str) (pos : nat) (rest : str) :
  match_at (highlight_re t) pos rest =
  or_else (if pos =? 0 then tail_match t (mkM pos rest [(1, [])]) else None)
    (fun _ =>
       match rest with
       | c :: rest' =>
           if Ascii.eqb c gt_char then tail_match t (mkM (S pos) rest' [(1, [c])])
           else None
       | [] => None
       end).
Proof.
  unfold match_at, highlight_re, highlight_ast. cbn [re_ignoreCase re_ast].
  match goal with |- rmatch true (RSeq ?a ?b) ?x Some = _ =>
    change (rmatch true (RSeq a b) x Some) with (rmatch true a x (fun z => rmatch true b z Some))
  end.
  rewrite rmatch_group_start. cbn [m_pos m_rest m_caps]. unfold or_else.
  rewrite !rmatch_tail.
  destruct (pos =? 0); [destruct (tail_match t _); [reflexivity |] |];
    (destruct rest as [|c rest]; [reflexivity |]);
    (destruct (Ascii.eqb c gt_char); [apply rmatch_tail | reflexivity]).
Qed.

(** *** A match of the highlighting pattern cuts its text in five *)

Lemma tail_match_sound (t : str) (x y : mstate) :
  tail_match t x = Some y ->
  exists g2 g3 g4 g5 tl,
    m_rest x = g2 ++ g3 ++ g4 ++ g5 ++ tl /\
    length g3 = length t /\
    m_pos y = m_pos x + (length g2 + length g3 + length g4 + length g5) /\
    m_caps y = (5, g5) :: (4, g4) :: (3, g3) :: (2, g2) :: m_caps x.
Proof.
  unfold tail_match. intros H.
  apply first_down_some in H as (n & Hn & H & _). cbv zeta in H. cbn [m_rest m_pos m_caps] in H.
  destruct (ci_prefix t (skipn n (m_rest x))) eqn:Ep; [|discriminate].
  apply first_down_some in H as (m & Hm & H & _).
  set (r2 := skipn n (m_rest x)) in *.
  set (r3 := skipn (length t) r2) in *.
  assert (L2 : length (firstn n (m_rest x)) = n).
  { apply firstn_length_le. pose proof (span_len_le plain (m_rest x)). lia. }
  assert (L3 : length (firstn (length t) r2) = length t).
  { apply firstn_length_le. now apply ci_prefix_length. }
  assert (L4 : length (firstn m r3) = m).
  { apply firstn_length_le. pose proof (span_len_le plain r3). lia. }
  assert (E : m_rest x = firstn n (m_rest x) ++ firstn (length t) r2 ++ firstn m r3
                         ++ skipn m r3).
  { unfold r3, r2. now rewrite !firstn_skipn. }
  unfold end_check in H. cbn [m_rest m_pos m_caps] in H.
  destruct (skipn m r3) as [|c rest'] eqn:E4.
  - injection H as <-. exists (firstn n (m_rest x)), (firstn (length t) r2), (firstn m r3), [], [].
    cbn [m_pos m_caps]. rewrite L2, L3, L4. simpl.
    split; [now rewrite E at 1 |]. split; [reflexivity |]. split; [lia | reflexivity].
  - destruct (Ascii.eqb c lt_char); [|discriminate]. injection H as <-.
    exists (firstn n (m_rest x)), (firstn (length t) r2), (firstn m r3), [c], rest'.
    cbn [m_pos m_caps]. rewrite L2, L3, L4. simpl.
    split; [now rewrite E at 1 |]. split; [reflexivity |]. split; [lia | reflexivity].
Qed.

Lemma marked_up_refl (h : str) : marked_up h h.
Proof. induction h; now constructor. Qed.

Lemma marked_up_app (a a' b b' : str) :
  marked_up a a' -> marked_up b b' -> marked_up (a ++ b) (a' ++ b').
Proof.
  intros Ha Hb. induction Ha.
  - exact Hb.
  - simpl. now constructor.
  - rewrite <- app_assoc. now apply mu_open.
  - rewrite <- app_assoc. now apply mu_close.
Qed.

Lemma marked_up_wrap (g1 g2 g3 g4 g5 : str) :
  marked_up (g1 ++ g2 ++ g3 ++ g4 ++ g5)
            (g1 ++ g2 ++ txt "<mark>" ++ g3 ++ txt "</mark>" ++ g4 ++ g5).
Proof.
  apply marked_up_app; [apply marked_up_refl |].
  apply marked_up_app; [apply marked_up_refl |].
  apply mu_open. apply marked_up_app; [apply marked_up_refl |].
  apply mu_close. apply marked_up_refl.
Qed.

(** The template, on the five captures. *)
Lemma expand_highlight (before body after g1 g2 g3 g4 g5 : str) :
  expand highlight_template
    (mkMatched before body after [(5, g5); (4, g4); (3, g3); (2, g2); (1, g1)] 5)
  = g1 ++ g2 ++ txt "<mark>" ++ g3 ++ txt "</mark>" ++ g4 ++ g5.
Proof.
  rewrite <- (app_nil_r g5) at 2. vm_compute. reflexivity.
Qed.

(** A match of the highlighting pattern for a text that is not empty takes at
    least one character, and its replacement is the matched text with one
    pair of mark tags put in. *)
Lemma highlight_match_sound (t before : str) (pos : nat) (rest : str) (y : mstate) :
  t <> [] ->
  match_at (highlight_re t) pos rest = Some y ->
  let len := m_pos y - pos in
  1 <= len /\ len <= length rest /\
  marked_up (firstn len rest)
    (expand highlight_template
       (mkMatched before (firstn len rest) (skipn len rest) (m_caps y) 5)).
Proof.
  intros Ht H. rewrite match_at_highlight in H.
  assert (G : exists g1 x1, tail_match t x1 = Some y /\ m_caps x1 = [(1, g1)] /\
                rest = g1 ++ m_rest x1 /\ m_pos x1 = pos + length g1).
  { unfold or_else in H. destruct (pos =? 0) eqn:E0.
    - destruct (tail_match t (mkM pos rest [(1, [])])) eqn:E1.
      + injection H as ->. exists [], (mkM pos rest [(1, [])]). simpl.
        now rewrite Nat.add_0_r.
      + destruct rest as [|c rest]; [discriminate |].
        destruct (Ascii.eqb c gt_char); [|discriminate].
        exists [c], (mkM (S pos) rest [(1, [c])]). simpl.
        split; [exact H |]. repeat split. lia.
    - destruct rest as [|c rest]; [discriminate |].
      destruct (Ascii.eqb c gt_char); [|discriminate].
      exists [c], (mkM (S pos) rest [(1, [c])]). simpl.
      split; [exact H |]. repeat split. lia. }
  destruct G as (g1 & x1 & Ht1 & Hc1 & Hr & Hp).
  apply tail_match_sound in Ht1 as (g2 & g3 & g4 & g5 & tl & E & L3 & Py & Cy).
  intros len.
  assert (Hlen : len = length (g1 ++ g2 ++ g3 ++ g4 ++ g5)).
  { unfold len. rewrite Py, Hp, !length_app. lia. }
  assert (Hrest : rest = (g1 ++ g2 ++ g3 ++ g4 ++ g5) ++ tl).
  { rewrite Hr, E. now rewrite <- !app_assoc. }
  assert (Hfirst : firstn len rest = g1 ++ g2 ++ g3 ++ g4 ++ g5).
  { rewrite Hlen, Hrest. rewrite firstn_app, Nat.sub_diag, firstn_all. simpl.
    now rewrite app_nil_r. }
  split; [|split].
  - rewrite Hlen, !length_app, L3. destruct t; [congruence | simpl; lia].
  - rewrite Hlen. assert (L : length rest = length (((g1 ++ g2 ++ g3 ++ g4 ++ g5) ++ tl)))
      by now rewrite <- Hrest.
    rewrite L, (length_app (g1 ++ _)). lia.
  - rewrite Cy, Hc1, expand_highlight, Hfirst. apply marked_up_wrap.
Qed.

Lemma replace_loop_marked_up (t : str) (rest : str) :
  t <> [] ->
  forall skip before pos, skip <= length rest ->
  marked_up (skipn skip rest)
    (replace_loop (highlight_re t) highlight_template skip before pos rest).
Proof.
  intros Ht. induction rest as [|c rest IH]; intros skip before pos Hskip.
  - simpl in Hskip. assert (skip = 0) by lia. subst. simpl.
    destruct (match_at (highlight_re t) pos []) as [y|] eqn:E; [|constructor].
    pose proof (highlight_match_sound before pos [] Ht E) as (H1 & H2 & _).
    simpl in H2. lia.
  - destruct skip as [|skip].
    + simpl skipn. cbn [replace_loop].
      destruct (match_at (highlight_re t) pos (c :: rest)) as [y|] eqn:E.
      * pose proof (highlight_match_sound before pos (c :: rest) Ht E) as (H1 & H2 & H3).
        cbv zeta. cbn [re_ngroups highlight_re].
        set (len := m_pos y - pos) in *.
        destruct (len =? 0) eqn:E0; [apply Nat.eqb_eq in E0; lia |].
        rewrite <- (firstn_skipn len (c :: rest)) at 1.
        apply marked_up_app; [exact H3 |].
        replace (skipn len (c :: rest)) with (skipn (len - 1) rest).
        -- apply IH. simpl in H2. lia.
        -- destruct len; [lia |]. simpl. now rewrite Nat.sub_0_r.
      * constructor. apply (IH 0). lia.
    + simpl. apply IH. simpl in Hskip. lia.
Qed.

(** *** Removing the mark tags *)

Lemma mark_tag_compiles : RegExp mark_tag_source (txt "gi") = Compiled mark_tag_re.
Proof. vm_compute. reflexivity. Qed.

Lemma slash_not_m (d : ascii) :
  char_eq true "/"%char d = true -> char_eq true "m"%char d = false.
Proof.
  intros H.
  assert (G : forall d, implb (char_eq true "/"%char d)
                              (negb (char_eq true "m"%char d)) = true).
  { apply all_ascii. vm_compute. reflexivity. }
  specialize (G d). rewrite H in G. simpl in G. now destruct (char_eq true "m"%char d).
Qed.

(** One attempt of the mark-tag pattern finds the tag at the head, if there is
    one. *)
Lemma match_at_mark_tag (pos : nat) (rest : str) :
  match_at mark_tag_re pos rest =
  match mark_tag_len rest with
  | Some n => Some (mkM (pos + n) (skipn n rest) [])
  | None => None
  end.
Proof.
  unfold match_at, mark_tag_re, mark_tag_ast, mark_tag_len. cbn [re_ignoreCase re_ast].
  destruct rest as [|c rest]; [reflexivity |].
  change (ci_prefix (txt "<mark>") (c :: rest))
    with (char_eq true lt_char c && ci_prefix (txt "mark>") rest).
  change (ci_prefix (txt "</mark>") (c :: rest))
    with (char_eq true lt_char c && ci_prefix (txt "/mark>") rest).
  change (rmatch true (RSeq (lit lt_char) ?b) ?x Some)
    with (if char_eq true lt_char c then rmatch true b (mkM (S pos) rest []) Some else None).
  destruct (char_eq true lt_char c); [|reflexivity]. cbn [andb].
  change (rmatch true (RSeq (ROpt ?a) ?b) ?x Some)
    with (rmatch true (ROpt a) x (fun y => rmatch true b y Some)).
  cbn [rmatch m_rest m_pos m_caps atom_ok].
  destruct rest as [|d rest].
  - reflexivity.
  - change (ci_prefix (txt "/mark>") (d :: rest))
      with (char_eq true "/"%char d && ci_prefix (txt "mark>") rest).
    rewrite !rmatch_lits. cbn [m_rest m_pos m_caps].
    destruct (char_eq true "/"%char d) eqn:Es; cbn [andb].
    + assert (F : ci_prefix (txt "mark>") (d :: rest) = false).
      { change (ci_prefix (txt "mark>") (d :: rest))
          with (char_eq true "m"%char d && ci_prefix (txt "ark>") rest).
        now rewrite (slash_not_m d Es). }
      rewrite F. unfold or_else.
      destruct (ci_prefix (txt "mark>") rest); [|reflexivity].
      do 2 f_equal. simpl. lia.
    + destruct (ci_prefix (txt "mark>") (d :: rest)); [|reflexivity].
      do 2 f_equal. simpl. lia.
Qed.

Lemma replace_loop_skip (re : regexp) (tmpl w : str) :
  forall before pos rest,
  replace_loop re tmpl (length w) before pos (w ++ rest) =
  replace_loop re tmpl 0 (before ++ w) (pos + length w) rest.
Proof.
  induction w as [|c w IH]; intros before pos rest.
  - simpl length. now rewrite app_nil_r, Nat.add_0_r.
  - simpl length. cbn [app replace_loop]. rewrite IH.
    now rewrite <- app_assoc, Nat.add_succ_r.
Qed.

(** Where [h'] is [h] with mark tags put in, a text without an opening angle
    bracket that is at the head of [h'] is at the head of [h]. *)
Lemma marked_up_prefix (h h' : str) :
  marked_up h h' ->
  forall w, (forall c, In c w -> char_eq true c lt_char = false) ->
  ci_prefix w h' = true -> ci_prefix w h = true.
Proof.
  induction 1 as [|c h h' H IH|h h' H IH|h h' H IH]; intros w Hw Hp.
  - exact Hp.
  - destruct w as [|a w]; [reflexivity |]. simpl in *.
    apply andb_true_iff in Hp as [H1 H2]. rewrite H1. simpl.
    apply IH; [|exact H2]. intros c0 Hc0. apply Hw. now right.
  - destruct w as [|a w]; [now destruct h |].
    change (ci_prefix (a :: w) (txt "<mark>" ++ h'))
      with (char_eq true a lt_char && ci_prefix w (txt "mark>" ++ h')) in Hp.
    rewrite (Hw a) in Hp by now left. discriminate.
  - destruct w as [|a w]; [now destruct h |].
    change (ci_prefix (a :: w) (txt "</mark>" ++ h'))
      with (char_eq true a lt_char && ci_prefix w (txt "/mark>" ++ h')) in Hp.
    rewrite (Hw a) in Hp by now left. discriminate.
Qed.

Lemma no_lt_in (w : str) :
  forallb (fun c => negb (char_eq true c lt_char)) w = true ->
  forall c, In c w -> char_eq true c lt_char = false.
Proof.
  intros H c Hc. rewrite forallb_forall in H. apply H in Hc.
  now destruct (char_eq true c lt_char).
Qed.

Lemma marked_up_tag_len (c : ascii) (h h' : str) :
  marked_up h h' -> mark_tag_len (c :: h) = None -> mark_tag_len (c :: h') = None.
Proof.
  intros M. unfold mark_tag_len.
  change (ci_prefix (txt "<mark>") (c :: h))
    with (char_eq true lt_char c && ci_prefix (txt "mark>") h).
  change (ci_prefix (txt "</mark>") (c :: h))
    with (char_eq true lt_char c && ci_prefix (txt "/mark>") h).
  change (ci_prefix (txt "<mark>") (c :: h'))
    with (char_eq true lt_char c && ci_prefix (txt "mark>") h').
  change (ci_prefix (txt "</mark>") (c :: h'))
    with (char_eq true lt_char c && ci_prefix (txt "/mark>") h').
  destruct (char_eq true lt_char c); [|reflexivity]. cbn [andb].
  destruct (ci_prefix (txt "mark>") h') eqn:E1.
  - apply (marked_up_prefix M) in E1; [now rewrite E1 | now apply no_lt_in].
  - destruct (ci_prefix (txt "/mark>") h') eqn:E2; [|reflexivity].
    apply (marked_up_prefix M) in E2; [|now apply no_lt_in].
    rewrite E2. now destruct (ci_prefix (txt "mark>") h).
Qed.

(** Removing the mark tags from [h] with mark tags put in gives [h] back,
    when [h] has none of its own. *)
Lemma strip_marked_up (h h' : str) :
  marked_up h h' -> no_mark_tags h = true ->
  forall before pos, replace_loop mark_tag_re [] 0 before pos h' = h.
Proof.
  induction 1 as [|c h h' H IH|h h' H IH|h h' H IH]; intros Hn before pos.
  - reflexivity.
  - simpl in Hn. destruct (mark_tag_len (c :: h)) eqn:E; [discriminate |].
    cbn [replace_loop]. rewrite match_at_mark_tag, (marked_up_tag_len c H E).
    f_equal. now apply IH.
  - change (txt "<mark>" ++ h') with (lt_char :: txt "mark>" ++ h').
    cbn [replace_loop]. rewrite match_at_mark_tag.
    change (mark_tag_len (lt_char :: txt "mark>" ++ h')) with (Some 6).
    cbn [m_pos]. replace (pos + 6 - pos) with 6 by lia.
    cbn [expand app Nat.eqb Nat.sub].
    change 5 with (length (txt "mark>")). rewrite replace_loop_skip. now apply IH.
  - change (txt "</mark>" ++ h') with (lt_char :: txt "/mark>" ++ h').
    cbn [replace_loop]. rewrite match_at_mark_tag.
    change (mark_tag_len (lt_char :: txt "/mark>" ++ h')) with (Some 7).
    cbn [m_pos]. replace (pos + 7 - pos) with 7 by lia.
    cbn [expand app Nat.eqb Nat.sub].
    change 6 with (length (txt "/mark>")). rewrite replace_loop_skip. now apply IH.
Qed.

(** *** Compiling the highlighting pattern *)

Lemma psteps_app (p : pstate) (a b : str) :
  psteps p (a ++ b) =
  match psteps p a with
  | Compiled p' => psteps p' b
  | SyntaxError => SyntaxError
  | Unsupported => Unsupported
  end.
Proof.
  revert p; induction a as [|c a IH]; intros p; simpl; [reflexivity |].
  destruct (pstep p c); [apply IH | reflexivity | reflexivity].
Qed.

(** Literal text adds its characters, one by one, to the group being read. *)
Lemma psteps_literal (t : str) :
  literal t = true ->
  forall g alts items parents next rest,
  psteps (mkP (mkFrame g alts items) parents next PNormal) (t ++ rest) =
  psteps (mkP (mkFrame g alts (rev (map lit t) ++ items)) parents next PNormal) rest.
Proof.
  induction t as [|c t IH]; intros Hl g alts items parents next rest; [reflexivity |].
  simpl in Hl. apply andb_true_iff in Hl as [Hc Hl].
  cbn [app psteps]. unfold pstep at 1. cbn [p_mode].
  unfold literal_char in Hc. destruct (classify c); try discriminate.
  unfold push_item. cbn [p_top p_parents p_next f_group f_alts f_seq].
  rewrite (IH Hl). cbn [map rev]. now rewrite <- app_assoc.
Qed.

(** For a literal text the source compiles, to the pattern with the text as
    its third group. *)
Lemma highlight_compiles (t : str) :
  literal t = true ->
  RegExp (highlight_source t) (txt "gi") = Compiled (highlight_re t).
Proof.
  intros Hl.
  assert (P : parse (highlight_source t) = Compiled (highlight_ast t, 5)).
  { unfold parse.
    change (highlight_source t)
      with ((txt "(^|>)([^" ++ [dq] ++ txt "<>]*)(") ++ t
            ++ (txt ")([^" ++ [dq] ++ txt "<>]*)(<|$)")).
    rewrite psteps_app.
    match goal with |- context [psteps ?p (txt ?a ++ [dq] ++ txt ?b)] =>
      let r := eval vm_compute in (psteps p (txt a ++ [dq] ++ txt b)) in
      change (psteps p (txt a ++ [dq] ++ txt b)) with r
    end.
    cbv iota beta. rewrite (psteps_literal t Hl). rewrite app_nil_r.
    unfold highlight_ast. rewrite <- (rev_involutive (map lit t)).
    generalize (rev (map lit t)) as items. intros items. rewrite rev_involutive.
    reflexivity. }
  unfold RegExp. rewrite P. reflexivity.
Qed.

(** *** Text runs *)

Unset Implicit Arguments.

(** A run has no angle bracket; it may have a double quote. *)
Definition no_angle (r : str) : bool :=
  forallb (fun c => negb (Ascii.eqb c lt_char || Ascii.eqb c gt_char)) r.

Definition has_quote (r : str) : bool := existsb (Ascii.eqb dq) r.

(** What the highlighter makes of a run [r] for the text [t], where the run
    has a double quote, or does not have the text, or has it once. *)
Inductive run_marked (t : str) : str -> str -> Prop :=
| run_quoted r :
    no_angle r = true -> has_quote r = true -> run_marked t r r
| run_absent r :
    no_angle r = true -> occurrences t r = [] -> run_marked t r r
| run_once a o b :
    no_angle (a ++ o ++ b) = true -> has_quote (a ++ o ++ b) = false ->
    length o = length t -> occurrences t (a ++ o ++ b) = [length a] ->
    run_marked t (a ++ o ++ b) (a ++ txt "<mark>" ++ o ++ txt "</mark>" ++ b).

Lemma occurrences_from_in (t r : str) (i n : nat) :
  In n (occurrences_from i t r) <->
  exists k, n = i + k /\ k <= length r /\ ci_prefix t (skipn k r) = true.
Proof.
  revert i; induction r as [|c r IH]; intros i; simpl occurrences_from.
  - rewrite app_nil_r. split.
    + intros H. destruct (ci_prefix t []) eqn:E; [|destruct H].
      destruct H as [<- | []]. exists 0. simpl. split; [lia | split; [lia | exact E]].
    + intros (k & -> & Hk & Hp). simpl in Hk. assert (k = 0) by lia. subst.
      simpl in Hp. rewrite Hp, Nat.add_0_r. now left.
  - rewrite in_app_iff, IH. split.
    + intros [H | (k & -> & Hk & Hp)].
      * destruct (ci_prefix t (c :: r)) eqn:E; [|destruct H].
        destruct H as [<- | []]. exists 0. simpl. split; [lia | split; [lia | exact E]].
      * exists (S k). simpl. split; [lia | split; [lia | exact Hp]].
    + intros (k & -> & Hk & Hp). destruct k as [|k].
      * left. simpl in Hp. rewrite Hp, Nat.add_0_r. now left.
      * right. exists k. simpl in Hk, Hp. split; [lia | split; [lia | exact Hp]].
Qed.

Lemma occurrences_in (t r : str) (n : nat) :
  In n (occurrences t r) <-> n <= length r /\ ci_prefix t (skipn n r) = true.
Proof.
  unfold occurrences. rewrite occurrences_from_in. split.
  - intros (k & -> & H). exact H.
  - intros H. now exists n.
Qed.

Lemma plain_not_lt (c : ascii) : plain c = true -> Ascii.eqb c lt_char = false.
Proof.
  rewrite plain_spec. destruct (Ascii.eqb c lt_char); [|reflexivity].
  now rewrite orb_true_r.
Qed.

Lemma span_len_app (s stop : str) :
  forallb plain s = true ->
  match stop with [] => True | d :: _ => plain d = false end ->
  span_len plain (s ++ stop) = length s.
Proof.
  intros Hs Hstop. induction s as [|c s IH]; simpl.
  - destruct stop as [|d stop]; [reflexivity |]. simpl. now rewrite Hstop.
  - simpl in Hs. apply andb_true_iff in Hs as [Hc Hs]. rewrite Hc. now rewrite IH.
Qed.

Lemma forallb_skipn (P : ascii -> bool) (n : nat) (s : str) :
  forallb P s = true -> forallb P (skipn n s) = true.
Proof.
  revert s; induction n as [|n IH]; intros s H; [exact H |].
  destruct s as [|c s]; [reflexivity |]. simpl in H.
  apply andb_true_iff in H as [_ H]. now apply IH.
Qed.

Lemma skipn_app_le (n : nat) (s stop : str) :
  n <= length s -> skipn n (s ++ stop) = skipn n s ++ stop.
Proof.
  intros H. rewrite skipn_app. replace (n - length s) with 0 by lia. reflexivity.
Qed.

Lemma firstn_app_le (n : nat) (s stop : str) :
  n <= length s -> firstn n (s ++ stop) = firstn n s.
Proof.
  intros H. rewrite firstn_app. replace (n - length s) with 0 by lia.
  simpl. now rewrite app_nil_r.
Qed.

(** A plain text at the head of a plain run followed by a character that is
    not plain lies within the run. *)
Lemma ci_prefix_within (t u stop : str) :
  forallb plain t = true ->
  match stop with [] => True | d :: _ => plain d = false end ->
  ci_prefix t (u ++ stop) = true ->
  length t <= length u /\ ci_prefix t u = true.
Proof.
  intros Ht Hstop. revert u; induction t as [|c t IH]; intros u H.
  - split; [simpl; lia | reflexivity].
  - simpl in Ht. apply andb_true_iff in Ht as [Hc Ht].
    destruct u as [|e u].
    + simpl in H. destruct stop as [|d stop]; [discriminate |].
      apply andb_true_iff in H as [H _]. apply char_eq_plain in H. congruence.
    + simpl in H. apply andb_true_iff in H as [H1 H2].
      destruct (IH Ht u H2) as [L P]. simpl. rewrite H1, P. split; [lia | reflexivity].
Qed.

(** Group 4 and the end, from inside a plain run: the rest of the run, then
    the check of what stops the run. *)
Lemma rest_of_run (s stop : str) (k p : nat) (caps : list (nat * str)) :
  forallb plain s = true ->
  match stop with [] => True | d :: _ => plain d = false end ->
  k <= length s ->
  first_down (span_len plain (skipn k (s ++ stop)))
    (fun m => end_check (mkM (p + m) (skipn m (skipn k (s ++ stop)))
                             ((4, firstn m (skipn k (s ++ stop))) :: caps)))
  = end_check (mkM (p + (length s - k)) stop ((4, skipn k s) :: caps)).
Proof.
  intros Hs Hstop Hk. rewrite (skipn_app_le k s stop Hk).
  set (u := skipn k s).
  assert (Hu : forallb plain u = true) by now apply forallb_skipn.
  assert (Lu : length u = length s - k) by (unfold u; apply length_skipn).
  rewrite (span_len_app u stop Hu Hstop), first_down_top.
  - rewrite <- Lu. rewrite (skipn_app_le _ u stop (Nat.le_refl _)), skipn_all.
    rewrite (firstn_app_le _ u stop (Nat.le_refl _)), firstn_all. reflexivity.
  - intros j Hj. unfold end_check. cbn [m_rest].
    rewrite skipn_app_le by lia.
    destruct (skipn j u) as [|c w] eqn:E.
    + exfalso. assert (L : length (skipn j u) = length u - j) by apply length_skipn.
      rewrite E in L. simpl in L. lia.
    + simpl. assert (Hc : plain c = true).
      { pose proof (forallb_skipn plain j u Hu) as F. rewrite E in F. simpl in F.
        now apply andb_true_iff in F as [F _]. }
      now rewrite (plain_not_lt c Hc).
Qed.

(** Groups 2 to 5 from the start of a plain run [s] stopped by [stop]: the
    text must lie in the run, and what stops the run must pass the end
    check. *)
Lemma tail_match_run (t s stop : str) (p : nat) (caps : list (nat * str)) :
  forallb plain t = true ->
  forallb plain s = true ->
  match stop with [] => True | d :: _ => plain d = false end ->
  tail_match t (mkM p (s ++ stop) caps) =
  first_down (length s) (fun n =>
    if ci_prefix t (skipn n s) then
      end_check (mkM (p + n + length t + (length s - (n + length t))) stop
                     ((4, skipn (n + length t) s)
                      :: (3, firstn (length t) (skipn n s))
                      :: (2, firstn n s) :: caps))
    else None).
Proof.
  intros Ht Hs Hstop. unfold tail_match. cbn [m_rest m_pos m_caps].
  rewrite (span_len_app s stop Hs Hstop). apply first_down_ext. intros n Hn. cbv zeta.
  cbn [m_rest m_pos m_caps].
  rewrite (skipn_app_le n s stop Hn).
  destruct (ci_prefix t (skipn n s ++ stop)) eqn:E.
  - destruct (ci_prefix_within t (skipn n s) stop Ht Hstop E) as [L P]. rewrite P.
    rewrite length_skipn in L.
    rewrite <- (skipn_app_le n s stop Hn), skipn_skipn.
    rewrite (Nat.add_comm (length t) n).
    rewrite rest_of_run by (assumption || lia).
    rewrite (firstn_app_le n s stop Hn).
    rewrite (skipn_app_le n s stop Hn), firstn_app_le by (rewrite length_skipn; lia).
    reflexivity.
  - destruct (ci_prefix t (skipn n s)) eqn:P; [|reflexivity].
    now rewrite (ci_prefix_app _ _ stop P) in E.
Qed.

(** What may follow a run: nothing, or the opening angle bracket of a tag. *)
Definition run_end (after : str) : Prop :=
  after = [] \/ exists tl, after = lt_char :: tl.

Lemma run_end_stop (after : str) :
  run_end after -> match after with [] => True | d :: _ => plain d = false end.
Proof. intros [-> | [tl ->]]; [exact I | reflexivity]. Qed.

Lemma no_angle_plain (r : str) :
  no_angle r = true -> has_quote r = false -> forallb plain r = true.
Proof.
  unfold no_angle, has_quote.
  induction r as [|c r IH]; cbn [forallb existsb]; [reflexivity |]. intros Ha Hq.
  apply andb_true_iff in Ha as [Hc Ha]. apply orb_false_iff in Hq as [Hd Hq].
  rewrite (IH Ha Hq), andb_true_r, plain_spec.
  rewrite Ascii.eqb_sym in Hd. rewrite Hd. cbn [orb].
  now destruct (Ascii.eqb c lt_char || Ascii.eqb c gt_char).
Qed.

(** A run with a double quote: plain characters, the first double quote, and
    the rest. *)
Lemma quoted_run_split (r : str) :
  no_angle r = true -> has_quote r = true ->
  exists s r2, r = s ++ dq :: r2 /\ forallb plain s = true.
Proof.
  unfold no_angle, has_quote.
  induction r as [|c r IH]; cbn [forallb existsb]; [discriminate |]. intros Ha Hq.
  apply andb_true_iff in Ha as [Hc Ha].
  destruct (Ascii.eqb dq c) eqn:Ed.
  - apply Ascii.eqb_eq in Ed as <-. now exists [], r.
  - cbn [orb] in Hq. destruct (IH Ha Hq) as (s & r2 & -> & Hs).
    exists (c :: s), r2. split; [reflexivity |]. cbn [forallb]. rewrite Hs, andb_true_r.
    rewrite plain_spec, Ascii.eqb_sym, Ed. cbn [orb].
    now destruct (Ascii.eqb c lt_char || Ascii.eqb c gt_char).
Qed.

Section Runs.

Variable t : str.
Hypothesis t_not_empty : t <> [].
Hypothesis t_plain : forallb plain t = true.

(** Groups 2 to 5 find nothing in a run that has a double quote or does not
    have the text. *)
Lemma tail_match_unmarked (r after : str) (p : nat) (caps : list (nat * str)) :
  no_angle r = true -> run_end after ->
  has_quote r = true \/ occurrences t r = [] ->
  tail_match t (mkM p (r ++ after) caps) = None.
Proof.
  intros Ha He [Hq | Ho].
  - destruct (quoted_run_split r Ha Hq) as (s & r2 & -> & Hs).
    rewrite <- app_assoc. rewrite tail_match_run; [|assumption|assumption|reflexivity].
    apply first_down_none. intros n Hn.
    destruct (ci_prefix t (skipn n s)); reflexivity.
  - destruct (has_quote r) eqn:Hq.
    + destruct (quoted_run_split r Ha Hq) as (s & r2 & -> & Hs).
      rewrite <- app_assoc. rewrite tail_match_run; [|assumption|assumption|reflexivity].
      apply first_down_none. intros n Hn.
      destruct (ci_prefix t (skipn n s)); reflexivity.
    + rewrite tail_match_run;
        [|assumption | now apply no_angle_plain | now apply run_end_stop].
      apply first_down_none. intros n Hn.
      destruct (ci_prefix t (skipn n r)) eqn:E; [|reflexivity].
      assert (I : In n (occurrences t r)) by (apply occurrences_in; now split).
      rewrite Ho in I. destruct I.
Qed.

(** In a run without double quote that has the text once, groups 2 to 5 take
    the run apart around the text, and the bracket that follows, if any. *)
Lemma tail_match_once (a o b after : str) (p : nat) (caps : list (nat * str)) :
  no_angle (a ++ o ++ b) = true -> has_quote (a ++ o ++ b) = false ->
  length o = length t -> occurrences t (a ++ o ++ b) = [length a] ->
  run_end after ->
  tail_match t (mkM p ((a ++ o ++ b) ++ after) caps) =
  Some (mkM (p + length (a ++ o ++ b) + length (firstn 1 after)) (skipn 1 after)
            ((5, firstn 1 after) :: (4, b) :: (3, o) :: (2, a) :: caps)).
Proof.
  intros Ha Hq Lo Ho He. set (r := a ++ o ++ b) in *.
  rewrite tail_match_run; [|assumption | now apply no_angle_plain | now apply run_end_stop].
  assert (Lr : length r = length a + length t + length b).
  { unfold r. rewrite !length_app. lia. }
  assert (Hin : In (length a) (occurrences t r)) by (rewrite Ho; now left).
  apply occurrences_in in Hin as [_ Hp].
  rewrite first_down_at with (i := length a)
    (z := mkM (p + length r + length (firstn 1 after)) (skipn 1 after)
              ((5, firstn 1 after) :: (4, b) :: (3, o) :: (2, a) :: caps)).
  - reflexivity.
  - lia.
  - rewrite Hp.
    assert (E2 : firstn (length a) r = a).
    { unfold r. rewrite firstn_app, Nat.sub_diag, firstn_all. simpl. apply app_nil_r. }
    assert (E3 : skipn (length a) r = o ++ b).
    { unfold r. rewrite skipn_app, Nat.sub_diag, skipn_all. reflexivity. }
    assert (E3' : firstn (length t) (skipn (length a) r) = o).
    { rewrite E3, <- Lo, firstn_app, Nat.sub_diag, firstn_all. simpl. apply app_nil_r. }
    assert (E4 : skipn (length a + length t) r = b).
    { rewrite Nat.add_comm, <- skipn_skipn, E3, <- Lo.
      rewrite skipn_app, Nat.sub_diag, skipn_all. reflexivity. }
    rewrite E2, E3', E4. unfold end_check. cbn [m_rest m_pos m_caps].
    destruct He as [-> | [tl ->]]; simpl.
    + do 2 f_equal. lia.
    + do 2 f_equal. lia.
  - intros j H1 H2. destruct (ci_prefix t (skipn j r)) eqn:E; [|reflexivity].
    assert (I : In j (occurrences t r)) by (apply occurrences_in; now split).
    rewrite Ho in I. destruct I as [I | []]. lia.
Qed.

(** Where an attempt of the pattern may begin: at the start of the input, or
    on a closing angle bracket further on. *)
Definition start_ok (g1 : str) (pos : nat) : Prop :=
  (g1 = [] /\ pos = 0) \/ (g1 = [gt_char] /\ 0 < pos).

Lemma match_at_start (g1 rest1 : str) (pos : nat) :
  start_ok g1 pos ->
  match rest1 with [] => True | c :: _ => Ascii.eqb c gt_char = false end ->
  match_at (highlight_re t) pos (g1 ++ rest1) =
  tail_match t (mkM (pos + length g1) rest1 [(1, g1)]).
Proof.
  intros [[-> ->] | [-> Hpos]] Hhead; rewrite match_at_highlight; simpl.
  - unfold or_else. destruct (tail_match t _); [reflexivity |].
    destruct rest1 as [|c rest1]; [reflexivity | now rewrite Hhead].
  - destruct (pos =? 0) eqn:E; [apply Nat.eqb_eq in E; lia |].
    simpl. now rewrite Nat.add_1_r.
Qed.

(** Further on in the input, no attempt begins but on a closing angle
    bracket. *)
Lemma match_at_inside (pos : nat) (rest : str) :
  0 < pos ->
  match rest with [] => True | c :: _ => Ascii.eqb c gt_char = false end ->
  match_at (highlight_re t) pos rest = None.
Proof.
  intros Hpos Hhead. rewrite match_at_highlight.
  destruct (pos =? 0) eqn:E; [apply Nat.eqb_eq in E; lia |]. simpl.
  destruct rest as [|c rest]; [reflexivity | now rewrite Hhead].
Qed.

End Runs.

(** *** The replacement, run by run *)

Section Highlighting.

Variable t : str.
Hypothesis t_not_empty : t <> [].
Hypothesis t_plain : forallb plain t = true.

Local Abbreviation hre := (highlight_re t).
Local Abbreviation tmpl := highlight_template.

Lemma tail_match_nil (p : nat) (caps : list (nat * str)) :
  tail_match t (mkM p [] caps) = None.
Proof.
  unfold tail_match. cbn [m_rest span_len]. rewrite first_down_0. cbv zeta.
  cbn [m_rest skipn]. destruct t; [congruence | reflexivity].
Qed.

Lemma replace_loop_nil (before : str) (pos : nat) :
  replace_loop hre tmpl 0 before pos [] = [].
Proof.
  cbn [replace_loop]. rewrite match_at_highlight. unfold or_else.
  rewrite tail_match_nil. now destruct (pos =? 0).
Qed.

Definition no_gt (w : str) : bool := forallb (fun c => negb (Ascii.eqb c gt_char)) w.

(** Further on in the input, what has no closing angle bracket is copied. *)
Lemma copy_inside (w : str) :
  no_gt w = true ->
  forall rest before pos, 0 < pos ->
  replace_loop hre tmpl 0 before pos (w ++ rest) =
  w ++ replace_loop hre tmpl 0 (before ++ w) (pos + length w) rest.
Proof.
  unfold no_gt. induction w as [|c w IH]; intros Hw rest before pos Hpos.
  - simpl. now rewrite app_nil_r, Nat.add_0_r.
  - cbn [forallb] in Hw. apply andb_true_iff in Hw as [Hc Hw].
    cbn [app replace_loop]. rewrite match_at_inside.
    + rewrite IH by (assumption || lia). simpl length.
      now rewrite <- app_assoc, Nat.add_succ_r.
    + exact Hpos.
    + now destruct (Ascii.eqb c gt_char).
Qed.

Lemma no_angle_no_gt (r : str) : no_angle r = true -> no_gt r = true.
Proof.
  unfold no_angle, no_gt. induction r as [|c r IH]; cbn [forallb]; [reflexivity |].
  intros H. apply andb_true_iff in H as [Hc H]. rewrite (IH H), andb_true_r.
  destruct (Ascii.eqb c gt_char); [|reflexivity]. now rewrite orb_true_r in Hc.
Qed.

Lemma no_gt_app (a b : str) : no_gt a = true -> no_gt b = true -> no_gt (a ++ b) = true.
Proof. unfold no_gt. intros Ha Hb. now rewrite forallb_app, Ha, Hb. Qed.

Lemma run_end_no_gt (after : str) : run_end after -> no_gt (firstn 1 after) = true.
Proof. intros [-> | [tl ->]]; reflexivity. Qed.

Lemma run_head_not_gt (r after : str) :
  no_angle r = true -> run_end after ->
  match r ++ after with [] => True | c :: _ => Ascii.eqb c gt_char = false end.
Proof.
  intros Hr He. destruct r as [|c r].
  - destruct He as [-> | [tl ->]]; [exact I | reflexivity].
  - apply no_angle_no_gt in Hr. unfold no_gt in Hr. cbn [forallb] in Hr.
    apply andb_true_iff in Hr as [Hc _]. simpl. now destruct (Ascii.eqb c gt_char).
Qed.

Lemma run_marked_no_angle (r r' : str) : run_marked t r r' -> no_angle r = true.
Proof. now destruct 1. Qed.

(** Where the attempt at the first character finds nothing, that character
    and what follows without a closing angle bracket are copied. *)
Lemma copy_from (c0 : ascii) (w rest before : str) (pos : nat) :
  match_at hre pos (c0 :: w ++ rest) = None -> no_gt w = true ->
  replace_loop hre tmpl 0 before pos (c0 :: w ++ rest) =
  c0 :: w ++ replace_loop hre tmpl 0 (before ++ c0 :: w) (pos + S (length w)) rest.
Proof.
  intros M W. cbn [replace_loop]. rewrite M, copy_inside by (assumption || lia).
  f_equal. f_equal. rewrite <- app_assoc. simpl. now rewrite Nat.add_succ_r.
Qed.

(** What is left to do after a run and the bracket that follows it. *)
Definition after_run (before : str) (pos : nat) (after : str) : str :=
  match after with
  | [] => []
  | _ :: tl => replace_loop hre tmpl 0 before pos tl
  end.

(** From a place where an attempt may begin, a run and the bracket after it
    come out as [run_marked] says, and the replacement goes on after them. *)
Lemma replace_run (g1 r r' after before : str) (pos : nat) :
  start_ok g1 pos -> run_marked t r r' -> run_end after ->
  replace_loop hre tmpl 0 before pos (g1 ++ r ++ after) =
  g1 ++ r' ++ firstn 1 after
  ++ after_run (before ++ g1 ++ r ++ firstn 1 after)
               (pos + length (g1 ++ r ++ firstn 1 after)) after.
Proof.
  intros Hs Hm He.
  pose proof (run_marked_no_angle r r' Hm) as Hr.
  pose proof (match_at_start t g1 (r ++ after) pos Hs (run_head_not_gt r after Hr He)) as M.
  assert (Split : g1 ++ r ++ after = (g1 ++ r ++ firstn 1 after) ++ skipn 1 after).
  { now rewrite <- !app_assoc, firstn_skipn. }
  assert (Tail : forall b p, 0 < p ->
            replace_loop hre tmpl 0 b p (skipn 1 after) = after_run b p after).
  { intros b p Hp. destruct after as [|c tl]; [apply replace_loop_nil | reflexivity]. }
  assert (Unmarked : tail_match t (mkM (pos + length g1) (r ++ after) [(1, g1)]) = None ->
            replace_loop hre tmpl 0 before pos (g1 ++ r ++ after) =
            g1 ++ r ++ firstn 1 after
            ++ after_run (before ++ g1 ++ r ++ firstn 1 after)
                         (pos + length (g1 ++ r ++ firstn 1 after)) after).
  { intros Hn. rewrite Hn in M.
    assert (W : no_gt (r ++ firstn 1 after) = true).
    { apply no_gt_app; [now apply no_angle_no_gt | now apply run_end_no_gt]. }
    rewrite Split in M |- *.
    transitivity ((g1 ++ r ++ firstn 1 after)
                  ++ after_run (before ++ g1 ++ r ++ firstn 1 after)
                               (pos + length (g1 ++ r ++ firstn 1 after)) after);
      [|now rewrite <- !app_assoc].
    destruct (g1 ++ r ++ firstn 1 after) as [|c0 w] eqn:E.
    - apply app_eq_nil in E as [-> E]. apply app_eq_nil in E as [-> E].
      destruct He as [-> | [tl ->]]; [|discriminate].
      cbn [app skipn]. now rewrite replace_loop_nil.
    - assert (Hw : no_gt w = true).
      { destruct Hs as [[-> ->] | [-> Hpos]]; cbn [app] in E.
        - rewrite E in W. unfold no_gt in W |- *. cbn [forallb] in W.
          now apply andb_true_iff in W as [_ W].
        - injection E as <- <-. exact W. }
      simpl app in M |- *. rewrite (copy_from c0 w _ before pos M Hw).
      rewrite Tail by lia. reflexivity. }
  destruct Hm as [r Ha Hq | r Ha Ho | a o b Ha Hq Lo Ho].
  - apply Unmarked. apply tail_match_unmarked; auto.
  - apply Unmarked. apply tail_match_unmarked; auto.
  - rewrite (tail_match_once t t_plain a o b after _ _ Ha Hq Lo Ho He) in M.
    set (r := a ++ o ++ b) in *.
    assert (Lr : 1 <= length r).
    { unfold r. rewrite !length_app, Lo. destruct t; [congruence | simpl; lia]. }
    destruct (g1 ++ r ++ after) as [|c0 rest'] eqn:E.
    { apply (f_equal (@length ascii)) in E. rewrite !length_app in E. simpl in E. lia. }
    cbn [replace_loop]. rewrite M. cbv zeta. cbn [m_pos m_caps re_ngroups highlight_re].
    rewrite expand_highlight.
    set (len := pos + length g1 + length r + length (firstn 1 after) - pos).
    assert (Hlen : len = length (g1 ++ r ++ firstn 1 after)).
    { unfold len. rewrite !length_app. lia. }
    destruct (len =? 0) eqn:E0.
    { apply Nat.eqb_eq in E0. rewrite Hlen, !length_app in E0. lia. }
    assert (E' : c0 :: rest' = (g1 ++ r ++ firstn 1 after) ++ skipn 1 after).
    { now rewrite <- E, <- Split. }
    destruct (g1 ++ r ++ firstn 1 after) as [|c1 w'] eqn:Ew.
    { simpl in Hlen. apply Nat.eqb_neq in E0. lia. }
    cbn [app] in E'. injection E' as -> ->.
    replace (len - 1) with (length w') by (rewrite Hlen; simpl; lia).
    rewrite replace_loop_skip, Tail by lia.
    assert (Eb : (before ++ [c1]) ++ w' = before ++ c1 :: w') by now rewrite <- app_assoc.
    rewrite Eb. replace (S pos + length w') with (pos + length (c1 :: w')) by (simpl; lia).
    now rewrite <- !app_assoc.
Qed.

End Highlighting.

(** *** The claims about [highlightText] *)

Lemma highlightHtml_literal (h t : str) :
  literal t = true ->
  highlightHtml h t =
  Compiled (match t with
            | [] => replace mark_tag_re [] h
            | _ :: _ => replace (highlight_re t) highlight_template (replace mark_tag_re [] h)
            end).
Proof.
  intros Hl. unfold highlightHtml, regex_replace. rewrite mark_tag_compiles.
  destruct t as [|c t]; [reflexivity |]. now rewrite (highlight_compiles (c :: t) Hl).
Qed.

(** Highlighting HTML that is [h0] with marks put in gives [h0] with marks
    put in, when the query is literal and [h0] has no mark tag of its own. *)
Lemma highlightHtml_marked_up (h0 h t : str) :
  no_mark_tags h0 = true -> marked_up h0 h -> literal t = true ->
  exists h', highlightHtml h t = Compiled h' /\ marked_up h0 h'.
Proof.
  intros Hn Hm Hl. rewrite (highlightHtml_literal h t Hl).
  assert (Es : replace mark_tag_re [] h = h0).
  { unfold replace. cbn [re_global mark_tag_re]. now apply strip_marked_up. }
  rewrite Es. destruct t as [|c t].
  - exists h0. split; [reflexivity | apply marked_up_refl].
  - eexists. split; [reflexivity |]. unfold replace. cbn [re_global highlight_re].
    apply (replace_loop_marked_up (t := c :: t)) with (skip := 0); [discriminate | lia].
Qed.

(** On HTML that is [h0] with marks put in, the highlighter computes what it
    computes on [h0]; with the empty query, [h0] itself. *)
Lemma highlightHtml_as_clean (h0 h t : str) :
  no_mark_tags h0 = true -> marked_up h0 h -> literal t = true ->
  highlightHtml h t = highlightHtml h0 t.
Proof.
  intros Hn Hm Hl. rewrite (highlightHtml_literal h t Hl), (highlightHtml_literal h0 t Hl).
  assert (E : forall x, marked_up h0 x -> replace mark_tag_re [] x = h0).
  { intros x Hx. unfold replace. cbn [re_global mark_tag_re]. now apply strip_marked_up. }
  now rewrite (E h Hm), (E h0 (marked_up_refl h0)).
Qed.

Lemma highlightHtml_clean_reset (h0 : str) :
  no_mark_tags h0 = true -> highlightHtml h0 [] = Compiled h0.
Proof.
  intros Hn. rewrite (highlightHtml_literal h0 [] eq_refl). f_equal.
  unfold replace. cbn [re_global mark_tag_re].
  apply strip_marked_up; [apply marked_up_refl | exact Hn].
Qed.

Section HighlightAndReset.

Context {D N : Type} {jq : Dom D N}.

(** [highlightText(element, q)] for the queries [qs], one call after the
    other: each call reads [element.html()] from the document the call before
    left, and writes with [element.html(newHtml)]. *)
Fixpoint highlight_each (element : N) (qs : list str) (d : D) : outcome D :=
  match qs with
  | [] => Done d
  | q :: qs' => highlightText element q d >>= highlight_each element qs'
  end.

(** The documents and the queries considered. *)
Variable wf : D -> Prop.
Variable asked : str -> Prop.

Variable element : N.
Variable h0 : str.

(** The element gives back unchanged the HTML the highlighter computes from
    [h0] for a query considered, once it is written to it. *)
Hypothesis reads_back :
  forall d t w, wf d -> asked t -> highlightHtml h0 t = Compiled w ->
                wf (set_html element w d) /\ html (set_html element w d) element = w.

Hypothesis clean : no_mark_tags h0 = true.

Lemma highlightText_keeps (q : str) (d : D) :
  asked q -> literal q = true -> wf d -> marked_up h0 (html d element) ->
  exists d', highlightText element q d = Done d' /\ wf d' /\
             marked_up h0 (html d' element).
Proof.
  intros Hq Hl W M.
  destruct (highlightHtml_marked_up h0 (html d element) q clean M Hl) as (w & E & Mw).
  pose proof E as E0. rewrite (highlightHtml_as_clean h0 (html d element) q clean M Hl) in E0.
  destruct (reads_back d q w W Hq E0) as [W' R].
  unfold highlightText. rewrite E. eexists. split; [reflexivity |].
  split; [exact W' | now rewrite R].
Qed.

Lemma highlight_each_keeps (qs : list str) :
  Forall asked qs -> forallb literal qs = true ->
  forall d, wf d -> marked_up h0 (html d element) ->
  exists d1, highlight_each element qs d = Done d1 /\ wf d1 /\
             marked_up h0 (html d1 element).
Proof.
  induction 1 as [|q qs' Hq F IH]; intros Hl d W M.
  - exists d. now repeat split.
  - cbn [forallb] in Hl. apply andb_true_iff in Hl as [Hl Hl'].
    destruct (highlightText_keeps q d Hq Hl W M) as (d' & E & W' & M').
    cbn [highlight_each]. rewrite E. cbn [bind]. now apply IH.
Qed.

Lemma highlightText_reset_restores (d : D) :
  asked [] -> wf d -> marked_up h0 (html d element) ->
  exists d', highlightText element [] d = Done d' /\ html d' element = h0.
Proof.
  intros Ha W M.
  pose proof (highlightHtml_clean_reset h0 clean) as R0.
  pose proof R0 as R1.
  rewrite <- (highlightHtml_as_clean h0 (html d element) [] clean M eq_refl) in R1.
  unfold highlightText. rewrite R1. eexists. split; [reflexivity |].
  exact (proj2 (reads_back d [] h0 W Ha R0)).
Qed.

End HighlightAndReset.

(** C6 (as amended).  Take an element whose HTML [h0] has no mark tag, and
    queries [qs] without special pattern characters, in a document where the
    element gives back unchanged the HTML the highlighter computes from [h0]
    for these queries and for the empty one.  [highlightText] on the element
    with the queries, one call after the other (the default [onMatchCell]),
    and then [highlightText] with the empty query (the default [resetCell])
    all return, and leave the element with the HTML [h0] exactly. *)
Theorem highlight_then_reset_restores {D N : Type} {jq : Dom D N}
    (wf : D -> Prop) (element : N) (h0 : str) (d0 : D) (qs : list str) :
  (forall d t w, wf d -> t = [] \/ In t qs -> highlightHtml h0 t = Compiled w ->
                 wf (set_html element w d) /\ html (set_html element w d) element = w) ->
  no_mark_tags h0 = true ->
  wf d0 -> html d0 element = h0 ->
  forallb literal qs = true ->
  exists d1 d2,
    highlight_each element qs d0 = Done d1 /\
    highlightText element [] d1 = Done d2 /\
    html d2 element = h0.
Proof.
  intros R Hn W0 E0 Hq.
  destruct (highlight_each_keeps wf (fun t => t = [] \/ In t qs) element h0 R Hn qs)
    with (d := d0) as (d1 & E1 & W1 & M1).
  - apply Forall_forall. intros t Ht. now right.
  - exact Hq.
  - exact W0.
  - rewrite E0. apply marked_up_refl.
  - destruct (highlightText_reset_restores wf (fun t => t = [] \/ In t qs) element h0 R Hn d1)
      as (d2 & E2 & H2); [now left | exact W1 | exact M1 |].
    now exists d1, d2.
Qed.

(* ================================================================== *)
(** ** The claims on the page of two rows *)

Import Page.

(** The default configuration, on the page model. *)
Definition default_config : Config (D := page) (N := nat) := configure no_options.

(** Options that only set [onNoMatchRow]. *)
Definition notify_options : Options (D := page) (N := nat) :=
  mkOptions None None None None None None None None
            (Some (Function mark_seen)) None None None None None.

(** Options that only set [resetTable], to [null]. *)
Definition no_resetTable_options : Options (D := page) (N := nat) :=
  mkOptions None None None None None None None None
            None None None None None (Some NotFunction).

(** Options that only set [resetTable], to a function that gives the table
    one more class entry at every call. *)
Definition counting_options : Options (D := page) (N := nat) :=
  mkOptions None None None None None None None None
            None None None None None
            (Some (Function (fun n d =>
               Done (mkPage (rows d) (classes d ++ [(n, txt "reset")]))))).

(** The example of the specification: the search for [cat] on the page of
    two rows matches the second row, and marks the text in its first cell. *)
Example search_cat :
  exists s',
    searchFor table default_config (txt "cat") (init people) = Done s' /\
    matchRows s' = [2] /\ noMatchRows s' = [] /\ matchCells s' = [21; 22] /\
    html (dom s') 21 = txt "<mark>Cat</mark>herine" /\
    html (dom s') 22 = txt "Smith" /\
    map (fun c => (c_hook c, c_target c)) (calls s') =
      [(ResetTable, 0); (OnStart, 0); (OnMatchCell, 21); (OnMatchCell, 22);
       (OnMatchRow, 2); (OnCompleted, 0)].
Proof. eexists. split; [vm_compute; reflexivity |]. vm_compute. repeat split. Qed.

(** Options that only set [onMatchRow], to [null]. *)
Definition no_onMatchRow_options : Options (D := page) (N := nat) :=
  mkOptions None None None None None None None (Some NotFunction)
            None None None None None None.

(** C1, against the claim as stated.  With [onMatchRow] set to [null], the
    search for [cat] returns; row 2 is selected and its text has the query,
    yet it is neither put in the matched array nor handed to [onMatchRow].
    And with the default configuration, where [onNoMatchRow] is [null], row 1
    is selected and its text does not have the query, yet it is neither put
    in the non-matched array nor handed to [onNoMatchRow]. *)
Lemma unhandled_rows :
  let Q := txt "cat" in
  let q := toLowerCase (trim Q) in
  let cfg := configure no_onMatchRow_options in
  let o := searchFor table cfg Q (init people) in
  let o' := searchFor table default_config Q (init people) in
  Q <> [] /\ q <> [] /\
  (returns o = true /\
   In 2 (find people table (rowSelector cfg)) /\
   row_matches cfg q (init people) 2 /\ row_matches cfg q (state_of o) 2 /\
   ~ In 2 (matchRows (state_of o)) /\
   ~ In (mkCall OnMatchRow 2 None) (calls (state_of o))) /\
  (returns o' = true /\
   In 1 (find people table (rowSelector default_config)) /\
   ~ row_matches default_config q (init people) 1 /\
   ~ row_matches default_config q (state_of o') 1 /\
   ~ In 1 (noMatchRows (state_of o')) /\
   ~ In (mkCall OnNoMatchRow 1 None) (calls (state_of o'))).
Proof.
  cbv zeta. split; [discriminate |]. split; [vm_compute; discriminate |]. split.
  - split; [reflexivity |]. split; [vm_compute; auto |].
    split; [apply row_test_matches; vm_compute; reflexivity |].
    split; [apply row_test_matches; vm_compute; reflexivity |].
    split; [vm_compute; tauto |].
    vm_compute. intros H. repeat (destruct H as [H | H]; [discriminate |]). exact H.
  - split; [reflexivity |]. split; [vm_compute; auto |].
    split; [apply row_test_no_match; vm_compute; reflexivity |].
    split; [apply row_test_no_match; vm_compute; reflexivity |].
    split; [vm_compute; tauto |].
    vm_compute. intros H. repeat (destruct H as [H | H]; [discriminate |]). exact H.
Qed.

Lemma searchFor_sorts_rows_witness :
  toLowerCase (trim (txt "cat")) <> [] /\
  exists s' s2 evs,
    searchFor table default_config (txt "cat") (init people) = Done s' /\
    selecting table default_config (init people) = Done s2 /\
    calls s' = calls (init people) ++ evs.
Proof.
  assert (Hq : toLowerCase (trim (txt "cat")) <> []) by (vm_compute; discriminate).
  split; [exact Hq |].
  assert (H : searchFor table default_config (txt "cat") (init people)
              = Done (state_of (searchFor table default_config (txt "cat") (init people))))
    by (vm_compute; reflexivity).
  destruct (@searchFor_sorts_rows page nat page_dom table default_config
              (txt "cat") (init people) _ Hq H) as (s2 & evs & A & B & _).
  eexists; exists s2, evs. split; [exact H |]. split; [exact A | exact B].
Defined.

(** C2, against the claim as stated.  The search for [cat] records cell 22
    and hands it to [onMatchCell], though its text, [Smith], does not have
    the query. *)
Lemma cell_without_query_is_recorded :
  let q := txt "cat" in
  let s' := state_of (searchFor table default_config q (init people)) in
  In 22 (matchCells s') /\
  In (mkCall OnMatchCell 22 (Some q)) (calls s') /\
  ~ contains (toLowerCase (text (dom s') 22)) q.
Proof.
  cbv zeta. split; [vm_compute; auto |]. split; [vm_compute; auto 10 |].
  intros H. apply indexOf_found in H. vm_compute in H. discriminate.
Qed.

Lemma searchFor_records_row_cells_witness :
  toLowerCase (trim (txt "cat")) <> [] /\
  is_function (onMatchCell default_config) = true /\
  exists s' s2 evs,
    searchFor table default_config (txt "cat") (init people) = Done s' /\
    selecting table default_config (init people) = Done s2 /\
    calls s' = calls (init people) ++ evs.
Proof.
  assert (Hq : toLowerCase (trim (txt "cat")) <> []) by (vm_compute; discriminate).
  split; [exact Hq |]. split; [reflexivity |].
  assert (H : searchFor table default_config (txt "cat") (init people)
              = Done (state_of (searchFor table default_config (txt "cat") (init people))))
    by (vm_compute; reflexivity).
  destruct (@searchFor_records_row_cells page nat page_dom table default_config
              (txt "cat") (init people) _ Hq eq_refl H) as (s2 & evs & A & B & _).
  eexists; exists s2, evs. split; [exact H |]. split; [exact A | exact B].
Defined.

(** C3, the code against the claim.  With [onNoMatchRow] a function and
    [resetNoMatchRow] left at its default, [null], the search for [cat] puts
    row 1 in the non-matched array, and [reset] returns with row 1 still in
    it. *)
Theorem reset_keeps_unmatched_rows :
  let cfg := configure notify_options in
  let s := state_of (searchFor table cfg (txt "cat") (init people)) in
  is_function (onNoMatchRow cfg) = true /\
  is_function (resetNoMatchRow cfg) = false /\
  noMatchRows s = [1] /\
  exists s1, reset table cfg s = Done s1 /\ noMatchRows s1 = [1].
Proof.
  cbv zeta. repeat split. eexists. split; vm_compute; reflexivity.
Qed.

(** C7, the code against the claim.  With [onNoMatchRow] a function and
    [resetNoMatchRow] left at its default, [null], the search for [cat] puts
    row 1 in the non-matched array; the search for a query of three spaces,
    which trims to the empty string, then returns with row 1 still in the
    array, and has called [resetTable] and the reset callbacks only. *)
Theorem blank_search_keeps_unmatched_rows :
  let cfg := configure notify_options in
  let s := state_of (searchFor table cfg (txt "cat") (init people)) in
  trim (txt "   ") = [] /\
  is_function (onNoMatchRow cfg) = true /\
  is_function (resetNoMatchRow cfg) = false /\
  noMatchRows s = [1] /\
  exists s1,
    searchFor table cfg (txt "   ") s = Done s1 /\
    noMatchRows s1 = [1] /\ matchRows s1 = [] /\ matchCells s1 = [] /\
    map (fun c => (c_hook c, c_target c)) (skipn (length (calls s)) (calls s1))
    = [(ResetCell, 22); (ResetCell, 21); (ResetMatchRow, 2); (ResetTable, 0)].
Proof.
  cbv zeta. repeat split. eexists. split; [vm_compute; reflexivity |].
  repeat split.
Qed.

(** On the page of two rows, a new searcher whose [resetTable] is [null]
    throws a [TypeError] at [reset()] and at [searchFor('cat')]. *)
Lemma reset_throws_without_resetTable_witness :
  resetTable (configure no_resetTable_options) = NotFunction /\
  (returns (reset table (configure no_resetTable_options) (init people)) = false /\
   returns (searchFor table (configure no_resetTable_options) (txt "cat") (init people))
   = false) /\
  reset table (configure no_resetTable_options) (init people)
  = Thrown TypeError (init people) /\
  searchFor table (configure no_resetTable_options) (txt "cat") (init people)
  = Thrown TypeError (init people).
Proof.
  split; [reflexivity |]. split.
  - exact (@reset_throws_without_resetTable page nat page_dom table
             (configure no_resetTable_options) (txt "cat") (init people) eq_refl).
  - split; vm_compute; reflexivity.
Defined.

Lemma searchFor_blank_is_reset_witness :
  trim (txt "   ") = [] /\
  searchFor table default_config (txt "   ") (init people)
  = reset table default_config (init people).
Proof.
  split; [reflexivity |].
  exact (proj1 (@searchFor_blank_is_reset page nat page_dom table default_config
                  (txt "   ") (init people) eq_refl)).
Defined.

(** The state the search for [cat] leaves, and the one [reset] leaves after
    it. *)
Definition after_search : State (D := page) (N := nat) :=
  state_of (searchFor table default_config (txt "cat") (init people)).

Definition after_reset : State (D := page) (N := nat) :=
  state_of (reset table default_config after_search).

(** The default [resetTable], [removeClass], does nothing the second time. *)
Lemma page_removeClass_twice (n : nat) (c : str) (d : page) :
  page_removeClass n c (page_removeClass n c d) = page_removeClass n c d.
Proof.
  unfold page_removeClass. simpl. f_equal.
  induction (classes d) as [|e l IH]; simpl; [reflexivity |].
  destruct (negb (same_class n c e)) eqn:E; simpl; [rewrite E; f_equal |]; exact IH.
Qed.

(** C8, against the claim as stated.  With a [resetTable] that adds to the
    table's classes at every call, the second of two [reset] calls changes
    the document. *)
Lemma second_reset_changes_document :
  let cfg := configure counting_options in
  exists s1 s2,
    reset table cfg (init people) = Done s1 /\
    reset table cfg s1 = Done s2 /\
    dom s2 <> dom s1.
Proof.
  cbv zeta. eexists. eexists. split; [vm_compute; reflexivity |].
  split; [vm_compute; reflexivity | discriminate].
Qed.

Lemma reset_twice_witness :
  reset table default_config after_search = Done after_reset /\
  calls (state_of (reset table default_config after_reset))
  = calls after_reset ++ [mkCall ResetTable table None] /\
  returns (reset table default_config after_reset) = true /\
  dom (state_of (reset table default_config after_reset)) = dom after_reset.
Proof.
  assert (H : reset table default_config after_search = Done after_reset)
    by (vm_compute; reflexivity).
  split; [exact H |].
  destruct (@reset_twice page nat table default_config after_search after_reset H)
    as (_ & C & I).
  split; [exact C |].
  apply (I (fun tbl d => Done (removeClass tbl (txt "tablesearch-results") d)) eq_refl).
  intros d d' E. injection E as <-. simpl. f_equal. apply page_removeClass_twice.
Defined.

Lemma untracked_without_callback_witness :
  on_callable default_config NoMatchRows = false /\
  get NoMatchRows
      (session table default_config [CallSearchFor (txt "cat"); CallReset] people) = [].
Proof.
  split; [reflexivity |].
  exact (proj1 (@untracked_without_callback page nat page_dom table default_config
                  NoMatchRows people [CallSearchFor (txt "cat"); CallReset] eq_refl)).
Defined.

(** C9 at work: the query [  CAT ] reaches [onMatchCell] as [cat]. *)
Example onMatchCell_gets_cat :
  In (mkCall OnMatchCell 21 (Some (txt "cat")))
     (calls (state_of (searchFor table default_config (txt "  CAT ") (init people)))).
Proof. vm_compute. auto 10. Qed.

(** C5, against the claim as stated.  The text [cat] stands once in a text
    run with double quotes and is not wrapped; it stands twice in the run
    [cat cat] and only the second is wrapped. *)
Lemma highlight_misses_occurrences :
  let quoted := txt "a " ++ [dq] ++ txt "cat" ++ [dq] in
  literal (txt "cat") = true /\
  occurrences (txt "cat") quoted = [3] /\
  highlightHtml quoted (txt "cat") = Compiled quoted /\
  occurrences (txt "cat") (txt "cat cat") = [0; 4] /\
  highlightHtml (txt "cat cat") (txt "cat") = Compiled (txt "cat <mark>cat</mark>").
Proof. cbv zeta. repeat split; vm_compute; reflexivity. Qed.

(** C6, against the claim as stated.  The HTML [cab] has no mark tag and no
    special character.  Highlighting it for the query [(a)], whose parentheses
    shift the groups of the replacement, writes HTML with a second [a]: plain
    text and one mark element, which an element gives back as written.  The
    reset then writes [caab], not the original. *)
Lemma highlight_reset_loses_html :
  let h := txt "cab" in
  no_mark_tags h = true /\
  highlightHtml h (txt "(a)") = Compiled (txt "c<mark>a</mark>ab") /\
  highlightHtml (txt "c<mark>a</mark>ab") [] = Compiled (txt "caab") /\
  txt "caab" <> h.
Proof.
  cbv zeta. split; [reflexivity |]. split; [vm_compute; reflexivity |].
  split; [vm_compute; reflexivity | discriminate].
Qed.

(* ================================================================== *)
(** ** Further properties of the searcher: order and partition *)

Section CallOrder.

Context {D N : Type} {jq : Dom D N}.
Variable self : N.
Variable cfg : Config (D := D) (N := N).

Local Abbreviation State := (State (D := D) (N := N)).

(** The calls one [doReset(func, arr)] makes: [func] on the elements of the
    array, the last pushed first; none when [func] is not a function. *)
Definition doReset_calls (h : hook) (v : jsval (handler (D := D) (N := N)))
    (l : list N) : list (call N) :=
  if is_function v then map (fun x => mkCall h x None) (rev l) else [].

(** The array [doReset(func, arr)] leaves. *)
Definition doReset_leaves (v : jsval (handler (D := D) (N := N))) (l : list N) : list N :=
  if is_function v then [] else l.

(** The calls of one [reset()] from the state [s]. *)
Definition reset_calls (s : State) : list (call N) :=
  doReset_calls ResetCell (resetCell cfg) (matchCells s)
  ++ doReset_calls ResetMatchRow (resetMatchRow cfg) (matchRows s)
  ++ doReset_calls ResetNoMatchRow (resetNoMatchRow cfg) (noMatchRows s)
  ++ [mkCall ResetTable self None].

(** [if (typeof f === 'function') f(self)] as calls. *)
Definition once (h : hook) (v : jsval (handler (D := D) (N := N))) : list (call N) :=
  if is_function v then [mkCall h self None] else [].

Definition is_match_hook (h : hook) : bool :=
  match h with
  | OnMatchCell | OnMatchRow | OnNoMatchRow => true
  | _ => false
  end.

Definition is_row_hook (h : hook) : bool :=
  match h with
  | OnMatchRow | OnNoMatchRow => true
  | _ => false
  end.

(** The rows handed to [onMatchRow] or [onNoMatchRow], in the order of the
    calls. *)
Definition row_level (evs : list (call N)) : list N :=
  map (@c_target N) (filter (fun c => is_row_hook (c_hook c)) evs).

(** [l] is [l1] and [l2] shuffled together, each keeping its order. *)
Inductive interleaved : list N -> list N -> list N -> Prop :=
| il_nil : interleaved [] [] []
| il_left x l1 l2 l : interleaved l1 l2 l -> interleaved (x :: l1) l2 (x :: l)
| il_right x l1 l2 l : interleaved l1 l2 l -> interleaved l1 (x :: l2) (x :: l).

Lemma doReset_trace h (v : jsval handler) a (s s' : State) :
  doReset h v a s = Done s' ->
  calls s' = calls s ++ doReset_calls h v (get a s) /\
  get a s' = doReset_leaves v (get a s) /\
  forall b, b <> a -> get b s' = get b s.
Proof.
  intros E. split; [|split].
  - destruct v as [|f].
    + rewrite doReset_not_function in E. injection E as <-.
      unfold doReset_calls. simpl. now rewrite app_nil_r.
    + now destruct (doReset_done h (Function f) a s eq_refl E).
  - destruct v as [|f].
    + rewrite doReset_not_function in E. now injection E as <-.
    + now destruct (doReset_done h (Function f) a s eq_refl E).
  - intros b Hb. pose proof (@doReset_get_other D N h v a b s Hb) as G.
    now rewrite E in G.
Qed.

Lemma reset_trace (s s' : State) :
  reset self cfg s = Done s' ->
  calls s' = calls s ++ reset_calls s /\
  matchCells s' = doReset_leaves (resetCell cfg) (matchCells s) /\
  matchRows s' = doReset_leaves (resetMatchRow cfg) (matchRows s) /\
  noMatchRows s' = doReset_leaves (resetNoMatchRow cfg) (noMatchRows s).
Proof.
  unfold reset. intros E.
  destruct (doReset ResetCell (resetCell cfg) MatchCells s) as [s1|] eqn:E1;
    [|discriminate].
  cbn [bind] in E.
  destruct (doReset ResetMatchRow (resetMatchRow cfg) MatchRows s1) as [s2|] eqn:E2;
    [|discriminate].
  cbn [bind] in E.
  destruct (doReset ResetNoMatchRow (resetNoMatchRow cfg) NoMatchRows s2) as [s3|] eqn:E3;
    [|discriminate].
  cbn [bind] in E.
  destruct (resetTable cfg) as [|f]; [discriminate |].
  apply invoke_done in E as [G4 C4].
  apply doReset_trace in E1 as (C1 & A1 & O1).
  apply doReset_trace in E2 as (C2 & A2 & O2).
  apply doReset_trace in E3 as (C3 & A3 & O3).
  pose proof (O1 MatchRows ltac:(discriminate)) as R1.
  pose proof (O1 NoMatchRows ltac:(discriminate)) as R1'.
  pose proof (O2 MatchCells ltac:(discriminate)) as R2.
  pose proof (O2 NoMatchRows ltac:(discriminate)) as R2'.
  pose proof (O3 MatchCells ltac:(discriminate)) as R3.
  pose proof (O3 MatchRows ltac:(discriminate)) as R3'.
  pose proof (G4 MatchCells) as G. pose proof (G4 MatchRows) as G'.
  pose proof (G4 NoMatchRows) as G''.
  cbn [get] in *.
  split; [|repeat split; congruence].
  unfold reset_calls. rewrite C4, C3, C2, C1, R2', R1', R1.
  now rewrite <- !app_assoc.
Qed.

Lemma row_calls_hooks q (s : State) r :
  Forall (fun c => is_match_hook (c_hook c) = true) (row_calls cfg q s r).
Proof.
  unfold row_calls. destruct (row_test cfg q s r).
  - apply Forall_app. split.
    + destruct (is_function (onMatchCell cfg)); [|constructor].
      apply Forall_forall. intros c Hc. apply in_map_iff in Hc as (x & <- & _).
      reflexivity.
    + destruct (is_function (onMatchRow cfg)); repeat constructor.
  - destruct (is_function (onNoMatchRow cfg)); repeat constructor.
Qed.

Lemma row_level_app (e1 e2 : list (call N)) :
  row_level (e1 ++ e2) = row_level e1 ++ row_level e2.
Proof. unfold row_level. now rewrite filter_app, map_app. Qed.

Lemma row_level_cells q (cells : list N) : row_level (map (cell_call q) cells) = [].
Proof. induction cells as [|c cells IH]; [reflexivity | exact IH]. Qed.

Lemma row_calls_row_level q (s : State) r :
  is_function (onMatchRow cfg) = true -> is_function (onNoMatchRow cfg) = true ->
  row_level (row_calls cfg q s r) = [r].
Proof.
  intros H1 H2. unfold row_calls. rewrite H1, H2.
  destruct (row_test cfg q s r); [|reflexivity].
  rewrite row_level_app.
  destruct (is_function (onMatchCell cfg)); [|reflexivity].
  now rewrite row_level_cells.
Qed.

(** The pass over the rows: only the three match callbacks are called, and
    when both row callbacks are functions every row gets one row-level call,
    in the order of the rows. *)
Lemma each_row_trace q rows (s s' : State) :
  each_row cfg q rows s = Done s' ->
  exists e1,
    calls s' = calls s ++ e1 /\
    Forall (fun c => is_match_hook (c_hook c) = true) e1 /\
    (is_function (onMatchRow cfg) = true -> is_function (onNoMatchRow cfg) = true ->
     row_level e1 = rows).
Proof.
  revert s. induction rows as [|r rows IH]; intros s E.
  - injection E as <-. exists []. rewrite app_nil_r. repeat split. constructor.
  - cbn [each_row] in E.
    destruct (row_step cfg q r s) as [s1|] eqn:E1; [|discriminate].
    cbn [bind] in E. apply row_step_done in E1 as [_ C1].
    destruct (IH s1 E) as (e1 & C & F & R).
    exists (row_calls cfg q s r ++ e1). split; [|split].
    + now rewrite C, C1, <- app_assoc.
    + apply Forall_app. split; [apply row_calls_hooks | exact F].
    + intros H1 H2. rewrite row_level_app, (row_calls_row_level q s r H1 H2).
      simpl. f_equal. now apply R.
Qed.

(** The pass over the rows puts every row in one of the two row arrays, when
    both row callbacks are functions. *)
Lemma each_row_interleaved q rows (s s' : State) :
  is_function (onMatchRow cfg) = true -> is_function (onNoMatchRow cfg) = true ->
  each_row cfg q rows s = Done s' ->
  exists lm ln,
    matchRows s' = matchRows s ++ lm /\ noMatchRows s' = noMatchRows s ++ ln /\
    interleaved lm ln rows.
Proof.
  intros H1 H2. revert s. induction rows as [|r rows IH]; intros s E.
  - injection E as <-. exists [], []. rewrite !app_nil_r. repeat split. constructor.
  - cbn [each_row] in E.
    destruct (row_step cfg q r s) as [s1|] eqn:E1; [|discriminate].
    cbn [bind] in E. apply row_step_done in E1 as [G1 _].
    destruct (IH s1 E) as (lm & ln & Em & En & I).
    pose proof (G1 MatchRows) as Gm. pose proof (G1 NoMatchRows) as Gn.
    cbn [get pushed] in Gm, Gn. rewrite H1 in Gm. rewrite H2 in Gn.
    destruct (row_test cfg q s r); cbn [andb negb] in Gm, Gn.
    + exists (r :: lm), ln. rewrite Em, En, Gm, Gn, <- !app_assoc.
      repeat split. now constructor.
    + exists lm, (r :: ln). rewrite Em, En, Gm, Gn, <- !app_assoc.
      repeat split. now constructor.
Qed.

(** X1.  A [reset()] that returns has called, in this order: [resetCell] on
    the recorded cells, the last recorded first; [resetMatchRow] on the
    recorded matching rows, the last first; [resetNoMatchRow] on the recorded
    other rows, the last first; each of the three only if it is a function;
    and then [resetTable] on the table.  An array whose callback is a
    function is left empty, the others are left as they were. *)
Theorem reset_call_order (s s' : State) :
  reset self cfg s = Done s' ->
  calls s' = calls s
    ++ doReset_calls ResetCell (resetCell cfg) (matchCells s)
    ++ doReset_calls ResetMatchRow (resetMatchRow cfg) (matchRows s)
    ++ doReset_calls ResetNoMatchRow (resetNoMatchRow cfg) (noMatchRows s)
    ++ [mkCall ResetTable self None] /\
  matchCells s' = doReset_leaves (resetCell cfg) (matchCells s) /\
  matchRows s' = doReset_leaves (resetMatchRow cfg) (matchRows s) /\
  noMatchRows s' = doReset_leaves (resetNoMatchRow cfg) (noMatchRows s).
Proof. intros E. exact (reset_trace s s' E). Qed.

(** X2.  A [searchFor] with a query that is not blank, when it returns, has
    made its calls in this order: those of [reset()]; [onStart] on the table,
    if it is a function; calls of [onMatchCell], [onMatchRow] and
    [onNoMatchRow] only; [onCompleted] on the table, if it is a function.
    When [onMatchRow] and [onNoMatchRow] are both functions, the rows they
    are called on, in the order of the calls, are the rows selected, in
    document order. *)
Theorem searchFor_call_order (Q : str) (s s' : State) :
  toLowerCase (trim Q) <> [] ->
  searchFor self cfg Q s = Done s' ->
  exists s2 e1,
    selecting self cfg s = Done s2 /\
    calls s' = calls s ++ reset_calls s ++ once OnStart (onStart cfg) ++ e1
               ++ once OnCompleted (onCompleted cfg) /\
    Forall (fun c => is_match_hook (c_hook c) = true) e1 /\
    (is_function (onMatchRow cfg) = true -> is_function (onNoMatchRow cfg) = true ->
     row_level e1 = find (dom s2) self (rowSelector cfg)).
Proof.
  intros Hq E.
  destruct (searchFor_done self cfg Q s Hq E) as (s1 & s2 & s3 & E1 & E2 & E3 & E4).
  destruct (reset_trace s s1 E1) as (C1 & _).
  destruct (if_function_done self OnStart (onStart cfg) s1 E2) as (_ & C2).
  destruct (each_row_trace _ _ s2 s3 E3) as (e1 & C3 & F & R).
  destruct (if_function_done self OnCompleted (onCompleted cfg) s3 E4) as (_ & C4).
  exists s2, e1. split; [|split; [|split]].
  - unfold selecting. now rewrite E1.
  - unfold once. rewrite C4, C3, C2, C1. now rewrite <- !app_assoc.
  - exact F.
  - exact R.
Qed.

(** X3.  With [onMatchRow] and [onNoMatchRow] both functions, and the two row
    arrays empty when the rows are visited (their reset callbacks are
    functions, or they were empty), a [searchFor] that returns has put every
    selected row in exactly one of the two arrays: the rows selected are the
    two arrays shuffled together, each in document order. *)
Theorem searchFor_partitions_rows (Q : str) (s s' : State) :
  toLowerCase (trim Q) <> [] ->
  is_function (onMatchRow cfg) = true -> is_function (onNoMatchRow cfg) = true ->
  (is_function (resetMatchRow cfg) = true \/ matchRows s = []) ->
  (is_function (resetNoMatchRow cfg) = true \/ noMatchRows s = []) ->
  searchFor self cfg Q s = Done s' ->
  exists s2,
    selecting self cfg s = Done s2 /\
    interleaved (matchRows s') (noMatchRows s') (find (dom s2) self (rowSelector cfg)) /\
    length (matchRows s') + length (noMatchRows s')
    = length (find (dom s2) self (rowSelector cfg)).
Proof.
  intros Hq H1 H2 Rm Rn E.
  destruct (searchFor_done self cfg Q s Hq E) as (s1 & s2 & s3 & E1 & E2 & E3 & E4).
  destruct (reset_trace s s1 E1) as (_ & _ & M1 & N1).
  destruct (if_function_done self OnStart (onStart cfg) s1 E2) as (G2 & _).
  destruct (each_row_interleaved _ _ s2 s3 H1 H2 E3) as (lm & ln & Em & En & I).
  destruct (if_function_done self OnCompleted (onCompleted cfg) s3 E4) as (G4 & _).
  assert (Z1 : matchRows s2 = []).
  { pose proof (G2 MatchRows) as G. cbn [get] in G. rewrite G, M1.
    unfold doReset_leaves. destruct Rm as [-> | ->]; [reflexivity |].
    now destruct (is_function (resetMatchRow cfg)). }
  assert (Z2 : noMatchRows s2 = []).
  { pose proof (G2 NoMatchRows) as G. cbn [get] in G. rewrite G, N1.
    unfold doReset_leaves. destruct Rn as [-> | ->]; [reflexivity |].
    now destruct (is_function (resetNoMatchRow cfg)). }
  pose proof (G4 MatchRows) as Gm. pose proof (G4 NoMatchRows) as Gn.
  cbn [get] in Gm, Gn. rewrite Z1 in Em. rewrite Z2 in En. cbn [app] in Em, En.
  exists s2. split; [unfold selecting; now rewrite E1 |].
  rewrite Gm, Gn, Em, En. split; [exact I |].
  clear - I. induction I; simpl; lia.
Qed.

End CallOrder.

(** *** An array whose reset callback is not a function *)

Section Growth.

Context {D N : Type} {jq : Dom D N}.
Variable self : N.
Variable cfg : Config (D := D) (N := N).

Local Abbreviation State := (State (D := D) (N := N)).

(** The array [a] of [s'] is that of [s] with elements pushed. *)
Definition grows (a : tracked) (s s' : State) : Prop :=
  exists l, get a s' = get a s ++ l.

Lemma grows_eq a (s s' : State) : get a s' = get a s -> grows a s s'.
Proof. intros E. exists []. now rewrite app_nil_r. Qed.

Lemma grows_trans a (s1 s2 s3 : State) : grows a s1 s2 -> grows a s2 s3 -> grows a s1 s3.
Proof.
  intros [l1 E1] [l2 E2]. exists (l1 ++ l2). now rewrite E2, E1, app_assoc.
Qed.

Lemma grows_bind a (o : outcome State) (k : State -> outcome State) (s : State) :
  grows a s (state_of o) ->
  (forall s1, o = Done s1 -> grows a s1 (state_of (k s1))) ->
  grows a s (state_of (o >>= k)).
Proof.
  intros H K. destruct o as [s1 | e s1]; [|exact H].
  cbn [bind]. exact (grows_trans _ _ _ _ H (K s1 eq_refl)).
Qed.

Lemma grows_push a b x (s : State) : grows a s (push b x s).
Proof.
  unfold grows. rewrite get_push.
  destruct (tracked_eqb a b) eqn:E.
  - apply tracked_eqb_eq in E as ->. now exists [x].
  - exists []. now rewrite app_nil_r.
Qed.

Lemma grows_invoke a h (f : handler) x arg (s : State) :
  grows a s (state_of (invoke h f x arg s)).
Proof. apply grows_eq, invoke_get. Qed.

Lemma each_cell_grows a (f : cell_handler) q cells (s : State) :
  grows a s (state_of (each_cell f q cells s)).
Proof.
  revert s. induction cells as [|c cells IH]; intros s; [now apply grows_eq |].
  cbn [each_cell]. apply grows_bind; [|intros s1 _; apply IH].
  exact (grows_trans _ _ _ _ (grows_push a MatchCells c s) (grows_invoke a _ _ _ _ _)).
Qed.

Lemma row_step_grows a q r (s : State) : grows a s (state_of (row_step cfg q r s)).
Proof.
  unfold row_step. destruct (indexOf _ q >? -1)%Z.
  - apply grows_bind.
    + destruct (onMatchCell cfg) as [|f]; [now apply grows_eq | apply each_cell_grows].
    + intros s1 _. destruct (onMatchRow cfg) as [|f]; [now apply grows_eq |].
      exact (grows_trans _ _ _ _ (grows_push a MatchRows r s1) (grows_invoke a _ _ _ _ _)).
  - destruct (onNoMatchRow cfg) as [|f]; [now apply grows_eq |].
    exact (grows_trans _ _ _ _ (grows_push a NoMatchRows r s) (grows_invoke a _ _ _ _ _)).
Qed.

Lemma each_row_grows a q rows (s : State) : grows a s (state_of (each_row cfg q rows s)).
Proof.
  revert s. induction rows as [|r rows IH]; intros s; [now apply grows_eq |].
  cbn [each_row]. apply grows_bind; [apply row_step_grows | intros s1 _; apply IH].
Qed.

Lemma searchFor_grows a Q (s : State) :
  is_function (reset_callback cfg a) = false ->
  grows a s (state_of (searchFor self cfg Q s)).
Proof.
  intros Hr. unfold searchFor.
  apply grows_bind; [now apply grows_eq, reset_keeps_not_function |].
  intros s1 _. destruct (toLowerCase (trim Q)) as [|c q]; [now apply grows_eq |].
  apply grows_bind; [apply grows_eq, if_function_get |].
  intros s2 _. apply grows_bind; [apply each_row_grows |].
  intros s3 _. apply grows_eq, if_function_get.
Qed.

Lemma serve_grows a r (s : State) :
  is_function (reset_callback cfg a) = false ->
  grows a s (state_of (serve self cfg r s)).
Proof.
  intros Hr. destruct r as [Q|]; cbn [serve].
  - now apply searchFor_grows.
  - now apply grows_eq, reset_keeps_not_function.
Qed.

(** X14.  [doReset] empties an array only by popping from it, and pops only
    when the reset callback is a function.  An array whose reset callback is
    not a function is never made shorter: whatever calls of [searchFor] and
    [reset] follow, it keeps the elements it has, in their order, and gets
    those the later searches push. *)
Theorem unreset_array_grows (a : tracked) (d : D) (rs1 rs2 : list request) :
  is_function (reset_callback cfg a) = false ->
  exists l,
    get a (session self cfg (rs1 ++ rs2) d) = get a (session self cfg rs1 d) ++ l.
Proof.
  intros Hr. induction rs2 as [|r rs2 IH] using rev_ind.
  - exists []. now rewrite !app_nil_r.
  - rewrite app_assoc, session_snoc. fold (grows a (session self cfg rs1 d)
      (state_of (serve self cfg r (session self cfg (rs1 ++ rs2) d)))).
    exact (grows_trans _ _ _ _ IH (serve_grows a r _ Hr)).
Qed.

End Growth.

(* ================================================================== *)
(** ** Further properties of the row test *)

Section RowTest.

Context {D N : Type} {jq : Dom D N}.
Variable cfg : Config (D := D) (N := N).

Local Abbreviation State := (State (D := D) (N := N)).

Lemma contains_app_left (x q1 q2 : str) : contains x (q1 ++ q2) -> contains x q1.
Proof. intros (a & b & ->). exists a, (q2 ++ b). now rewrite <- app_assoc. Qed.

Lemma contains_app_right (x q1 q2 : str) : contains x (q1 ++ q2) -> contains x q2.
Proof.
  intros (a & b & ->). exists (a ++ q1), b. now rewrite <- !app_assoc.
Qed.

(** X5.  On text of characters below 256 (Latin-1), where [toLowerCase]
    works character by character, the row test is a substring test that
    ignores the case of the row's text: a row passes for the query [q] exactly
    when the joined text of its cells has a piece whose lower-case form is
    [q]. *)
Theorem row_test_ignores_case (q : str) (s : State) (r : N) :
  row_test cfg q s r = true <->
  exists a o b,
    text_of (dom s) (row_cells cfg s r) = a ++ o ++ b /\ toLowerCase o = q.
Proof.
  rewrite row_test_matches. unfold row_matches, row_text, contains, toLowerCase.
  split.
  - intros (a' & b' & E).
    apply map_eq_app in E as (a & ob & E & Ea & Eob).
    apply map_eq_app in Eob as (o & b & Eob & Eo & Eb).
    exists a, o, b. split; [now rewrite E, Eob | exact Eo].
  - intros (a & o & b & E & Eo).
    exists (map lower_char a), (map lower_char b).
    now rewrite E, !map_app, Eo.
Qed.

(** X6.  A longer query narrows the choice: on the same document, a row that
    passes the test for a query passes it for every piece the query begins
    or ends with. *)
Theorem row_test_narrows (q1 q2 : str) (s : State) (r : N) :
  row_test cfg (q1 ++ q2) s r = true ->
  row_test cfg q1 s r = true /\ row_test cfg q2 s r = true.
Proof.
  rewrite !row_test_matches. unfold row_matches. intros H. split.
  - exact (contains_app_left _ _ _ H).
  - exact (contains_app_right _ _ _ H).
Qed.

End RowTest.

(* ================================================================== *)
(** ** Further properties of [highlightText] *)

(** The HTML cleared of its mark tags: what the first [replace] of
    [highlightText] gives. *)
Definition strip_marks (h : str) : str := Regex.replace mark_tag_re [] h.

Lemma highlightHtml_reset (h : str) : highlightHtml h [] = Compiled (strip_marks h).
Proof. exact (highlightHtml_literal h [] eq_refl). Qed.

Lemma strip_marks_marked_up (h0 h : str) :
  no_mark_tags h0 = true -> marked_up h0 h -> strip_marks h = h0.
Proof.
  intros Hn Hm. unfold strip_marks, replace. cbn [re_global mark_tag_re].
  now apply strip_marked_up.
Qed.

(** X7.  For a query without special pattern characters, [highlightText]
    returns, and what it writes is the HTML it read, cleared of mark tags,
    with mark tags put in: no other character is added, dropped or moved. *)
Theorem highlight_keeps_text (h t : str) :
  literal t = true ->
  exists h',
    highlightHtml h t = Compiled h' /\ marked_up (strip_marks h) h'.
Proof.
  intros Hl. rewrite (highlightHtml_literal h t Hl). fold (strip_marks h).
  destruct t as [|c t].
  - eexists. split; [reflexivity | apply marked_up_refl].
  - eexists. split; [reflexivity |]. unfold replace. cbn [re_global highlight_re].
    apply (replace_loop_marked_up (t := c :: t)) with (skip := 0); [discriminate | lia].
Qed.

(** X8.  Marks of earlier searches leave no trace: on HTML that is [h0],
    free of mark tags, with mark tags put in, [highlightText] writes what it
    writes on [h0] itself. *)
Theorem highlight_ignores_old_marks (h0 h t : str) :
  no_mark_tags h0 = true -> marked_up h0 h -> literal t = true ->
  highlightHtml h t = highlightHtml h0 t.
Proof.
  intros Hn Hm Hl. rewrite (highlightHtml_literal h t Hl), (highlightHtml_literal h0 t Hl).
  fold (strip_marks h) (strip_marks h0).
  rewrite (strip_marks_marked_up h0 h Hn Hm).
  now rewrite (strip_marks_marked_up h0 h0 Hn (marked_up_refl h0)).
Qed.

(** *** A query with a parenthesis of its own *)

Definition open_paren : ascii := "("%char.
Definition close_paren : ascii := ")"%char.

Lemma parse_open_paren (t1 t2 : str) :
  literal t1 = true -> literal t2 = true ->
  parse (highlight_source (t1 ++ open_paren :: t2)) = SyntaxError.
Proof.
  intros H1 H2. unfold parse.
  change (highlight_source (t1 ++ open_paren :: t2))
    with ((txt "(^|>)([^" ++ [dq] ++ txt "<>]*)(") ++ (t1 ++ open_paren :: t2)
          ++ (txt ")([^" ++ [dq] ++ txt "<>]*)(<|$)")).
  rewrite psteps_app.
  match goal with |- context [psteps ?p (txt ?a ++ [dq] ++ txt ?b)] =>
    let r := eval vm_compute in (psteps p (txt a ++ [dq] ++ txt b)) in
    change (psteps p (txt a ++ [dq] ++ txt b)) with r
  end.
  cbv iota beta. rewrite <- app_assoc, (psteps_literal t1 H1).
  change ((open_paren :: t2) ++ ?x) with (open_paren :: t2 ++ x).
  cbn [psteps]. unfold pstep at 1. cbn [p_mode].
  change (classify open_paren) with TOpen. cbv iota.
  cbn [p_next p_top p_parents].
  rewrite (psteps_literal t2 H2).
  generalize (rev (map lit t2) ++ []) as items2.
  generalize (rev (map lit t1) ++ []) as items1. intros items1 items2.
  vm_compute. reflexivity.
Qed.

Lemma parse_close_paren (t1 t2 : str) :
  literal t1 = true -> literal t2 = true ->
  parse (highlight_source (t1 ++ close_paren :: t2)) = SyntaxError.
Proof.
  intros H1 H2. unfold parse.
  change (highlight_source (t1 ++ close_paren :: t2))
    with ((txt "(^|>)([^" ++ [dq] ++ txt "<>]*)(") ++ (t1 ++ close_paren :: t2)
          ++ (txt ")([^" ++ [dq] ++ txt "<>]*)(<|$)")).
  rewrite psteps_app.
  match goal with |- context [psteps ?p (txt ?a ++ [dq] ++ txt ?b)] =>
    let r := eval vm_compute in (psteps p (txt a ++ [dq] ++ txt b)) in
    change (psteps p (txt a ++ [dq] ++ txt b)) with r
  end.
  cbv iota beta. rewrite <- app_assoc, (psteps_literal t1 H1).
  change ((close_paren :: t2) ++ ?x) with (close_paren :: t2 ++ x).
  cbn [psteps]. unfold pstep at 1. cbn [p_mode].
  change (classify close_paren) with TClose. cbv iota.
  cbn [p_next p_top p_parents f_group f_alts f_seq].
  rewrite (psteps_literal t2 H2).
  generalize (rev (map lit t2)) as items2.
  generalize (rev (map lit t1) ++ []) as items1. intros items1 items2.
  vm_compute. reflexivity.
Qed.

Lemma highlightHtml_syntax_error (h t : str) :
  t <> [] -> parse (highlight_source t) = SyntaxError -> highlightHtml h t = SyntaxError.
Proof.
  intros Ht P. unfold highlightHtml, regex_replace. rewrite mark_tag_compiles.
  destruct t as [|c t]; [congruence |].
  unfold RegExp. rewrite P. reflexivity.
Qed.

Lemma highlightHtml_paren (h t1 t2 : str) (p : ascii) :
  literal t1 = true -> literal t2 = true ->
  p = open_paren \/ p = close_paren ->
  highlightHtml h (t1 ++ p :: t2) = SyntaxError.
Proof.
  intros H1 H2 Hp. apply highlightHtml_syntax_error.
  - now destruct t1.
  - destruct Hp as [-> | ->]; [now apply parse_open_paren | now apply parse_close_paren].
Qed.

(** X9.  The query goes into the pattern as it is.  A query that has one
    parenthesis, opening or closing, among characters that are not special,
    gives a pattern that [new RegExp] refuses: for such a query
    [highlightText] computes no HTML and throws a [SyntaxError], whatever
    the HTML of the element. *)
Theorem highlight_unbalanced_paren (h t1 t2 : str) (p : ascii) :
  literal t1 = true -> literal t2 = true ->
  p = open_paren \/ p = close_paren ->
  highlightHtml h (t1 ++ p :: t2) = SyntaxError.
Proof. exact (highlightHtml_paren h t1 t2 p). Qed.

(** *** Runs that have the text more than once *)

(** What the highlighter makes of a text run: nothing, when the run has a
    double quote or does not have the text; otherwise marks around the last
    place where the text stands. *)
Inductive run_result (t : str) : str -> str -> Prop :=
| rr_quoted r :
    no_angle r = true -> has_quote r = true -> run_result t r r
| rr_absent r :
    no_angle r = true -> occurrences t r = [] -> run_result t r r
| rr_last a o b :
    no_angle (a ++ o ++ b) = true -> has_quote (a ++ o ++ b) = false ->
    length o = length t ->
    In (length a) (occurrences t (a ++ o ++ b)) ->
    (forall n, In n (occurrences t (a ++ o ++ b)) -> n <= length a) ->
    run_result t (a ++ o ++ b) (a ++ txt "<mark>" ++ o ++ txt "</mark>" ++ b).

Inductive seg_result (t : str) : str * str -> str * str -> Prop :=
| sr_tag tag r r' :
    forallb (fun c => negb (Ascii.eqb c gt_char)) tag = true ->
    run_result t r r' -> seg_result t (tag, r) (tag, r').

(** The largest number of a list. *)
Definition last_of (l : list nat) : nat := fold_right Nat.max 0 l.

Section LastOccurrence.

Variable t : str.
Hypothesis t_not_empty : t <> [].
Hypothesis t_plain : forallb plain t = true.

Local Abbreviation hre := (highlight_re t).
Local Abbreviation tmpl := highlight_template.

(** In a run without double quote, groups 2 to 5 take the run apart around
    the last place where the text stands. *)
Lemma tail_match_last (a o b after : str) (p : nat) (caps : list (nat * str)) :
  no_angle (a ++ o ++ b) = true -> has_quote (a ++ o ++ b) = false ->
  length o = length t ->
  In (length a) (occurrences t (a ++ o ++ b)) ->
  (forall n, In n (occurrences t (a ++ o ++ b)) -> n <= length a) ->
  run_end after ->
  tail_match t (mkM p ((a ++ o ++ b) ++ after) caps) =
  Some (mkM (p + length (a ++ o ++ b) + length (firstn 1 after)) (skipn 1 after)
            ((5, firstn 1 after) :: (4, b) :: (3, o) :: (2, a) :: caps)).
Proof.
  intros Ha Hq Lo Hin Hmax He. set (r := a ++ o ++ b) in *.
  rewrite tail_match_run; [|assumption | now apply no_angle_plain | now apply run_end_stop].
  assert (Lr : length r = length a + length t + length b).
  { unfold r. rewrite !length_app. lia. }
  apply occurrences_in in Hin as [_ Hp].
  rewrite first_down_at with (i := length a)
    (z := mkM (p + length r + length (firstn 1 after)) (skipn 1 after)
              ((5, firstn 1 after) :: (4, b) :: (3, o) :: (2, a) :: caps)).
  - reflexivity.
  - lia.
  - rewrite Hp.
    assert (E2 : firstn (length a) r = a).
    { unfold r. rewrite firstn_app, Nat.sub_diag, firstn_all. simpl. apply app_nil_r. }
    assert (E3 : skipn (length a) r = o ++ b).
    { unfold r. rewrite skipn_app, Nat.sub_diag, skipn_all. reflexivity. }
    assert (E3' : firstn (length t) (skipn (length a) r) = o).
    { rewrite E3, <- Lo, firstn_app, Nat.sub_diag, firstn_all. simpl. apply app_nil_r. }
    assert (E4 : skipn (length a + length t) r = b).
    { rewrite Nat.add_comm, <- skipn_skipn, E3, <- Lo.
      rewrite skipn_app, Nat.sub_diag, skipn_all. reflexivity. }
    rewrite E2, E3', E4. unfold end_check. cbn [m_rest m_pos m_caps].
    destruct He as [-> | [tl ->]]; simpl.
    + do 2 f_equal. lia.
    + do 2 f_equal. lia.
  - intros j H1 H2. destruct (ci_prefix t (skipn j r)) eqn:E; [|reflexivity].
    assert (I : In j (occurrences t r)) by (apply occurrences_in; now split).
    apply Hmax in I. lia.
Qed.

Lemma run_result_no_angle (r r' : str) : run_result t r r' -> no_angle r = true.
Proof. now destruct 1. Qed.

(** From a place where an attempt may begin, a run and the bracket after it
    come out as [run_result] says, and the replacement goes on after them. *)
Lemma replace_run_result (g1 r r' after before : str) (pos : nat) :
  start_ok g1 pos -> run_result t r r' -> run_end after ->
  replace_loop hre tmpl 0 before pos (g1 ++ r ++ after) =
  g1 ++ r' ++ firstn 1 after
  ++ after_run t (before ++ g1 ++ r ++ firstn 1 after)
               (pos + length (g1 ++ r ++ firstn 1 after)) after.
Proof.
  intros Hs Hm He.
  destruct Hm as [r Ha Hq | r Ha Ho | a o b Ha Hq Lo Hin Hmax].
  - apply (replace_run t t_not_empty t_plain); [exact Hs | now apply run_quoted | exact He].
  - apply (replace_run t t_not_empty t_plain); [exact Hs | now apply run_absent | exact He].
  - pose proof (match_at_start t g1 ((a ++ o ++ b) ++ after) pos Hs
                  (run_head_not_gt (a ++ o ++ b) after Ha He)) as M.
    rewrite (tail_match_last a o b after _ _ Ha Hq Lo Hin Hmax He) in M.
    set (r := a ++ o ++ b) in *.
    assert (Split : g1 ++ r ++ after = (g1 ++ r ++ firstn 1 after) ++ skipn 1 after).
    { now rewrite <- !app_assoc, firstn_skipn. }
    assert (Tail : forall b0 p, 0 < p ->
              replace_loop hre tmpl 0 b0 p (skipn 1 after) = after_run t b0 p after).
    { intros b0 p Hp. destruct after as [|c tl];
        [now apply replace_loop_nil | reflexivity]. }
    assert (Lr : 1 <= length r).
    { unfold r. rewrite !length_app, Lo. destruct t; [congruence | simpl; lia]. }
    destruct (g1 ++ r ++ after) as [|c0 rest'] eqn:E.
    { apply (f_equal (@length ascii)) in E. rewrite !length_app in E. simpl in E. lia. }
    cbn [replace_loop]. rewrite M. cbv zeta. cbn [m_pos m_caps re_ngroups highlight_re].
    rewrite expand_highlight.
    set (len := pos + length g1 + length r + length (firstn 1 after) - pos).
    assert (Hlen : len = length (g1 ++ r ++ firstn 1 after)).
    { unfold len. rewrite !length_app. lia. }
    destruct (len =? 0) eqn:E0.
    { apply Nat.eqb_eq in E0. rewrite Hlen, !length_app in E0. lia. }
    assert (E' : c0 :: rest' = (g1 ++ r ++ firstn 1 after) ++ skipn 1 after).
    { now rewrite <- E, <- Split. }
    destruct (g1 ++ r ++ firstn 1 after) as [|c1 w'] eqn:Ew.
    { simpl in Hlen. apply Nat.eqb_neq in E0. lia. }
    cbn [app] in E'. injection E' as -> ->.
    replace (len - 1) with (length w') by (rewrite Hlen; simpl; lia).
    rewrite replace_loop_skip, Tail by lia.
    assert (Eb : (before ++ [c1]) ++ w' = before ++ c1 :: w') by now rewrite <- app_assoc.
    rewrite Eb. replace (S pos + length w') with (pos + length (c1 :: w')) by (simpl; lia).
    now rewrite <- !app_assoc.
Qed.

(** The replacement over HTML made of runs and tags. *)
Lemma replace_runs_result (segs segs' : list (str * str)) :
  Forall2 (seg_result t) segs segs' ->
  forall r0 r0' g1 pos before,
  start_ok g1 pos -> run_result t r0 r0' ->
  replace_loop hre tmpl 0 before pos (g1 ++ render r0 segs) = g1 ++ render r0' segs'.
Proof.
  induction 1 as [|[tag r] [tag' r'] segs segs' Hseg HF IH];
    intros r0 r0' g1 pos before Hs Hm.
  - simpl render. rewrite <- (app_nil_r r0) at 1.
    rewrite (replace_run_result g1 r0 r0' [] before pos Hs Hm (or_introl eq_refl)).
    simpl. now rewrite app_nil_r.
  - inversion Hseg as [tg rr rr' Htag Hrun]; subst.
    cbn [render].
    rewrite (replace_run_result g1 r0 r0'
               ([lt_char] ++ tag' ++ [gt_char] ++ render r segs) before pos Hs Hm).
    2:{ right. now eexists. }
    cbn [firstn app after_run].
    rewrite (copy_inside t).
    + rewrite (IH r r' [gt_char]); [| right; split; [reflexivity |] | exact Hrun].
      * reflexivity.
      * rewrite !length_app. simpl. lia.
    + exact Htag.
    + rewrite !length_app. simpl. lia.
Qed.

(** Every run has a result. *)
Lemma last_of_max (l : list nat) (n : nat) : In n l -> n <= last_of l.
Proof.
  induction l as [|m l IH]; [intros [] |]. intros [-> | H]; simpl; [lia |].
  specialize (IH H). lia.
Qed.

Lemma last_of_in (l : list nat) : l <> [] -> In (last_of l) l.
Proof.
  induction l as [|m l IH]; [congruence |]. intros _.
  change (last_of (m :: l)) with (Nat.max m (last_of l)).
  destruct l as [|m' l'].
  - left. change (last_of []) with 0. lia.
  - destruct (Nat.max_spec m (last_of (m' :: l'))) as [[_ E] | [_ E]]; rewrite E.
    + right. apply IH. discriminate.
    + now left.
Qed.

Lemma run_result_total (r : str) :
  no_angle r = true -> exists r', run_result t r r'.
Proof.
  intros Ha. destruct (has_quote r) eqn:Hq; [exists r; now apply rr_quoted |].
  destruct (occurrences t r) as [|n0 l] eqn:Ho; [exists r; now apply rr_absent |].
  set (n := last_of (occurrences t r)).
  assert (Hin : In n (occurrences t r)).
  { apply last_of_in. rewrite Ho. discriminate. }
  pose proof Hin as Hocc. apply occurrences_in in Hocc as [Hn Hp].
  apply ci_prefix_length in Hp as Hlen. rewrite length_skipn in Hlen.
  set (a := firstn n r). set (o := firstn (length t) (skipn n r)).
  set (b := skipn (length t) (skipn n r)).
  assert (Er : r = a ++ o ++ b).
  { unfold a, o, b. now rewrite !firstn_skipn. }
  assert (La : length a = n) by (unfold a; rewrite length_firstn; lia).
  assert (Lo : length o = length t).
  { unfold o. rewrite length_firstn, length_skipn. lia. }
  exists (a ++ txt "<mark>" ++ o ++ txt "</mark>" ++ b).
  rewrite Er at 1. apply rr_last.
  - now rewrite <- Er.
  - now rewrite <- Er.
  - exact Lo.
  - now rewrite <- Er, La.
  - intros m Hm. rewrite <- Er in Hm. rewrite La. now apply last_of_max.
Qed.

End LastOccurrence.

(** What the highlighter does to a run, as far as the run has a double
    quote, does not have the text, or has it exactly once. *)
Definition run_wrapped (t r r' : str) : Prop :=
  (has_quote r = true -> r' = r) /\
  (occurrences t r = [] -> r' = r) /\
  (has_quote r = false ->
   forall a o b, r = a ++ o ++ b -> length o = length t ->
                 occurrences t r = [length a] ->
                 r' = a ++ txt "<mark>" ++ o ++ txt "</mark>" ++ b).

Lemma app_same_length (a a' x x' : str) :
  a ++ x = a' ++ x' -> length a = length a' -> a = a' /\ x = x'.
Proof.
  revert a'. induction a as [|c a IH]; intros [|c' a'] E L; try discriminate.
  - now split.
  - cbn [app] in E. injection E as -> E. cbn [length] in L.
    destruct (IH a' E) as [-> ->]; [lia | now split].
Qed.

Lemma run_result_wrapped (t r r' : str) : run_result t r r' -> run_wrapped t r r'.
Proof.
  intros [r1 Ha Hq | r1 Ha Ho | a0 o0 b0 Ha Hq Lo Hin Hmax].
  - split; [reflexivity |]. split; [reflexivity |]. congruence.
  - split; [reflexivity |]. split; [reflexivity |].
    intros _ a o b _ _ Ho'. rewrite Ho in Ho'. discriminate.
  - split; [congruence |]. split.
    + intros Ho. rewrite Ho in Hin. destruct Hin.
    + intros _ a o b E Lo' Ho. rewrite Ho in Hin. destruct Hin as [La | []].
      destruct (app_same_length a0 a (o0 ++ b0) (o ++ b) E (eq_sym La)) as [-> E'].
      destruct (app_same_length o0 o b0 b E') as [-> ->]; [congruence | reflexivity].
Qed.

(** C5 (as amended).  Take a query text [t] that is not empty and has no
    special pattern character, no double quote and no angle bracket, and any
    HTML that, once cleared of mark tags, is made of text runs and tags (runs
    without angle bracket, tags without closing angle bracket inside).  The
    highlighter writes HTML made of the same tags and of runs such that: a
    run without double quote that has [t] exactly once has the place where
    [t] stands wrapped; a run that does not have [t], and a run that has a
    double quote, are as they were.  (Of a run without double quote that has
    [t] more than once this says nothing.) *)
Theorem highlight_marks_runs (t h r0 : str) (segs : list (str * str)) :
  t <> [] -> literal t = true -> forallb plain t = true ->
  highlightHtml h [] = Compiled (render r0 segs) ->
  no_angle r0 = true ->
  Forall (fun sg => forallb (fun c => negb (Ascii.eqb c gt_char)) (fst sg) = true
                    /\ no_angle (snd sg) = true) segs ->
  exists r0' segs',
    highlightHtml h t = Compiled (render r0' segs') /\
    run_wrapped t r0 r0' /\
    Forall2 (fun sg sg' => fst sg' = fst sg /\ run_wrapped t (snd sg) (snd sg'))
            segs segs'.
Proof.
  intros Ht Hl Hp Hh H0 Hs. destruct (run_result_total t r0 H0) as (r0' & R0).
  assert (Hex : exists segs', Forall2 (seg_result t) segs segs').
  { clear Hh. induction Hs as [|[tag r] segs [Htag Hr] Hs IH].
    - exists []. constructor.
    - destruct IH as (segs' & F).
      destruct (run_result_total t r Hr) as (r' & R).
      exists ((tag, r') :: segs'). constructor; [now constructor | exact F]. }
  destruct Hex as (segs' & F). exists r0', segs'. split; [|split].
  - rewrite (highlightHtml_literal h [] eq_refl) in Hh. injection Hh as Hh.
    rewrite (highlightHtml_literal h t Hl), Hh.
    destruct t as [|c t']; [congruence |]. f_equal.
    unfold replace. cbn [re_global highlight_re].
    apply (replace_runs_result (c :: t') Ht Hp segs segs' F r0 r0' [] 0 []);
      [left; now split | exact R0].
  - now apply run_result_wrapped.
  - clear - F. induction F as [|sg sg' segs segs' H F IH]; constructor; [|exact IH].
    destruct H as [tag r r' _ R]. split; [reflexivity | now apply run_result_wrapped].
Qed.

(** X10.  Take a query text [t] that is not empty and has no special pattern
    character, no double quote and no angle bracket, and HTML that, once
    cleared of mark tags, is made of text runs and tags.  In each run without
    double quote that has [t], the highlighter wraps the last place where [t]
    stands, and that one only; it leaves alone the runs that do not have [t]
    and the runs that have a double quote. *)
Theorem highlight_marks_last_occurrence
    (t h r0 r0' : str) (segs segs' : list (str * str)) :
  t <> [] -> literal t = true -> forallb plain t = true ->
  highlightHtml h [] = Compiled (render r0 segs) ->
  run_result t r0 r0' -> Forall2 (seg_result t) segs segs' ->
  highlightHtml h t = Compiled (render r0' segs').
Proof.
  intros Ht Hl Hp Hs Hr0 Hsegs.
  rewrite (highlightHtml_literal h [] eq_refl) in Hs. injection Hs as Hs.
  rewrite (highlightHtml_literal h t Hl), Hs.
  destruct t as [|c t']; [congruence |]. f_equal.
  unfold replace. cbn [re_global highlight_re].
  apply (replace_runs_result (c :: t') Ht Hp segs segs' Hsegs r0 r0' [] 0 []);
    [left; now split | exact Hr0].
Qed.

(** X11.  The description of X10 leaves no HTML of that shape out: when
    the runs have no angle bracket and the tags no closing one inside, every
    run has a result, and the highlighter writes the HTML made of them. *)
Theorem highlight_result_exists (t h r0 : str) (segs : list (str * str)) :
  t <> [] -> literal t = true -> forallb plain t = true ->
  highlightHtml h [] = Compiled (render r0 segs) ->
  no_angle r0 = true ->
  Forall (fun sg => forallb (fun c => negb (Ascii.eqb c gt_char)) (fst sg) = true
                    /\ no_angle (snd sg) = true) segs ->
  exists r0' segs',
    run_result t r0 r0' /\ Forall2 (seg_result t) segs segs' /\
    highlightHtml h t = Compiled (render r0' segs').
Proof.
  intros Ht Hl Hp Hh H0 Hs. destruct (run_result_total t r0 H0) as (r0' & R0).
  assert (Hex : exists segs', Forall2 (seg_result t) segs segs').
  { clear Hh. induction Hs as [|[tag r] segs [Htag Hr] Hs IH].
    - exists []. constructor.
    - destruct IH as (segs' & F).
      destruct (run_result_total t r Hr) as (r' & R).
      exists ((tag, r') :: segs'). constructor; [now constructor | exact F]. }
  destruct Hex as (segs' & F). exists r0', segs'. split; [exact R0 |]. split; [exact F |].
  rewrite (highlightHtml_literal h [] eq_refl) in Hh. injection Hh as Hh.
  rewrite (highlightHtml_literal h t Hl), Hh.
  destruct t as [|c t']; [congruence |]. f_equal.
  unfold replace. cbn [re_global highlight_re].
  apply (replace_runs_result (c :: t') Ht Hp segs segs' F r0 r0' [] 0 []);
    [left; now split | exact R0].
Qed.

(* ================================================================== *)
(** ** The default callbacks at work *)

(** *** A query with a parenthesis stops the search *)

Section DefaultHighlighter.

Context {D N : Type} {jq : Dom D N}.
Variable self : N.
Variable options : Options (D := D) (N := N).

Local Abbreviation State := (State (D := D) (N := N)).
Local Abbreviation cfg := (configure options).

(** The options leave [onMatchCell] at its default, [highlightText]. *)
Hypothesis default_onMatchCell : o_onMatchCell options = None.

Lemma onMatchCell_default :
  onMatchCell cfg = Function (fun cell query d => highlightText cell query d).
Proof. unfold configure. cbn [onMatchCell]. now rewrite default_onMatchCell. Qed.

Lemma selecting_done (s s2 : State) :
  selecting self cfg s = Done s2 ->
  exists s1, reset self cfg s = Done s1 /\
             if_function self OnStart (onStart cfg) s1 = Done s2.
Proof.
  unfold selecting. destruct (reset self cfg s) as [s1|] eqn:E; [|discriminate].
  intros H. now exists s1.
Qed.

(** X12.  Under the default [onMatchCell], a query with one parenthesis
    among characters that are not special stops the search at the first cell
    of the first matching row that has cells: [searchFor] throws the
    [SyntaxError] of [highlightText].  The cell has been recorded, the
    document is as the rows before it left it, and the call of [onMatchCell]
    on that cell is the last call made. *)
Theorem searchFor_stops_on_paren
    (Q t1 t2 : str) (p : ascii) (s s2 sr : State) (r c : N) (cs : list N) :
  let q := toLowerCase (trim Q) in
  q = t1 ++ p :: t2 ->
  literal t1 = true -> literal t2 = true ->
  p = open_paren \/ p = close_paren ->
  selecting self cfg s = Done s2 ->
  visited cfg q (find (dom s2) self (rowSelector cfg)) s2 r sr ->
  row_test cfg q sr r = true ->
  row_cells cfg sr r = c :: cs ->
  searchFor self cfg Q s =
  Thrown RegexSyntaxError
    (mkState (dom sr) (matchRows sr) (noMatchRows sr) (matchCells sr ++ [c])
             (calls sr ++ [cell_call q c])).
Proof.
  intros q Hq H1 H2 Hp Hsel (pre & post & Hrows & Hpre) Htest Hcells.
  destruct (selecting_done s s2 Hsel) as (s1 & E1 & E2).
  unfold searchFor. rewrite E1. cbn [bind]. fold q.
  destruct q as [|c0 q'] eqn:Eq; [now destruct t1 |].
  rewrite E2. cbn [bind]. rewrite Hrows, each_row_app, Hpre. cbn [bind each_row].
  assert (Hstep : row_step cfg (c0 :: q') r sr =
            Thrown RegexSyntaxError
              (mkState (dom sr) (matchRows sr) (noMatchRows sr) (matchCells sr ++ [c])
                       (calls sr ++ [cell_call (c0 :: q') c]))).
  { unfold row_step. unfold row_test, row_text, row_cells in Htest, Hcells.
    rewrite Hcells in *. rewrite Htest. rewrite onMatchCell_default.
    cbn [each_cell]. unfold invoke, push, put, get. cbn [dom matchRows noMatchRows matchCells calls].
    unfold highlightText. rewrite Hq, (highlightHtml_paren _ t1 t2 p H1 H2 Hp).
    reflexivity. }
  now rewrite Hstep.
Qed.

End DefaultHighlighter.

(** *** Searching and resetting a document that keeps its cells apart *)

Lemma literal_lower_char (c : ascii) : literal_char c = true -> literal_char (lower_char c) = true.
Proof.
  assert (G : forall d, implb (literal_char d) (literal_char (lower_char d)) = true)
    by (apply all_ascii; vm_compute; reflexivity).
  intros H. specialize (G c). now rewrite H in G.
Qed.

Lemma forallb_trim_left (P : ascii -> bool) (x : str) :
  forallb P x = true -> forallb P (trim_left x) = true.
Proof.
  induction x as [|c x IH]; [reflexivity |]. intros H. cbn [trim_left].
  destruct (is_space c); [|exact H].
  apply IH. cbn [forallb] in H. now apply andb_true_iff in H as [_ H].
Qed.

Lemma forallb_rev (P : ascii -> bool) (x : str) :
  forallb P x = true -> forallb P (rev x) = true.
Proof.
  rewrite !forallb_forall. intros H c Hc. apply H. now apply in_rev.
Qed.

(** A query without special pattern characters is one after [$.trim] and
    [toLowerCase]. *)
Lemma literal_normalized (Q : str) : literal Q = true -> literal (toLowerCase (trim Q)) = true.
Proof.
  unfold literal, trim, toLowerCase. intros H.
  assert (T : forallb literal_char (rev (trim_left (rev (trim_left Q)))) = true).
  { now apply forallb_rev, forallb_trim_left, forallb_rev, forallb_trim_left. }
  revert T. generalize (rev (trim_left (rev (trim_left Q)))) as x.
  induction x as [|c x IH]; [reflexivity |]. cbn [forallb map]. intros T.
  apply andb_true_iff in T as [Hc T]. now rewrite (literal_lower_char c Hc), IH.
Qed.

(** The requests whose query has no special pattern character. *)
Definition literal_request (r : request) : Prop :=
  match r with
  | CallSearchFor Q => literal Q = true
  | CallReset => True
  end.

Section LawfulDocument.

Context {D N : Type} {jq : Dom D N}.
Variable self : N.

Local Abbreviation State := (State (D := D) (N := N)).
Local Abbreviation default := (configure (D := D) (N := N) no_options).

(** The documents considered, their rows and their searchable cells. *)
Variable wf : D -> Prop.
Variable row : N -> Prop.
Variable cell : N -> Prop.

Hypothesis same_or_not : forall x y : N, x = y \/ x <> y.

(** What the row selector finds in the table is a row, and what the column
    selector finds in a row is a searchable cell. *)
Hypothesis found_rows :
  forall d r, wf d -> In r (find d self (rowSelector default)) -> row r.
Hypothesis found_cells :
  forall d r c, wf d -> row r -> In c (find d r (columnSelector default)) -> cell c.

(** The document the searcher is made on. *)
Variable d0 : D.

(** A cell gives back unchanged each HTML the highlighter computes from the
    HTML the cell has in [d0], once it is written to it.  [html(newHtml)]
    changes the HTML of no other cell; the class calls change no cell's
    HTML. *)
Hypothesis reads_back :
  forall d c t w, wf d -> cell c -> literal t = true ->
                  highlightHtml (html d0 c) t = Compiled w ->
                  wf (set_html c w d) /\ html (set_html c w d) c = w.
Hypothesis wf_addClass : forall d n k, wf d -> wf (addClass n k d).
Hypothesis wf_removeClass : forall d n k, wf d -> wf (removeClass n k d).
Hypothesis html_set_other :
  forall d c c' h, wf d -> cell c -> cell c' -> c' <> c ->
                   html (set_html c h d) c' = html d c'.
Hypothesis html_addClass :
  forall d n k c, wf d -> cell c -> html (addClass n k d) c = html d c.
Hypothesis html_removeClass :
  forall d n k c, wf d -> cell c -> html (removeClass n k d) c = html d c.

(** In [d0] no cell has a mark tag. *)
Hypothesis wf_d0 : wf d0.
Hypothesis clean_d0 : forall c, cell c -> no_mark_tags (html d0 c) = true.

(** What holds between calls: every cell has its first HTML with marks put
    in, and a cell that is not recorded has its first HTML. *)
Definition inv_at (d : D) (mc : list N) : Prop :=
  wf d /\ Forall cell mc /\
  (forall c, cell c -> marked_up (html d0 c) (html d c)) /\
  (forall c, cell c -> ~ In c mc -> html d c = html d0 c).

Definition inv (s : State) : Prop := inv_at (dom s) (matchCells s).

(** The call returns, in a state where [P] holds. *)
Definition ok (o : outcome State) (P : State -> Prop) : Prop :=
  exists s', o = Done s' /\ P s'.

Lemma ok_bind (o : outcome State) (k : State -> outcome State) (P R : State -> Prop) :
  ok o P -> (forall s1, P s1 -> ok (k s1) R) -> ok (o >>= k) R.
Proof. intros (s1 & -> & H) K. exact (K s1 H). Qed.

(** A callback that changes no cell's HTML. *)
Definition keeps_html (f : handler (D := D) (N := N)) : Prop :=
  forall x d, wf d ->
  exists d', f x d = Done d' /\ wf d' /\ forall c, cell c -> html d' c = html d c.

Lemma inv_at_same_html (d d' : D) (mc : list N) :
  inv_at d mc -> wf d' -> (forall c, cell c -> html d' c = html d c) -> inv_at d' mc.
Proof.
  intros (W & F & A & B) W' E. split; [exact W' |]. split; [exact F |]. split.
  - intros c Hc. rewrite (E c Hc). now apply A.
  - intros c Hc Hn. rewrite (E c Hc). now apply B.
Qed.

Lemma invoke_keeps_html h (f : handler) x arg (s : State) :
  keeps_html f -> inv s -> ok (invoke h f x arg s) inv.
Proof.
  intros K I. pose proof I as (W & _). destruct (K x (dom s) W) as (d' & E & W' & H).
  unfold invoke. cbn [dom matchRows noMatchRows matchCells calls]. rewrite E.
  eexists. split; [reflexivity |]. unfold inv. cbn [dom matchCells].
  now apply inv_at_same_html with (d := dom s).
Qed.

Lemma inv_put (a : tracked) (l : list N) (s : State) :
  a <> MatchCells -> inv s -> inv (put a l s).
Proof. intros Ha I. destruct a; [congruence | exact I | exact I]. Qed.

Lemma drain_keeps_html fuel h (f : handler) a (s : State) :
  keeps_html f -> a <> MatchCells -> inv s -> ok (drain fuel h f a s) inv.
Proof.
  intros K Ha. revert s. induction fuel as [|fuel IH]; intros s I.
  - now exists s.
  - cbn [drain]. destruct (pop (get a s)) as [[x l]|]; [|now exists s].
    apply ok_bind with (P := inv); [|exact IH].
    apply invoke_keeps_html; [exact K | now apply inv_put].
Qed.

Lemma doReset_keeps_html h (v : jsval handler) a (s : State) :
  match v with Function f => keeps_html f | NotFunction => True end ->
  a <> MatchCells -> inv s -> ok (doReset h v a s) inv.
Proof.
  intros K Ha I. rewrite doReset_eq. destruct v as [|f]; [now exists s |].
  now apply drain_keeps_html.
Qed.

Lemma if_function_keeps_html h (v : jsval handler) (s : State) :
  match v with Function f => keeps_html f | NotFunction => True end ->
  inv s -> ok (if_function self h v s) inv.
Proof.
  intros K I. destruct v as [|f]; [now exists s |]. now apply invoke_keeps_html.
Qed.

Lemma addClass_keeps_html (k : str) :
  keeps_html (fun n d => Done (addClass n k d)).
Proof.
  intros x d W. eexists. split; [reflexivity |].
  split; [now apply wf_addClass | intros c Hc; now apply html_addClass].
Qed.

Lemma removeClass_keeps_html (k : str) :
  keeps_html (fun n d => Done (removeClass n k d)).
Proof.
  intros x d W. eexists. split; [reflexivity |].
  split; [now apply wf_removeClass | intros c Hc; now apply html_removeClass].
Qed.

(** The default [resetCell] on the cell popped last. *)
Lemma resetCell_step (x : N) (l : list N) (s : State) :
  inv s -> matchCells s = l ++ [x] ->
  ok (invoke ResetCell (fun c d => highlightText c [] d) x None (put MatchCells l s)) inv.
Proof.
  intros (W & F & A & B) E. rewrite E in F, B.
  apply Forall_app in F as [Fl Fx]. inversion Fx as [|? ? Cx _]; subst.
  unfold invoke, put. cbn [dom matchRows noMatchRows matchCells calls].
  pose proof (highlightHtml_clean_reset (html d0 x) (clean_d0 x Cx)) as R0.
  pose proof R0 as R1.
  rewrite <- (highlightHtml_as_clean (html d0 x) (html (dom s) x) []
                (clean_d0 x Cx) (A x Cx) eq_refl) in R1.
  unfold highlightText. rewrite R1.
  destruct (reads_back (dom s) x [] (html d0 x) W Cx eq_refl R0) as [W' Rb].
  eexists. split; [reflexivity |]. unfold inv. cbn [dom matchCells].
  split; [exact W' |]. split; [exact Fl |]. split.
  - intros c Hc. destruct (same_or_not c x) as [-> | Hne].
    + rewrite Rb. apply marked_up_refl.
    + rewrite html_set_other by assumption. now apply A.
  - intros c Hc Hn. destruct (same_or_not c x) as [-> | Hne].
    + exact Rb.
    + rewrite html_set_other by assumption. apply B; [exact Hc |].
      intros Hin. apply in_app_or in Hin as [Hin | [Hin | []]]; [now apply Hn | congruence].
Qed.

Lemma drain_resetCell fuel (s : State) :
  inv s -> ok (drain fuel ResetCell (fun c d => highlightText c [] d) MatchCells s) inv.
Proof.
  revert s. induction fuel as [|fuel IH]; intros s I.
  - now exists s.
  - cbn [drain get]. destruct (pop (matchCells s)) as [[x l]|] eqn:P; [|now exists s].
    apply pop_some in P.
    apply ok_bind with (P := inv); [|exact IH]. now apply resetCell_step.
Qed.

(** The default [onMatchCell] on a cell found. *)
Lemma onMatchCell_step (q : str) (c : N) (s : State) :
  literal q = true -> cell c -> inv s ->
  ok (invoke OnMatchCell (fun c' => (fun cell query d => highlightText cell query d) c' q)
        c (Some q) (push MatchCells c s)) inv.
Proof.
  intros Hl Cc (W & F & A & B).
  destruct (highlightHtml_marked_up (html d0 c) (html (dom s) c) q
              (clean_d0 c Cc) (A c Cc) Hl) as (h' & E & M).
  pose proof E as E0.
  rewrite (highlightHtml_as_clean (html d0 c) (html (dom s) c) q
             (clean_d0 c Cc) (A c Cc) Hl) in E0.
  destruct (reads_back (dom s) c q h' W Cc Hl E0) as [W' Rb].
  unfold invoke, push, put, get. cbn [dom matchRows noMatchRows matchCells calls].
  unfold highlightText. rewrite E.
  eexists. split; [reflexivity |]. unfold inv. cbn [dom matchCells].
  split; [exact W' |]. split.
  { apply Forall_app. split; [exact F | now constructor]. }
  split.
  - intros c' Hc'. destruct (same_or_not c' c) as [-> | Hne].
    + now rewrite Rb.
    + rewrite html_set_other by assumption. now apply A.
  - intros c' Hc' Hn. destruct (same_or_not c' c) as [-> | Hne].
    + exfalso. apply Hn, in_or_app. right. now left.
    + rewrite html_set_other by assumption. apply B; [exact Hc' |].
      intros Hin. apply Hn, in_or_app. now left.
Qed.

Lemma each_cell_default (q : str) (cells : list N) (s : State) :
  literal q = true -> Forall cell cells -> inv s ->
  ok (each_cell (fun cell query d => highlightText cell query d) q cells s) inv.
Proof.
  intros Hl Fc. revert s. induction Fc as [|c cells Cc Fc IH]; intros s I.
  - now exists s.
  - cbn [each_cell]. apply ok_bind with (P := inv); [|exact IH].
    now apply onMatchCell_step.
Qed.

Lemma row_step_default (q : str) (r : N) (s : State) :
  literal q = true -> row r -> inv s -> ok (row_step default q r s) inv.
Proof.
  intros Hl Hr I. unfold row_step.
  destruct (indexOf _ q >? -1)%Z; [|now exists s].
  apply ok_bind with (P := inv).
  - apply each_cell_default; [exact Hl | | exact I].
    apply Forall_forall. intros c Hc. destruct I as (W & _).
    exact (found_cells (dom s) r c W Hr Hc).
  - intros s1 I1. apply invoke_keeps_html; [apply addClass_keeps_html |].
    now apply inv_put.
Qed.

Lemma each_row_default (q : str) (rows : list N) (s : State) :
  literal q = true -> Forall row rows -> inv s -> ok (each_row default q rows s) inv.
Proof.
  intros Hl Fr. revert s. induction Fr as [|r rows Hr Fr IH]; intros s I.
  - now exists s.
  - cbn [each_row]. apply ok_bind with (P := inv); [|exact IH].
    now apply row_step_default.
Qed.

Lemma reset_default (s : State) :
  inv s -> ok (reset self default s) (fun s' => inv s' /\ matchCells s' = []).
Proof.
  intros I.
  assert (R : ok (reset self default s) inv).
  { unfold reset.
    apply ok_bind with (P := inv).
    { rewrite doReset_eq. now apply drain_resetCell. }
    intros s1 I1. apply ok_bind with (P := inv).
    { apply doReset_keeps_html; [apply removeClass_keeps_html | discriminate | exact I1]. }
    intros s2 I2. apply ok_bind with (P := inv).
    { apply doReset_keeps_html; [exact Logic.I | discriminate | exact I2]. }
    intros s3 I3. apply invoke_keeps_html; [apply removeClass_keeps_html | exact I3]. }
  destruct R as (s' & E & I'). exists s'. split; [exact E |]. split; [exact I' |].
  exact (reset_done_empty self default MatchCells s E eq_refl).
Qed.

Lemma searchFor_default (Q : str) (s : State) :
  literal Q = true -> inv s -> ok (searchFor self default Q s) inv.
Proof.
  intros Hl I. apply literal_normalized in Hl. unfold searchFor.
  apply ok_bind with (P := inv).
  { destruct (reset_default s I) as (s1 & E & I1 & _). now exists s1. }
  intros s1 I1. destruct (toLowerCase (trim Q)) as [|c q] eqn:Eq; [now exists s1 |].
  apply ok_bind with (P := inv).
  { apply if_function_keeps_html; [apply addClass_keeps_html | exact I1]. }
  intros s2 I2. apply ok_bind with (P := inv).
  { apply each_row_default; [exact Hl | | exact I2].
    apply Forall_forall. intros r Hr. destruct I2 as (W & _).
    exact (found_rows (dom s2) r W Hr). }
  intros s3 I3. apply if_function_keeps_html; [|exact I3].
  intros x d W. eexists. split; [reflexivity |]. split.
  - now apply wf_addClass, wf_removeClass.
  - intros c' Hc'. rewrite html_addClass by (try apply wf_removeClass; assumption).
    now apply html_removeClass.
Qed.

Lemma serve_default (r : request) (s : State) :
  literal_request r -> inv s -> ok (serve self default r s) inv.
Proof.
  intros Hr I. destruct r as [Q|]; cbn [serve].
  - now apply searchFor_default.
  - destruct (reset_default s I) as (s1 & E & I1 & _). now exists s1.
Qed.

Lemma session_default (rs : list request) :
  Forall literal_request rs -> inv (session self default rs d0).
Proof.
  induction rs as [|r rs IH] using rev_ind; intros F.
  - unfold session, inv, init. cbn [fold_left dom matchCells].
    split; [exact wf_d0 |]. split; [constructor |]. split.
    + intros c _. apply marked_up_refl.
    + reflexivity.
  - apply Forall_app in F as [F Fr]. inversion Fr as [|? ? Hr _]; subst.
    rewrite session_snoc.
    destruct (serve_default r (session self default rs d0) Hr (IH F)) as (s' & E & I').
    now rewrite E.
Qed.

(** X13.  Take the default configuration and a document whose searchable
    cells are elements apart from each other, with no mark tag, each of which
    gives back unchanged the HTML the highlighter computes from its first
    HTML (as an element does for plain text with mark elements; not for
    text in a [textarea], or with character references, which it writes
    anew).  After any calls of [searchFor] with queries without special
    pattern characters, and of [reset], in any order: the next such call
    returns; every cell has its first HTML, with mark tags put in and nothing
    else changed; and [reset()] returns and gives every cell its first HTML
    again. *)
Theorem default_search_reset_restores (rs : list request) :
  Forall literal_request rs ->
  let s := session self default rs d0 in
  (forall r, literal_request r -> returns (serve self default r s) = true) /\
  (forall c, cell c -> marked_up (html d0 c) (html (dom s) c)) /\
  exists s', reset self default s = Done s' /\
             forall c, cell c -> html (dom s') c = html d0 c.
Proof.
  intros F s. pose proof (session_default rs F) as I. fold s in I.
  split; [|split].
  - intros r Hr. destruct (serve_default r s Hr I) as (s' & E & _). now rewrite E.
  - now destruct I as (_ & _ & A & _).
  - destruct (reset_default s I) as (s' & E & (_ & _ & _ & B) & Z).
    exists s'. split; [exact E |]. intros c Hc. apply B; [exact Hc |].
    rewrite Z. intros [].
Qed.

End LawfulDocument.

(* ================================================================== *)
(** ** The further properties on the page of two rows *)

(** A page with one row, whose cell holds a formula. *)
Definition formulas : page := mkPage [(1, [(11, txt "f(x)")])] [].

(** The pages with the rows and the cells of [people]. *)
Definition like_people (d : page) : Prop :=
  map (fun r => (fst r, map fst (snd r))) (rows d) = [(1, [11; 12]); (2, [21; 22])].

Definition people_row (r : nat) : Prop := In r [1; 2].

Definition people_cell (c : nat) : Prop := In c [11; 12; 21; 22].

Lemma like_people_shape (d : page) :
  like_people d ->
  exists h11 h12 h21 h22 cl,
    d = mkPage [(1, [(11, h11); (12, h12)]); (2, [(21, h21); (22, h22)])] cl.
Proof.
  destruct d as [rs cl]. unfold like_people. cbn [rows]. intros H.
  destruct rs as [|[r1 c1] rs]; [discriminate |].
  destruct rs as [|[r2 c2] rs]; [discriminate |].
  destruct rs as [|? ?]; [|discriminate].
  cbn [map fst snd] in H. injection H as -> E1 -> E2.
  destruct c1 as [|[a1 h1] c1]; [discriminate |].
  destruct c1 as [|[a2 h2] c1]; [discriminate |].
  destruct c1 as [|? ?]; [|discriminate].
  destruct c2 as [|[a3 h3] c2]; [discriminate |].
  destruct c2 as [|[a4 h4] c2]; [discriminate |].
  destruct c2 as [|? ?]; [|discriminate].
  cbn [map fst] in E1, E2. injection E1 as -> ->. injection E2 as -> ->.
  now exists h1, h2, h3, h4, cl.
Qed.

Ltac people_shape H :=
  let h11 := fresh "h11" in let h12 := fresh "h12" in
  let h21 := fresh "h21" in let h22 := fresh "h22" in let cl := fresh "cl" in
  destruct (like_people_shape _ H) as (h11 & h12 & h21 & h22 & cl & ->).

Ltac people_cases H :=
  unfold people_cell, people_row in H; cbn [In] in H;
  repeat (destruct H as [<- | H]); [.. | destruct H].

Lemma people_found_rows (d : page) (r : nat) :
  like_people d -> In r (find d table (rowSelector default_config)) -> people_row r.
Proof. intros W H. people_shape W. exact H. Qed.

Lemma people_found_cells (d : page) (r c : nat) :
  like_people d -> people_row r ->
  In c (find d r (columnSelector default_config)) -> people_cell c.
Proof.
  intros W Hr H. people_shape W. people_cases Hr.
  - cbn in H. unfold people_cell. cbn [In]. tauto.
  - cbn in H. unfold people_cell. cbn [In]. tauto.
Qed.

Lemma people_wf_set_html (d : page) (c : nat) (h : str) :
  like_people d -> people_cell c -> like_people (set_html c h d).
Proof. intros W Hc. people_shape W. people_cases Hc; reflexivity. Qed.

Lemma people_wf_addClass (d : page) (n : nat) (k : str) :
  like_people d -> like_people (addClass n k d).
Proof.
  intros W. cbn [addClass page_dom]. unfold page_addClass.
  now destruct (existsb (same_class n k) (classes d)).
Qed.

Lemma people_wf_removeClass (d : page) (n : nat) (k : str) :
  like_people d -> like_people (removeClass n k d).
Proof. intros W. exact W. Qed.

Lemma people_html_set_same (d : page) (c : nat) (h : str) :
  like_people d -> people_cell c -> html (set_html c h d) c = h.
Proof.
  intros W Hc. people_shape W. people_cases Hc; cbn; now rewrite ?app_nil_r.
Qed.

Lemma people_html_set_other (d : page) (c c' : nat) (h : str) :
  like_people d -> people_cell c -> people_cell c' -> c' <> c ->
  html (set_html c h d) c' = html d c'.
Proof.
  intros W Hc Hc' Hne. people_shape W.
  people_cases Hc; people_cases Hc'; try congruence; reflexivity.
Qed.

Lemma people_html_addClass (d : page) (n : nat) (k : str) (c : nat) :
  like_people d -> people_cell c -> html (addClass n k d) c = html d c.
Proof.
  intros _ _. cbn [addClass html page_dom]. unfold page_addClass.
  now destruct (existsb (same_class n k) (classes d)).
Qed.

Lemma people_html_removeClass (d : page) (n : nat) (k : str) (c : nat) :
  like_people d -> people_cell c -> html (removeClass n k d) c = html d c.
Proof. reflexivity. Qed.

Lemma people_clean (c : nat) : people_cell c -> no_mark_tags (html people c) = true.
Proof. intros Hc. people_cases Hc; reflexivity. Qed.

Lemma nat_same_or_not (x y : nat) : x = y \/ x <> y.
Proof. destruct (Nat.eq_dec x y); [now left | now right]. Qed.

Lemma reset_call_order_witness :
  reset table default_config after_search = Done after_reset /\
  map (fun c => (c_hook c, c_target c)) (calls after_reset)
  = map (fun c => (c_hook c, c_target c)) (calls after_search)
    ++ [(ResetCell, 22); (ResetCell, 21); (ResetMatchRow, 2); (ResetTable, 0)].
Proof.
  assert (H : reset table default_config after_search = Done after_reset)
    by (vm_compute; reflexivity).
  split; [exact H |].
  destruct (@reset_call_order page nat table default_config after_search after_reset H)
    as (C & _).
  rewrite C, map_app. reflexivity.
Defined.

Lemma searchFor_call_order_witness :
  toLowerCase (trim (txt "cat")) <> [] /\
  exists s' s2 e1,
    searchFor table default_config (txt "cat") (init people) = Done s' /\
    selecting table default_config (init people) = Done s2 /\
    calls s' = calls (init people) ++ reset_calls table default_config (init people)
               ++ once table OnStart (onStart default_config) ++ e1
               ++ once table OnCompleted (onCompleted default_config).
Proof.
  assert (Hq : toLowerCase (trim (txt "cat")) <> []) by (vm_compute; discriminate).
  split; [exact Hq |].
  assert (H : searchFor table default_config (txt "cat") (init people)
              = Done (state_of (searchFor table default_config (txt "cat") (init people))))
    by (vm_compute; reflexivity).
  destruct (@searchFor_call_order page nat page_dom table default_config
              (txt "cat") (init people) _ Hq H) as (s2 & e1 & A & B & _).
  eexists; exists s2, e1. split; [exact H |]. split; [exact A | exact B].
Defined.

Lemma searchFor_partitions_rows_witness :
  exists s' s2,
    searchFor table (configure notify_options) (txt "cat") (init people) = Done s' /\
    selecting table (configure notify_options) (init people) = Done s2 /\
    interleaved (matchRows s') (noMatchRows s')
                (find (dom s2) table (rowSelector (configure notify_options))).
Proof.
  assert (Hq : toLowerCase (trim (txt "cat")) <> []) by (vm_compute; discriminate).
  assert (H : searchFor table (configure notify_options) (txt "cat") (init people)
              = Done (state_of (searchFor table (configure notify_options) (txt "cat")
                                          (init people))))
    by (vm_compute; reflexivity).
  destruct (@searchFor_partitions_rows page nat page_dom table (configure notify_options)
              (txt "cat") (init people) _ Hq eq_refl eq_refl
              (or_introl eq_refl) (or_intror eq_refl) H) as (s2 & A & B & _).
  eexists; exists s2. split; [exact H |]. split; [exact A | exact B].
Defined.

Lemma row_test_narrows_witness :
  row_test default_config (txt "ca" ++ txt "t") (init people) 2 = true /\
  row_test default_config (txt "ca") (init people) 2 = true /\
  row_test default_config (txt "t") (init people) 2 = true.
Proof.
  assert (H : row_test default_config (txt "ca" ++ txt "t") (init people) 2 = true)
    by (vm_compute; reflexivity).
  split; [exact H |].
  exact (@row_test_narrows page nat page_dom default_config (txt "ca") (txt "t")
           (init people) 2 H).
Defined.

Lemma highlight_keeps_text_witness :
  literal (txt "the") = true /\
  exists h',
    highlightHtml (txt "<mark>C</mark>atherine") (txt "the") = Compiled h' /\
    marked_up (strip_marks (txt "<mark>C</mark>atherine")) h'.
Proof.
  split; [reflexivity |].
  exact (highlight_keeps_text (txt "<mark>C</mark>atherine") (txt "the") eq_refl).
Defined.

Lemma catherine_marked_up : marked_up (txt "Catherine") (txt "<mark>Cat</mark>herine").
Proof.
  apply (@mu_open (txt "Catherine") (txt "Cat</mark>herine")).
  do 3 apply mu_char.
  apply (@mu_close (txt "herine") (txt "herine")).
  apply marked_up_refl.
Qed.

Lemma highlight_ignores_old_marks_witness :
  no_mark_tags (txt "Catherine") = true /\
  marked_up (txt "Catherine") (txt "<mark>Cat</mark>herine") /\
  literal (txt "the") = true /\
  highlightHtml (txt "<mark>Cat</mark>herine") (txt "the")
  = highlightHtml (txt "Catherine") (txt "the").
Proof.
  split; [reflexivity |]. split; [exact catherine_marked_up |]. split; [reflexivity |].
  exact (highlight_ignores_old_marks (txt "Catherine") (txt "<mark>Cat</mark>herine")
           (txt "the") eq_refl catherine_marked_up eq_refl).
Defined.

Lemma highlight_unbalanced_paren_witness :
  literal (txt "f") = true /\ literal [] = true /\
  highlightHtml (txt "f(x)") (txt "f" ++ open_paren :: []) = SyntaxError.
Proof.
  split; [reflexivity |]. split; [reflexivity |].
  exact (highlight_unbalanced_paren (txt "f(x)") (txt "f") [] open_paren
           eq_refl eq_refl (or_introl eq_refl)).
Defined.

Lemma cat_cat_result :
  run_result (txt "cat") (txt "cat cat") (txt "cat <mark>cat</mark>").
Proof.
  apply (rr_last (txt "cat") (txt "cat ") (txt "cat") []).
  - reflexivity.
  - reflexivity.
  - reflexivity.
  - vm_compute. tauto.
  - intros n Hn. vm_compute in Hn. destruct Hn as [<- | [<- | []]]; simpl; lia.
Qed.

Lemma highlight_marks_last_occurrence_witness :
  txt "cat" <> [] /\ literal (txt "cat") = true /\ forallb plain (txt "cat") = true /\
  highlightHtml (txt "cat cat") (txt "cat") = Compiled (txt "cat <mark>cat</mark>").
Proof.
  split; [discriminate |]. split; [reflexivity |]. split; [reflexivity |].
  apply (highlight_marks_last_occurrence (txt "cat") (txt "cat cat")
           (txt "cat cat") (txt "cat <mark>cat</mark>") [] []).
  - discriminate.
  - reflexivity.
  - reflexivity.
  - vm_compute. reflexivity.
  - exact cat_cat_result.
  - apply Forall2_nil.
Defined.

Lemma highlight_result_exists_witness :
  exists r0' segs',
    run_result (txt "cat") (txt "Cat") r0' /\
    Forall2 (seg_result (txt "cat")) [(txt "b", txt "cat cat"); (txt "/b", [])] segs' /\
    highlightHtml (txt "Cat<b>cat cat</b>") (txt "cat") = Compiled (render r0' segs').
Proof.
  apply (highlight_result_exists (txt "cat") (txt "Cat<b>cat cat</b>") (txt "Cat")
           [(txt "b", txt "cat cat"); (txt "/b", [])]).
  - discriminate.
  - reflexivity.
  - reflexivity.
  - vm_compute. reflexivity.
  - reflexivity.
  - repeat (apply Forall_cons; [split; reflexivity |]). apply Forall_nil.
Defined.

Lemma searchFor_stops_on_paren_witness :
  toLowerCase (trim (txt "F(")) = txt "f" ++ open_paren :: [] /\
  o_onMatchCell (no_options (D := page) (N := nat)) = None /\
  searchFor table default_config (txt "F(") (init formulas) =
  Thrown RegexSyntaxError
    (mkState (mkPage (rows formulas) [(table, txt "tablesearch-searching")]) [] [] [11]
       [mkCall ResetTable table None; mkCall OnStart table None;
        cell_call (txt "f(") 11]).
Proof.
  split; [reflexivity |]. split; [reflexivity |].
  assert (Hsel : selecting table default_config (init formulas)
                 = Done (state_of (selecting table default_config (init formulas))))
    by (vm_compute; reflexivity).
  unfold default_config.
  rewrite (@searchFor_stops_on_paren page nat page_dom table no_options eq_refl
             (txt "F(") (txt "f") [] open_paren (init formulas) _ _ 1 11 []
             eq_refl eq_refl eq_refl (or_introl eq_refl) Hsel
             (ex_intro _ [] (ex_intro _ [] (conj eq_refl eq_refl))) eq_refl eq_refl).
  vm_compute. reflexivity.
Defined.

Lemma people_reads_back (d : page) (c : nat) (t w : str) :
  like_people d -> people_cell c -> literal t = true ->
  highlightHtml (html people c) t = Compiled w ->
  like_people (set_html c w d) /\ html (set_html c w d) c = w.
Proof.
  intros W Hc _ _. split; [now apply people_wf_set_html | now apply people_html_set_same].
Qed.

Lemma default_search_reset_restores_witness :
  Forall literal_request [CallSearchFor (txt "cat"); CallSearchFor (txt "Smith")] /\
  exists s',
    reset table default_config
      (session table default_config
         [CallSearchFor (txt "cat"); CallSearchFor (txt "Smith")] people) = Done s' /\
    forall c, people_cell c -> html (dom s') c = html people c.
Proof.
  assert (F : Forall literal_request
                [CallSearchFor (txt "cat"); CallSearchFor (txt "Smith")]).
  { repeat (apply Forall_cons; [reflexivity |]). apply Forall_nil. }
  split; [exact F |].
  exact (proj2 (proj2
    (@default_search_reset_restores page nat page_dom table
       like_people people_row people_cell nat_same_or_not
       people_found_rows people_found_cells
       people people_reads_back people_wf_addClass people_wf_removeClass
       people_html_set_other
       people_html_addClass people_html_removeClass
       eq_refl people_clean
       [CallSearchFor (txt "cat"); CallSearchFor (txt "Smith")] F))).
Defined.

(** The cell [Catherine] of the page of two rows gives back the HTML written
    to it: plain text with mark elements. *)
Lemma highlight_then_reset_restores_witness :
  html people 21 = txt "Catherine" /\
  no_mark_tags (txt "Catherine") = true /\
  forallb literal [txt "cat"; txt "the"; txt "i"] = true /\
  exists d1 d2,
    highlight_each 21 [txt "cat"; txt "the"; txt "i"] people = Done d1 /\
    highlightText 21 [] d1 = Done d2 /\
    html d2 21 = txt "Catherine".
Proof.
  split; [reflexivity |]. split; [reflexivity |]. split; [reflexivity |].
  apply (@highlight_then_reset_restores page nat page_dom like_people 21 (txt "Catherine")).
  - intros d t w W _ E. split.
    + apply people_wf_set_html; [exact W |]. unfold people_cell. cbn [In]. tauto.
    + apply people_html_set_same; [exact W |]. unfold people_cell. cbn [In]. tauto.
  - reflexivity.
  - reflexivity.
  - reflexivity.
  - reflexivity.
Defined.

(** HTML of three runs: the run [cat cat] has the text twice, the run [cat]
    between the tags once, the last run not at all. *)
Lemma highlight_marks_runs_witness :
  txt "cat" <> [] /\ literal (txt "cat") = true /\ forallb plain (txt "cat") = true /\
  exists r0' segs',
    highlightHtml (txt "cat cat<b>cat</b>") (txt "cat") = Compiled (render r0' segs') /\
    run_wrapped (txt "cat") (txt "cat cat") r0' /\
    Forall2 (fun sg sg' => fst sg' = fst sg /\ run_wrapped (txt "cat") (snd sg) (snd sg'))
            [(txt "b", txt "cat"); (txt "/b", [])] segs'.
Proof.
  split; [discriminate |]. split; [reflexivity |]. split; [reflexivity |].
  apply (highlight_marks_runs (txt "cat") (txt "cat cat<b>cat</b>") (txt "cat cat")
           [(txt "b", txt "cat"); (txt "/b", [])]).
  - discriminate.
  - reflexivity.
  - reflexivity.
  - vm_compute. reflexivity.
  - reflexivity.
  - repeat (apply Forall_cons; [split; reflexivity |]). apply Forall_nil.
Defined.

Lemma unreset_array_grows_witness :
  is_function (reset_callback (configure notify_options) NoMatchRows) = false /\
  exists l,
    get NoMatchRows
        (session table (configure notify_options)
           ([CallSearchFor (txt "cat")] ++ [CallReset; CallSearchFor (txt "bob")]) people)
    = get NoMatchRows
          (session table (configure notify_options) [CallSearchFor (txt "cat")] people)
      ++ l.
Proof.
  split; [reflexivity |].
  exact (@unreset_array_grows page nat page_dom table (configure notify_options)
           NoMatchRows people [CallSearchFor (txt "cat")]
           [CallReset; CallSearchFor (txt "bob")] eq_refl).
Defined.
